(** * Breadth-first maze traversal (bfs.c): shallow embedding and proofs

    The C program keeps the maze in a two-dimensional array of cells and the
    BFS frontier in a singly linked list whose nodes also carry a parent
    pointer.  Here the maze is a record holding a list of rows, a cell
    pointer [&maze->cells[r][c]] is the pair [(r, c)], and the linked list is
    an arena [list list_t]: node [k]'s [next] is node [k + 1] (NULL after the
    last one) and a [list_t *] is an index into the arena.  Every memory
    access is checked against the rows that the maze holds (the grid itself,
    or the rows that [new_maze] allocates), and a failed check makes the
    whole computation return [OutOfBounds].  The two recursions that follow
    the links of the list take fuel and return [OutOfFuel] when it runs out.
    Standard input is the list of the characters still to be read, and the
    output is the list of the characters printed. *)

From Stdlib Require Import ZArith Ascii String Lia ZifyBool DecimalString.
From stdpp Require Import base list.

Local Open Scope Z_scope.

(** ** Constants *)

Definition MAX_ROWS : Z := 100.
Definition MAX_COLS : Z := 100.
Definition WALL : ascii := "#"%char.
Definition PATH : ascii := "."%char.
Definition NOTVISIT : Z := -1.
Definition TRUE : Z := 1.
Definition FALSE : Z := 0.
Definition NIL : Z := 0.

(** ** Machine integers

    [int] is 32 bits wide; sums and differences are reduced to the signed
    range. *)

Definition int_wrap (z : Z) : Z := (z + 2 ^ 31) mod 2 ^ 32 - 2 ^ 31.
Definition int_add (a b : Z) : Z := int_wrap (a + b).
Definition int_sub (a b : Z) : Z := int_wrap (a - b).

(** ** Structures *)

Record cell_t := Cell {
  c_x : Z;          (* x-coordinate (row)          *)
  c_y : Z;          (* y-coordinate (column)       *)
  c_cost : Z;       (* cost from nearest entrance  *)
  c_reach : Z;      (* reachability of the cell    *)
  c_soln : Z;       (* part of the shortest path   *)
  c_type : ascii    (* cell visualisation          *)
}.

Record maze_t := Maze {
  m_rows : Z;
  m_cols : Z;
  m_cost : Z;       (* lowest cost of solution     *)
  m_soln : Z;       (* maze has a solution         *)
  m_cells : list (list cell_t)
}.

Abbreviation cell_ptr := (Z * Z)%type.

Record list_t := Node {
  l_cell : cell_ptr;        (* corresponding cell in the maze      *)
  l_parent : option nat     (* parent node, [None] for NULL        *)
}.

(** ** Results of a run *)

Inductive result (A : Type) : Type :=
| Ok (a : A)
| OutOfBounds
| OutOfFuel.
Arguments Ok {A} a.
Arguments OutOfBounds {A}.
Arguments OutOfFuel {A}.

Definition bind {A B : Type} (r : result A) (k : A → result B) : result B :=
  match r with
  | Ok a => k a
  | OutOfBounds => OutOfBounds
  | OutOfFuel => OutOfFuel
  end.

Notation "'let*' x ':=' c1 'in' c2" := (bind c1 (fun x => c2))
  (at level 10, x name, c1 at level 100, c2 at level 200).
Notation "'let*' ' pat ':=' c1 'in' c2" :=
  (bind c1 (fun x => match x with pat => c2 end))
  (at level 10, pat pattern, c1 at level 100, c2 at level 200).

(** ** Memory: cells of the maze *)

Definition get_cell (m : maze_t) (p : cell_ptr) : option cell_t :=
  if decide (0 ≤ p.1 ∧ 0 ≤ p.2) then
    match m_cells m !! Z.to_nat p.1 with
    | Some row => row !! Z.to_nat p.2
    | None => None
    end
  else None.

Definition put_cell (m : maze_t) (p : cell_ptr) (c : cell_t) : maze_t :=
  match m_cells m !! Z.to_nat p.1 with
  | Some row =>
      Maze (m_rows m) (m_cols m) (m_cost m) (m_soln m)
           (<[Z.to_nat p.1 := <[Z.to_nat p.2 := c]> row]> (m_cells m))
  | None => m
  end.

Definition load (m : maze_t) (p : cell_ptr) : result cell_t :=
  match get_cell m p with
  | Some c => Ok c
  | None => OutOfBounds
  end.

Definition store (m : maze_t) (p : cell_ptr) (f : cell_t → cell_t) : result maze_t :=
  match get_cell m p with
  | Some c => Ok (put_cell m p (f c))
  | None => OutOfBounds
  end.

Definition with_cost (v : Z) (c : cell_t) : cell_t :=
  Cell (c_x c) (c_y c) v (c_reach c) (c_soln c) (c_type c).
Definition with_reach (v : Z) (c : cell_t) : cell_t :=
  Cell (c_x c) (c_y c) (c_cost c) v (c_soln c) (c_type c).
Definition with_soln (v : Z) (c : cell_t) : cell_t :=
  Cell (c_x c) (c_y c) (c_cost c) (c_reach c) v (c_type c).

Definition set_maze_cost (v : Z) (m : maze_t) : maze_t :=
  Maze (m_rows m) (m_cols m) v (m_soln m) (m_cells m).
Definition set_maze_soln (v : Z) (m : maze_t) : maze_t :=
  Maze (m_rows m) (m_cols m) (m_cost m) v (m_cells m).

(** [maze->cells[x]]: the row pointer is read from the array of rows. *)
Definition row_ptr (m : maze_t) (x : Z) : result cell_ptr :=
  if decide (0 ≤ x < Z.of_nat (length (m_cells m))) then Ok (x, 0)
  else OutOfBounds.

Definition is_path (c : cell_t) : bool := Ascii.eqb (c_type c) PATH.

(** ** The queue *)

Abbreviation queue_t := (list list_t).

(** [queue->next] *)
Definition next (q : queue_t) (k : nat) : option nat :=
  if decide (S k < length q)%nat then Some (S k) else None.

(** The head of the arena as a [list_t *]. *)
Definition head_ptr (q : queue_t) : option nat :=
  match q with
  | [] => None
  | _ :: _ => Some 0%nat
  end.

(** [append] walks the [next] links of the list it is given and hangs a new
    node behind the last one; [l] is the list seen from the node it is
    called on. *)
Fixpoint append (l : queue_t) (parent : option nat) (cell : cell_ptr) : queue_t :=
  match l with
  | [] => []
  | n :: rest =>
      match rest with
      | [] => [n; Node cell parent]
      | _ :: _ => n :: append rest parent cell
      end
  end.

(** [append] called on the node at index [k] of the arena. *)
Definition append_at (q : queue_t) (k : nat) (parent : option nat)
    (cell : cell_ptr) : queue_t :=
  take k q ++ append (drop k q) parent cell.

(** [prepend] is only ever called on the empty list: the new node becomes
    the head, at index 0. *)
Definition prepend (q : queue_t) (cell : cell_ptr) : queue_t :=
  Node cell None :: q.

(** ** Traversal *)

Definition visit_cell (m : maze_t) (q : queue_t) (queue : nat)
    (x y cost : Z) : result (maze_t * queue_t) :=
  let* m1 := store m (x, y) (with_reach TRUE) in
  let* c := load m1 (x, y) in
  if (c_cost c <? NIL) || (cost <? c_cost c) then
    let* m2 := store m1 (x, y) (with_cost cost) in
    Ok (m2, append_at q queue (Some queue) (x, y))
  else Ok (m1, q).

Definition flood_up (m : maze_t) (q : queue_t) (queue : nat)
    (x y cost : Z) : result (maze_t * queue_t) :=
  if x >=? NIL then
    let* c := load m (x, y) in
    if is_path c then visit_cell m q queue x y cost else Ok (m, q)
  else Ok (m, q).

Definition flood_down (m : maze_t) (q : queue_t) (queue : nat)
    (x y cost : Z) : result (maze_t * queue_t) :=
  if x <? m_rows m then
    let* c := load m (x, y) in
    if is_path c then visit_cell m q queue x y cost else Ok (m, q)
  else Ok (m, q).

Definition flood_left (m : maze_t) (q : queue_t) (queue : nat)
    (x y cost : Z) : result (maze_t * queue_t) :=
  if y >=? NIL then
    let* c := load m (x, y) in
    if is_path c then visit_cell m q queue x y cost else Ok (m, q)
  else Ok (m, q).

Definition flood_right (m : maze_t) (q : queue_t) (queue : nat)
    (x y cost : Z) : result (maze_t * queue_t) :=
  if y <? m_cols m then
    let* c := load m (x, y) in
    if is_path c then visit_cell m q queue x y cost else Ok (m, q)
  else Ok (m, q).

(** [queue] is the index of the node being expanded; the recursion on
    [queue->next] is not structural because the floods lengthen the list,
    hence the fuel. *)
Fixpoint recursive_flood (fuel : nat) (m : maze_t) (q : queue_t)
    (queue : nat) : result (maze_t * queue_t) :=
  match q !! queue with
  | None => Ok (m, q)
  | Some node =>
      match fuel with
      | O => OutOfFuel
      | S fuel' =>
          let* c := load m (l_cell node) in
          let x := c_x c in
          let y := c_y c in
          let cost := c_cost c in
          let* '(m1, q1) := flood_right m q queue x (int_add y 1) (int_add cost 1) in
          let* '(m2, q2) := flood_down m1 q1 queue (int_add x 1) y (int_add cost 1) in
          let* '(m3, q3) := flood_left m2 q2 queue x (int_sub y 1) (int_add cost 1) in
          let* '(m4, q4) := flood_up m3 q3 queue (int_sub x 1) y (int_add cost 1) in
          recursive_flood fuel' m4 q4 (S queue)
      end
  end.

(** The part of [recursive_flood] that deals with one node: the four floods
    around its cell.  [recursive_flood_unfold] below shows that
    [recursive_flood] is this body followed by the recursive call. *)
Definition expand (m : maze_t) (q : queue_t) (queue : nat)
    (node : list_t) : result (maze_t * queue_t) :=
  let* c := load m (l_cell node) in
  let x := c_x c in
  let y := c_y c in
  let cost := c_cost c in
  let* '(m1, q1) := flood_right m q queue x (int_add y 1) (int_add cost 1) in
  let* '(m2, q2) := flood_down m1 q1 queue (int_add x 1) y (int_add cost 1) in
  let* '(m3, q3) := flood_left m2 q2 queue x (int_sub y 1) (int_add cost 1) in
  flood_up m3 q3 queue (int_sub x 1) y (int_add cost 1).

(** [find_entries]: [lim] counts the cells left in the row. *)
Fixpoint find_entries_walk (lim : nat) (m : maze_t) (cell : cell_ptr)
    (q : queue_t) : result (maze_t * queue_t) :=
  match lim with
  | O => Ok (m, q)
  | S lim' =>
      let* c := load m cell in
      let* '(m', q') :=
        (if is_path c then
           let* m1 := store m cell (with_reach TRUE) in
           let* m2 := store m1 cell (with_cost FALSE) in
           Ok (m2, match q with
                   | [] => prepend q cell
                   | _ :: _ => append_at q 0 None cell
                   end)
         else Ok (m, q)) in
      find_entries_walk lim' m' (cell.1, cell.2 + 1) q'
  end.

(** A negative [lim] never reaches zero before the walk leaves the row. *)
Definition find_entries (m : maze_t) (cell : cell_ptr) (q : queue_t)
    (lim : Z) : result (maze_t * queue_t) :=
  if lim <? 0 then OutOfBounds else find_entries_walk (Z.to_nat lim) m cell q.

(** [find_exit]: [exit] and [cost] are the best exit so far and its cost,
    [None] and a negative cost as long as there is none. *)
Fixpoint find_exit_walk (lim : nat) (m : maze_t) (cell : cell_ptr)
    (exit : option cell_ptr) (cost : Z) : result (option cell_ptr) :=
  match lim with
  | O => Ok exit
  | S lim' =>
      let* c := load m cell in
      if is_path c && negb (c_reach c =? 0) then
        if (cost <? NIL) || ((c_cost c >=? NIL) && (c_cost c <? cost)) then
          find_exit_walk lim' m (cell.1, cell.2 + 1) (Some cell) (c_cost c)
        else find_exit_walk lim' m (cell.1, cell.2 + 1) exit cost
      else find_exit_walk lim' m (cell.1, cell.2 + 1) exit cost
  end.

(** As for [find_entries], a negative [lim] makes the walk leave the row. *)
Definition find_exit (m : maze_t) (cell : cell_ptr) (exit : option cell_ptr)
    (cost lim : Z) : result (option cell_ptr) :=
  if lim <? 0 then OutOfBounds else find_exit_walk (Z.to_nat lim) m cell exit cost.

(** [shortest_path] follows [next] until it meets the exit and [parent]
    from there on; the fuel bounds the number of calls. *)
Fixpoint shortest_path (fuel : nat) (m : maze_t) (q : queue_t)
    (queue : option nat) (exit : option cell_ptr) : result (maze_t * Z) :=
  match queue with
  | None => Ok (m, -1)
  | Some k =>
      match q !! k with
      | None => OutOfBounds
      | Some node =>
          match fuel with
          | O => OutOfFuel
          | S fuel' =>
              if match exit with
                 | None => true
                 | Some e => bool_decide (l_cell node = e)
                 end
              then
                let* m1 := store m (l_cell node) (with_soln TRUE) in
                let* '(m2, n) := shortest_path fuel' m1 q (l_parent node) None in
                Ok (m2, int_add 1 n)
              else shortest_path fuel' m q (next q k) exit
          end
      end
  end.

(** The first two statements of [traverse_maze]: the queue of entrances,
    then the flood. *)
Definition flood_maze (fuel : nat) (m : maze_t) : result (maze_t * queue_t) :=
  let* row0 := row_ptr m 0 in
  let* '(m1, q1) := find_entries m row0 [] (m_cols m) in
  recursive_flood fuel m1 q1 0.

(** [ex = find_exit(maze->cells[LAST_ROW], NULL, NOTVISIT, maze->cols)]:
    the row pointer is only passed on here.  [find_exit] follows it when
    [lim] is not zero, and the row is checked there, with the cell that is
    read; with no column the pointer is never followed. *)
Definition select_exit (m : maze_t) : result (option cell_ptr) :=
  find_exit m (int_sub (m_rows m) 1, 0) None NOTVISIT (m_cols m).

(** The queue is freed at the end and only the maze is returned. *)
Definition traverse_maze (fuel : nat) (m : maze_t) : result maze_t :=
  let* '(m2, q2) := flood_maze fuel m in
  let* ex := select_exit m2 in
  match ex with
  | Some e =>
      let* '(m3, n) := shortest_path fuel m2 q2 (head_ptr q2) (Some e) in
      Ok (set_maze_soln TRUE (set_maze_cost n m3))
  | None => Ok m2
  end.

(** ** Allocation

    [calloc] returns zeroed memory, and the program stops in [assert] when
    an allocation fails: the model covers the runs in which none does.
    [new_row] asks for [sizeof (cell_t)] objects of [MAX_COLS * sizeof
    (cell_t)] bytes each, which is room for [sizeof (cell_t) * MAX_COLS]
    cells in every row; the size of a cell depends on the platform and is a
    parameter here. *)

Definition zero_cell : cell_t := Cell 0 0 0 0 0 zero.

(** The rows [new_row] allocates for the [lim] row pointers that are left. *)
Fixpoint new_row (sizeof_cell : nat) (lim : nat) : list (list cell_t) :=
  match lim with
  | O => []
  | S lim' =>
      replicate (sizeof_cell * Z.to_nat MAX_COLS) zero_cell
      :: new_row sizeof_cell lim'
  end.

Definition new_maze (sizeof_cell : nat) : maze_t :=
  Maze 0 0 0 0 (new_row sizeof_cell (Z.to_nat MAX_ROWS)).

(** ** Reading the maze *)

Definition NEWLINE : ascii := "010"%char.
Definition EOF : Z := -1.

(** Standard input is the list of the characters not read yet.
    [scanf_char inp c] is [scanf("%c", &c)]: the value of the call, the
    content of [c] after it, and the input that is left.  At the end of the
    input [scanf] returns [EOF] and leaves [c] as it was. *)
Definition scanf_char (inp : list ascii) (c : ascii) : Z * ascii * list ascii :=
  match inp with
  | [] => (EOF, c, [])
  | a :: rest => (1, a, rest)
  end.

Definition with_x (v : Z) (c : cell_t) : cell_t :=
  Cell v (c_y c) (c_cost c) (c_reach c) (c_soln c) (c_type c).
Definition with_y (v : Z) (c : cell_t) : cell_t :=
  Cell (c_x c) v (c_cost c) (c_reach c) (c_soln c) (c_type c).
Definition with_type (t : ascii) (c : cell_t) : cell_t :=
  Cell (c_x c) (c_y c) (c_cost c) (c_reach c) (c_soln c) t.

Definition set_maze_rows (v : Z) (m : maze_t) : maze_t :=
  Maze v (m_cols m) (m_cost m) (m_soln m) (m_cells m).
Definition set_maze_cols (v : Z) (m : maze_t) : maze_t :=
  Maze (m_rows m) v (m_cost m) (m_soln m) (m_cells m).

(** [read_cell]: [cell] is the row, [c] the character read last, [lim] the
    number of cells left in the row, counted down from [MAX_COLS].  The
    result is the maze, the input that is left and the value returned. *)
Fixpoint read_cell (lim : nat) (m : maze_t) (inp : list ascii)
    (cell : cell_ptr) (c : ascii) (x y : Z)
    : result (maze_t * list ascii * Z) :=
  match lim with
  | O => Ok (m, inp, 1)
  | S lim' =>
      if negb (Ascii.eqb c NEWLINE) then
        let p := (cell.1, cell.2 + y) in
        let* m1 := store m p (with_x x) in
        let* m2 := store m1 p (with_y y) in
        let* m3 := store m2 p (with_type c) in
        let* m4 := store m3 p (with_cost NOTVISIT) in
        let '(r, c', inp') := scanf_char inp c in
        if negb (r =? 0) && negb (Ascii.eqb c' NEWLINE) then
          let* '(m5, inp'', n) :=
            read_cell lim' m4 inp' cell c' x (int_add y 1) in
          Ok (m5, inp'', int_add 1 n)
        else Ok (m4, inp', 1)
      else Ok (m, inp, 1)
  end.

(** [read_row]: [lim] is the number of rows left, counted down from
    [MAX_ROWS]. *)
Fixpoint read_row (lim : nat) (m : maze_t) (inp : list ascii)
    (c : ascii) (x : Z) : result (maze_t * list ascii * Z) :=
  match lim with
  | O => Ok (m, inp, 1)
  | S lim' =>
      let* row := row_ptr m x in
      let* '(m1, inp1, n) :=
        read_cell (Z.to_nat MAX_COLS) m inp row c x NIL in
      let m2 := set_maze_cols n m1 in
      let '(r, c', inp2) := scanf_char inp1 c in
      if negb (r =? EOF) then
        let* '(m3, inp3, k) := read_row lim' m2 inp2 c' (int_add x 1) in
        Ok (m3, inp3, int_add 1 k)
      else Ok (m2, inp2, 1)
  end.

(** [read_maze]: [c] is not initialised, and it is not looked at when the
    first [scanf] returns [EOF]. *)
Definition read_maze (m : maze_t) (inp : list ascii)
    : result (maze_t * list ascii) :=
  let '(r, c, inp1) := scanf_char inp zero in
  if negb (r =? EOF) && negb (Ascii.eqb c NEWLINE) then
    let* '(m1, inp2, n) := read_row (Z.to_nat MAX_ROWS) m inp1 c NIL in
    Ok (set_maze_rows n m1, inp2)
  else Ok (m, inp1).

(** ** Printing

    The output of a function is the list of the characters it prints.  A
    pointer to a row pointer is the index of that row, and the cell [y] of
    the row that [cell] points to is the cell [(cell, y)]. *)

Definition REACHABLE : ascii := "+"%char.
Definition UNREACHABLE : ascii := "-"%char.
Definition NONSOLUTION : ascii := " "%char.

(** [printf("%d", v)] *)
Definition printf_d (v : Z) : list ascii :=
  list_ascii_of_string (NilZero.string_of_int (Z.to_int v)).

(** [printf(TWODIGIT, v)], that is "%2d": blanks first when [v] takes less
    than two characters. *)
Definition printf_TWODIGIT (v : Z) : list ascii :=
  replicate (2 - length (printf_d v)) " "%char ++ printf_d v.

(** [printf(ONEDIGIT, v)], that is "0%1d". *)
Definition printf_ONEDIGIT (v : Z) : list ascii := "0"%char :: printf_d v.

(** The stage printers recurse on [ylim] along a row and on [xlim] from row
    to row, where [ylim] is set again to the number of columns printed,
    [y]. *)
Fixpoint print_stage_1_walk (m : maze_t) (xlim : nat) (cell x : Z)
    {struct xlim} : nat → Z → result (list ascii) :=
  fix row (ylim : nat) (y : Z) {struct ylim} : result (list ascii) :=
    match xlim with
    | O => Ok []
    | S xlim' =>
        match ylim with
        | S ylim' =>
            let* c := load m (cell, y) in
            let* out := row ylim' (int_add y 1) in
            Ok ([c_type c; c_type c] ++ out)
        | O =>
            let* out :=
              print_stage_1_walk m xlim' (cell + 1) (int_add x 1)
                (Z.to_nat y) NIL in
            Ok (NEWLINE :: out)
        end
    end.

Fixpoint print_stage_2_walk (m : maze_t) (xlim : nat) (cell x : Z)
    {struct xlim} : nat → Z → result (list ascii) :=
  fix row (ylim : nat) (y : Z) {struct ylim} : result (list ascii) :=
    match xlim with
    | O => Ok []
    | S xlim' =>
        match ylim with
        | S ylim' =>
            let* c := load m (cell, y) in
            let s :=
              if is_path c then
                if negb (c_reach c =? 0) then [REACHABLE; REACHABLE]
                else [UNREACHABLE; UNREACHABLE]
              else [c_type c; c_type c] in
            let* out := row ylim' (int_add y 1) in
            Ok (s ++ out)
        | O =>
            let* out :=
              print_stage_2_walk m xlim' (cell + 1) (int_add x 1)
                (Z.to_nat y) NIL in
            Ok (NEWLINE :: out)
        end
    end.

(** [%] is the remainder of the division that rounds towards zero. *)
Fixpoint print_stage_3_walk (m : maze_t) (xlim : nat) (cell x : Z)
    {struct xlim} : nat → Z → result (list ascii) :=
  fix row (ylim : nat) (y : Z) {struct ylim} : result (list ascii) :=
    match xlim with
    | O => Ok []
    | S xlim' =>
        match ylim with
        | S ylim' =>
            let* c := load m (cell, y) in
            let s :=
              if is_path c then
                if negb (c_reach c =? 0) then
                  if Z.rem (c_cost c) 2 =? 0 then
                    if Z.rem (c_cost c) 100 >? 9
                    then printf_TWODIGIT (Z.rem (c_cost c) 100)
                    else printf_ONEDIGIT (Z.rem (c_cost c) 100)
                  else [REACHABLE; REACHABLE]
                else [UNREACHABLE; UNREACHABLE]
              else [c_type c; c_type c] in
            let* out := row ylim' (int_add y 1) in
            Ok (s ++ out)
        | O =>
            let* out :=
              print_stage_3_walk m xlim' (cell + 1) (int_add x 1)
                (Z.to_nat y) NIL in
            Ok (NEWLINE :: out)
        end
    end.

Fixpoint print_stage_4_walk (m : maze_t) (xlim : nat) (cell x : Z)
    {struct xlim} : nat → Z → result (list ascii) :=
  fix row (ylim : nat) (y : Z) {struct ylim} : result (list ascii) :=
    match xlim with
    | O => Ok []
    | S xlim' =>
        match ylim with
        | S ylim' =>
            let* c := load m (cell, y) in
            let s :=
              if is_path c then
                if negb (c_reach c =? 0) then
                  if negb (c_soln c =? 0) then
                    if Z.rem (c_cost c) 2 =? 0 then
                      if Z.rem (c_cost c) 100 >? 9
                      then printf_TWODIGIT (Z.rem (c_cost c) 100)
                      else printf_ONEDIGIT (Z.rem (c_cost c) 100)
                    else [PATH; PATH]
                  else [NONSOLUTION; NONSOLUTION]
                else [UNREACHABLE; UNREACHABLE]
              else [c_type c; c_type c] in
            let* out := row ylim' (int_add y 1) in
            Ok (s ++ out)
        | O =>
            let* out :=
              print_stage_4_walk m xlim' (cell + 1) (int_add x 1)
                (Z.to_nat y) NIL in
            Ok (NEWLINE :: out)
        end
    end.

(** A negative limit never reaches zero: the recursion goes on until it
    leaves the rows. *)
Definition print_stage_1 (m : maze_t) (cell x y xlim ylim : Z)
    : result (list ascii) :=
  if (xlim <? 0) || (ylim <? 0) then OutOfBounds
  else print_stage_1_walk m (Z.to_nat xlim) cell x (Z.to_nat ylim) y.

Definition print_stage_2 (m : maze_t) (cell x y xlim ylim : Z)
    : result (list ascii) :=
  if (xlim <? 0) || (ylim <? 0) then OutOfBounds
  else print_stage_2_walk m (Z.to_nat xlim) cell x (Z.to_nat ylim) y.

Definition print_stage_3 (m : maze_t) (cell x y xlim ylim : Z)
    : result (list ascii) :=
  if (xlim <? 0) || (ylim <? 0) then OutOfBounds
  else print_stage_3_walk m (Z.to_nat xlim) cell x (Z.to_nat ylim) y.

Definition print_stage_4 (m : maze_t) (cell x y xlim ylim : Z)
    : result (list ascii) :=
  if (xlim <? 0) || (ylim <? 0) then OutOfBounds
  else print_stage_4_walk m (Z.to_nat xlim) cell x (Z.to_nat ylim) y.

Definition STAGENUM (n : Z) : list ascii :=
  list_ascii_of_string "Stage " ++ printf_d n ++ [NEWLINE]
  ++ list_ascii_of_string "=======" ++ [NEWLINE].
Definition PRINT1 (rows cols : Z) : list ascii :=
  list_ascii_of_string "maze has " ++ printf_d rows
  ++ list_ascii_of_string " rows and " ++ printf_d cols
  ++ list_ascii_of_string " columns" ++ [NEWLINE].
Definition PRINT2A : list ascii :=
  list_ascii_of_string "maze has a solution" ++ [NEWLINE].
Definition PRINT2B : list ascii :=
  list_ascii_of_string "maze has no solution" ++ [NEWLINE].
Definition PRINT3A (cost : Z) : list ascii :=
  list_ascii_of_string "maze has solution with cost " ++ printf_d cost
  ++ [NEWLINE].
Definition PRINT3B : list ascii :=
  list_ascii_of_string "maze has no solution" ++ [NEWLINE].
Definition PRINT4 : list ascii :=
  list_ascii_of_string "maze solution" ++ [NEWLINE].

(** [print_maze] returns the maze as it is; the result here is what it
    prints. *)
Definition print_maze (m : maze_t) : result (list ascii) :=
  let* s1 := print_stage_1 m 0 NIL NIL (m_rows m) (m_cols m) in
  let* s2 := print_stage_2 m 0 NIL NIL (m_rows m) (m_cols m) in
  let* s3 := print_stage_3 m 0 NIL NIL (m_rows m) (m_cols m) in
  if negb (m_soln m =? 0) then
    let* s4 := print_stage_4 m 0 NIL NIL (m_rows m) (m_cols m) in
    Ok (STAGENUM 1 ++ PRINT1 (m_rows m) (m_cols m) ++ s1 ++ [NEWLINE]
        ++ STAGENUM 2 ++ PRINT2A ++ s2 ++ [NEWLINE]
        ++ STAGENUM 3 ++ PRINT3A (m_cost m) ++ s3 ++ [NEWLINE]
        ++ STAGENUM 4 ++ PRINT4 ++ s4)
  else
    Ok (STAGENUM 1 ++ PRINT1 (m_rows m) (m_cols m) ++ s1 ++ [NEWLINE]
        ++ STAGENUM 2 ++ PRINT2B ++ s2 ++ [NEWLINE]
        ++ STAGENUM 3 ++ PRINT3B ++ s3).

(** ** The program

    [free_maze] gives the memory back and returns [EXIT_SUCCESS]; the heap
    is not part of the model.  The result of [main] is what it prints and
    the value it returns. *)
Definition EXIT_SUCCESS : Z := 0.

Definition main (sizeof_cell fuel : nat) (inp : list ascii)
    : result (list ascii * Z) :=
  let* '(m, _) := read_maze (new_maze sizeof_cell) inp in
  let* m' := traverse_maze fuel m in
  let* out := print_maze m' in
  Ok (out, EXIT_SUCCESS).

(** ** Mazes as the reader leaves them *)

(** The cell at row [x] and column [y] read from the character [t]. *)
Definition fresh_cell (x y : nat) (t : ascii) : cell_t :=
  Cell (Z.of_nat x) (Z.of_nat y) NOTVISIT FALSE FALSE t.

(** The maze read from the lines [l]. *)
Definition maze_of_rows (l : list string) : maze_t :=
  Maze (Z.of_nat (length l))
       (match l with
        | [] => 0
        | s :: _ => Z.of_nat (String.length s)
        end)
       0 FALSE
       (imap (λ x s, imap (λ y t, fresh_cell x y t) (list_ascii_of_string s)) l).

(** A cell as [read_cell] and [calloc] leave it. *)
Definition fresh_cellb (x y : nat) (c : cell_t) : bool :=
  (c_x c =? Z.of_nat x) && (c_y c =? Z.of_nat y) && (c_cost c =? NOTVISIT)
  && (c_reach c =? FALSE) && (c_soln c =? FALSE).

(** A valid input grid: between 1 and [MAX_ROWS] rows and between 1 and
    [MAX_COLS] columns, all rows of the same length, every cell with its
    coordinates, no cost, not reached and not on the solution, and a maze
    without solution yet. *)
Definition valid_mazeb (m : maze_t) : bool :=
  (1 <=? m_rows m) && (m_rows m <=? MAX_ROWS)
  && (1 <=? m_cols m) && (m_cols m <=? MAX_COLS)
  && (Z.of_nat (length (m_cells m)) =? m_rows m)
  && forallb id
       (imap (λ x row,
                (Z.of_nat (length row) =? m_cols m)
                && forallb id (imap (fresh_cellb x) row))
             (m_cells m))
  && (m_soln m =? FALSE).

Definition valid_maze (m : maze_t) : Prop := valid_mazeb m = true.

(** Scenario A of the specification. *)
Definition scenario_a : maze_t := maze_of_rows [".#."; "..."; ".#."]%string.

(** * Definitions used to state the properties *)

(** ** Observations of a maze

    The fields of the cell a pointer designates; outside the grid they read
    as a cell nobody has touched. *)

Definition cost_of (m : maze_t) (p : cell_ptr) : Z :=
  match get_cell m p with
  | Some c => c_cost c
  | None => NOTVISIT
  end.

Definition reach_of (m : maze_t) (p : cell_ptr) : Z :=
  match get_cell m p with
  | Some c => c_reach c
  | None => FALSE
  end.

Definition soln_of (m : maze_t) (p : cell_ptr) : Z :=
  match get_cell m p with
  | Some c => c_soln c
  | None => FALSE
  end.

(** The cell is in the grid and its type is [PATH]. *)
Definition open_at (m : maze_t) (p : cell_ptr) : bool :=
  match get_cell m p with
  | Some c => is_path c
  | None => false
  end.

Definition in_grid (m : maze_t) (p : cell_ptr) : Prop :=
  0 ≤ p.1 < m_rows m ∧ 0 ≤ p.2 < m_cols m.

(** The fields the traversal never writes. *)
Definition static (c : cell_t) : Z * Z * ascii := (c_x c, c_y c, c_type c).

(** What [valid_mazeb] checks, as propositions. *)
Record valid_facts (m : maze_t) : Prop := {
  vf_rows : 1 ≤ m_rows m ≤ MAX_ROWS;
  vf_cols : 1 ≤ m_cols m ≤ MAX_COLS;
  vf_len : Z.of_nat (length (m_cells m)) = m_rows m;
  vf_soln : m_soln m = FALSE;
  vf_grid : ∀ p, in_grid m p → is_Some (get_cell m p);
  vf_cell : ∀ p c, get_cell m p = Some c →
    in_grid m p ∧ c_x c = p.1 ∧ c_y c = p.2 ∧ c_cost c = NOTVISIT
    ∧ c_reach c = FALSE ∧ c_soln c = FALSE
}.

(** [m] has the dimensions of [m0] and the same coordinates and types in
    its cells. *)
Record same_static (m0 m : maze_t) : Prop := {
  ss_rows : m_rows m = m_rows m0;
  ss_cols : m_cols m = m_cols m0;
  ss_len : length (m_cells m) = length (m_cells m0);
  ss_cells : ∀ p, static <$> get_cell m p = static <$> get_cell m0 p
}.

(** ** Walks over Open cells *)

(** [p'] is one step right, left, down or up from [p]. *)
Definition adjacent (p p' : cell_ptr) : Prop :=
  (p'.1 = p.1 ∧ (p'.2 = p.2 + 1 ∨ p'.2 = p.2 - 1))
  ∨ (p'.2 = p.2 ∧ (p'.1 = p.1 + 1 ∨ p'.1 = p.1 - 1)).

(** An entrance is an Open cell of row 0. *)
Definition entrance (m : maze_t) (p : cell_ptr) : Prop :=
  p.1 = 0 ∧ open_at m p = true.

(** [open_path m l p]: [l] lists the cells of a walk that starts at an
    entrance, ends at [p], moves between 4-adjacent cells and stays on Open
    cells.  Such a walk makes [length l - 1] steps.  [open_path_iff] below
    spells the four conditions out. *)
Inductive open_path (m : maze_t) : list cell_ptr → cell_ptr → Prop :=
| open_path_entry e : entrance m e → open_path m [e] e
| open_path_step l p p' :
    open_path m l p → adjacent p p' → open_at m p' = true →
    open_path m (l ++ [p']) p'.

(** [d] is the number of steps of a shortest walk from an entrance to
    [p]. *)
Definition shortest (m : maze_t) (p : cell_ptr) (d : Z) : Prop :=
  (∃ l, open_path m l p ∧ Z.of_nat (length l) = d + 1)
  ∧ ∀ l, open_path m l p → d + 1 ≤ Z.of_nat (length l).

(** Some walk joins [p] to an entrance. *)
Definition connected (m : maze_t) (p : cell_ptr) : Prop := ∃ l, open_path m l p.

(** ** Views of the code *)

(** The body shared by the four floods once their guard has passed. *)
Definition attempt (m : maze_t) (q : queue_t) (queue : nat)
    (x y cost : Z) : result (maze_t * queue_t) :=
  let* c := load m (x, y) in
  if is_path c then visit_cell m q queue x y cost else Ok (m, q).

(** The neighbours of [(r, c)] that pass the bounds check of their flood,
    in the order in which the floods are called. *)
Definition guarded_neighbours (m : maze_t) (r c : Z) : list cell_ptr :=
  (if c + 1 <? m_cols m then [(r, c + 1)] else [])
  ++ (if r + 1 <? m_rows m then [(r + 1, c)] else [])
  ++ (if c - 1 >=? 0 then [(r, c - 1)] else [])
  ++ (if r - 1 >=? 0 then [(r - 1, c)] else []).

(** Stepping to the cells of [ws] one after the other. *)
Fixpoint attempts (m : maze_t) (q : queue_t) (queue : nat)
    (ws : list cell_ptr) (cost : Z) : result (maze_t * queue_t) :=
  match ws with
  | [] => Ok (m, q)
  | w :: ws' =>
      let* '(m1, q1) := attempt m q queue w.1 w.2 cost in
      attempts m1 q1 queue ws' cost
  end.

(** [flood_at m0 i m q]: started on [m0], the flood is about to look at node
    [i] with the maze [m] and the queue [q], that is, [recursive_flood] is
    called on [m], [q] and [i]. *)
Inductive flood_at (m0 : maze_t) : nat → maze_t → queue_t → Prop :=
| flood_at_start m1 q1 :
    find_entries m0 (0, 0) [] (m_cols m0) = Ok (m1, q1) →
    flood_at m0 0 m1 q1
| flood_at_next i m q node m' q' :
    flood_at m0 i m q → q !! i = Some node →
    expand m q i node = Ok (m', q') →
    flood_at m0 (S i) m' q'.

(** Fuel that is enough for the flood and for the walk back along the
    solution. *)
Definition fuel_bound (m : maze_t) : nat := Z.to_nat (2 * (m_rows m * m_cols m)).

(** ** The invariant of the flood *)

(** A root sits in row 0 with cost 0; any other node was queued from its
    parent, an earlier node whose cell is adjacent and one step cheaper. *)
Definition parent_ok (m : maze_t) (q : queue_t) (k : nat) (n : list_t) : Prop :=
  match l_parent n with
  | None => (l_cell n).1 = 0 ∧ cost_of m (l_cell n) = 0
  | Some p =>
      (p < k)%nat
      ∧ ∃ pn, q !! p = Some pn ∧ adjacent (l_cell pn) (l_cell n)
              ∧ cost_of m (l_cell n) = cost_of m (l_cell pn) + 1
  end.

(** [inv m0 m q i]: started on the maze [m0], the traversal has reached the
    maze [m] and the queue [q], and the nodes before [i] are expanded.  The
    queue holds each cell at most once, in order of cost, on at most two
    consecutive levels from node [i] on; the cells outside the queue are
    untouched; the neighbours of an expanded node are queued. *)
Record inv (m0 m : maze_t) (q : queue_t) (i : nat) : Prop := {
  inv_static : same_static m0 m;
  inv_maze : m_soln m = m_soln m0 ∧ m_cost m = m_cost m0;
  inv_idx : (i ≤ length q)%nat;
  inv_nodup : NoDup (l_cell <$> q);
  inv_node : ∀ k n, q !! k = Some n →
    open_at m0 (l_cell n) = true
    ∧ 0 ≤ cost_of m (l_cell n) ≤ Z.of_nat k
    ∧ reach_of m (l_cell n) = TRUE;
  inv_parent : ∀ k n, q !! k = Some n → parent_ok m q k n;
  inv_sorted : ∀ k l nk nl, (k ≤ l)%nat → q !! k = Some nk → q !! l = Some nl →
    cost_of m (l_cell nk) ≤ cost_of m (l_cell nl);
  inv_level : ∀ ni l nl, q !! i = Some ni → q !! l = Some nl →
    cost_of m (l_cell nl) ≤ cost_of m (l_cell ni) + 1;
  inv_fresh : ∀ p, p ∉ l_cell <$> q →
    cost_of m p = NOTVISIT ∧ reach_of m p = FALSE;
  inv_soln : ∀ p, soln_of m p = FALSE;
  inv_done : ∀ k n w, (k < i)%nat → q !! k = Some n →
    adjacent (l_cell n) w → open_at m0 w = true →
    w ∈ l_cell <$> q ∧ cost_of m w ≤ cost_of m (l_cell n) + 1
}.

(** All pointers into the grid. *)
Definition grid_cells (m0 : maze_t) : list cell_ptr :=
  list_prod (seqZ 0 (m_rows m0)) (seqZ 0 (m_cols m0)).

(** [ext m q m' q']: the queue has only grown and the cells that were in
    it have kept their cost. *)
Definition ext (m : maze_t) (q : queue_t) (m' : maze_t) (q' : queue_t) : Prop :=
  (∃ t, q' = q ++ t) ∧ ∀ p, p ∈ l_cell <$> q → cost_of m' p = cost_of m p.

(** The neighbour [w] of [v] has been dealt with. *)
Definition nbr_done (m0 m : maze_t) (q : queue_t) (v w : cell_ptr) : Prop :=
  open_at m0 w = true →
  w ∈ l_cell <$> q ∧ cost_of m w ≤ cost_of m v + 1.

(** The state in which the flood ends: every node is expanded and every
    entrance is in the queue with cost 0. *)
Record flooded (m0 m : maze_t) (q : queue_t) : Prop := {
  fl_inv : inv m0 m q (length q);
  fl_entrances : ∀ p, entrance m0 p → p ∈ l_cell <$> q ∧ cost_of m p = 0
}.

(** ** The exit and the solution *)

(** [chain q k l]: following the parent pointers from node [k] up to a
    root visits the cells of [l], listed from the root down to node [k]. *)
Inductive chain (q : queue_t) : nat → list cell_ptr → Prop :=
| chain_root k n :
    q !! k = Some n → l_parent n = None → chain q k [l_cell n]
| chain_step k n p l :
    q !! k = Some n → l_parent n = Some p → chain q p l →
    chain q k (l ++ [l_cell n]).

(** [m'] is [m] with the cells of [l] marked as part of the solution. *)
Record marked (m : maze_t) (l : list cell_ptr) (m' : maze_t) : Prop := {
  mk_static : same_static m m';
  mk_maze : m_soln m' = m_soln m ∧ m_cost m' = m_cost m;
  mk_cost : ∀ p, cost_of m' p = cost_of m p;
  mk_reach : ∀ p, reach_of m' p = reach_of m p;
  mk_soln : ∀ p, soln_of m' p = if decide (p ∈ l) then TRUE else soln_of m p
}.

(** A cell [find_exit] takes into account: Open and reachable. *)
Definition candidate (m : maze_t) (p : cell_ptr) : Prop :=
  open_at m p = true ∧ reach_of m p ≠ FALSE.

(** What [find_exit] knows after the columns below [j] of row [r]. *)
Definition scan_state (m : maze_t) (r j : Z) (exit : option cell_ptr)
    (cost : Z) : Prop :=
  match exit with
  | None => cost < 0 ∧ ∀ y, 0 ≤ y < j → ¬ candidate m (r, y)
  | Some e =>
      cost = cost_of m e ∧ e.1 = r ∧ 0 ≤ e.2 < j ∧ candidate m e
      ∧ ∀ y, 0 ≤ y < j → candidate m (r, y) →
          cost ≤ cost_of m (r, y) ∧ (cost_of m (r, y) = cost → e.2 ≤ y)
  end.

(** [e] is a candidate of the last row, none is cheaper, and none of the
    same cost is further left. *)
Definition best_exit (m : maze_t) (e : cell_ptr) : Prop :=
  e.1 = m_rows m - 1 ∧ 0 ≤ e.2 < m_cols m ∧ candidate m e
  ∧ ∀ y, 0 ≤ y < m_cols m → candidate m (m_rows m - 1, y) →
      cost_of m e ≤ cost_of m (m_rows m - 1, y)
      ∧ (cost_of m (m_rows m - 1, y) = cost_of m e → e.2 ≤ y).

(** The last row has no candidate. *)
Definition no_exit (m : maze_t) : Prop :=
  ∀ y, 0 ≤ y < m_cols m → ¬ candidate m (m_rows m - 1, y).

(** What [traverse_maze] returns, [m'], in terms of the flooded maze [m2]
    and the exit [ex] that [find_exit] selected in it. *)
Record solved (m0 m2 : maze_t) (ex : option cell_ptr) (m' : maze_t) : Prop := {
  sv_static : same_static m0 m';
  sv_cost : ∀ p, cost_of m' p = cost_of m2 p;
  sv_reach : ∀ p, reach_of m' p = reach_of m2 p;
  sv_exit :
    match ex with
    | None => m' = m2
    | Some e =>
        m_soln m' = TRUE ∧ m_cost m' = cost_of m2 e
        ∧ ∃ l, open_path m0 l e
               ∧ Z.of_nat (length l) = cost_of m2 e + 1
               ∧ (∀ j p, l !! j = Some p → cost_of m2 p = Z.of_nat j)
               ∧ ∀ p, soln_of m' p = if decide (p ∈ l) then TRUE else FALSE
    end
}.

(** ** Mazes for the examples *)

(** No cell of row 0 is Open. *)
Definition closed_top (m : maze_t) : bool :=
  match m_cells m with
  | [] => true
  | row :: _ => forallb (λ c, negb (is_path c)) row
  end.

(** A maze whose first row is a wall. *)
Definition walled_in : maze_t := maze_of_rows ["##"; ".."]%string.

(** Scenario B: the last row is all walls. *)
Definition scenario_b : maze_t := maze_of_rows [".."; ".#"; "##"]%string.

(** Scenario C: the Open cell [(2, 0)] is cut off from the entrance. *)
Definition scenario_c : maze_t := maze_of_rows ["#."; "#."; ".#"]%string.

(** The fields the reporter prints: the costs, the reachable flags and the
    solution marks of the cells, then the cost and the solution flag of the
    maze. *)
Definition report (r : result maze_t)
    : option (list (list Z) * list (list Z) * list (list Z) * Z * Z) :=
  match r with
  | Ok m =>
      Some (map (map c_cost) (m_cells m), map (map c_reach) (m_cells m),
            map (map c_soln) (m_cells m), m_cost m, m_soln m)
  | _ => None
  end.

(** ** The queue of entrances *)

(** The root nodes of the Open cells of row 0, from left to right. *)
Definition entrance_nodes (m : maze_t) : queue_t :=
  (λ y, Node (0, y) None)
    <$> filter (λ y, open_at m (0, y) = true) (seqZ 0 (m_cols m)).

(** ** The text of a maze *)

(** The input that holds the lines [l], each closed by a newline. *)
Definition input_of (l : list string) : list ascii :=
  concat ((λ s, list_ascii_of_string s ++ [NEWLINE]) <$> l).

(** A line holds no newline and at most [MAX_COLS] characters. *)
Definition line_okb (s : string) : bool :=
  forallb (λ a, negb (Ascii.eqb a NEWLINE)) (list_ascii_of_string s)
  && (Z.of_nat (String.length s) <=? MAX_COLS).

(** A text has at most [MAX_ROWS] lines, and its first line is not empty. *)
Definition text_okb (l : list string) : bool :=
  match l with
  | [] => false
  | s :: _ => negb (String.eqb s EmptyString)
  end
  && (Z.of_nat (length l) <=? MAX_ROWS)
  && forallb line_okb l.

(** The character of the text at row [p.1] and column [p.2]. *)
Definition char_at (l : list string) (p : cell_ptr) : option ascii :=
  if decide (0 ≤ p.1 ∧ 0 ≤ p.2) then
    l !! Z.to_nat p.1 ≫= λ s, list_ascii_of_string s !! Z.to_nat p.2
  else None.

(** [laid_over ms mb0 mb]: the memory [mb] holds the cells of the grid
    [ms], and is as [mb0] everywhere else. *)
Definition laid_over (ms mb0 mb : maze_t) : Prop :=
  ∀ p, get_cell mb p = match get_cell ms p with
                       | Some c => Some c
                       | None => get_cell mb0 p
                       end.

(** The line [s] filled up to [MAX_COLS] characters with its last one. *)
Definition pad_line (s : string) : string :=
  string_of_list_ascii
    (list_ascii_of_string s
     ++ replicate (Z.to_nat MAX_COLS - String.length s)
          (default zero (last (list_ascii_of_string s)))).

(** ** The grid inside the memory *)

(** [window ms mb0 mb]: the maze [mb] has the dimensions, the cost and the
    solution flag of the grid [ms], holds the cells of [ms], and is as [mb0]
    outside of it. *)
Record window (ms mb0 mb : maze_t) : Prop := {
  w_rows : m_rows mb = m_rows ms;
  w_cols : m_cols mb = m_cols ms;
  w_cost : m_cost mb = m_cost ms;
  w_soln : m_soln mb = m_soln ms;
  w_len : (length (m_cells ms) ≤ length (m_cells mb))%nat;
  w_cells : laid_over ms mb0 mb
}.

(** ** The pictures of the maze *)

(** The two characters a stage prints for a cell. *)
Definition glyph_1 (c : cell_t) : list ascii := [c_type c; c_type c].

Definition glyph_2 (c : cell_t) : list ascii :=
  if is_path c then
    if negb (c_reach c =? 0) then [REACHABLE; REACHABLE]
    else [UNREACHABLE; UNREACHABLE]
  else [c_type c; c_type c].

Definition glyph_3 (c : cell_t) : list ascii :=
  if is_path c then
    if negb (c_reach c =? 0) then
      if Z.rem (c_cost c) 2 =? 0 then
        if Z.rem (c_cost c) 100 >? 9
        then printf_TWODIGIT (Z.rem (c_cost c) 100)
        else printf_ONEDIGIT (Z.rem (c_cost c) 100)
      else [REACHABLE; REACHABLE]
    else [UNREACHABLE; UNREACHABLE]
  else [c_type c; c_type c].

Definition glyph_4 (c : cell_t) : list ascii :=
  if is_path c then
    if negb (c_reach c =? 0) then
      if negb (c_soln c =? 0) then
        if Z.rem (c_cost c) 2 =? 0 then
          if Z.rem (c_cost c) 100 >? 9
          then printf_TWODIGIT (Z.rem (c_cost c) 100)
          else printf_ONEDIGIT (Z.rem (c_cost c) 100)
        else [PATH; PATH]
      else [NONSOLUTION; NONSOLUTION]
    else [UNREACHABLE; UNREACHABLE]
  else [c_type c; c_type c].

(** The recursion the four stage printers share, with the glyph of a cell
    as a parameter. *)
Fixpoint print_walk (glyph : cell_t → list ascii) (m : maze_t) (xlim : nat)
    (cell x : Z) {struct xlim} : nat → Z → result (list ascii) :=
  fix row (ylim : nat) (y : Z) {struct ylim} : result (list ascii) :=
    match xlim with
    | O => Ok []
    | S xlim' =>
        match ylim with
        | S ylim' =>
            let* c := load m (cell, y) in
            let* out := row ylim' (int_add y 1) in
            Ok (glyph c ++ out)
        | O =>
            let* out :=
              print_walk glyph m xlim' (cell + 1) (int_add x 1)
                (Z.to_nat y) NIL in
            Ok (NEWLINE :: out)
        end
    end.

Definition glyph_at (glyph : cell_t → list ascii) (m : maze_t)
    (p : cell_ptr) : list ascii :=
  match get_cell m p with
  | Some c => glyph c
  | None => []
  end.

(** The lines of the picture of the grid, one per row. *)
Definition picture_row (glyph : cell_t → list ascii) (m : maze_t) (x : Z)
    : list ascii :=
  concat ((λ y, glyph_at glyph m (x, y)) <$> seqZ 0 (m_cols m)).

Definition picture (glyph : cell_t → list ascii) (m : maze_t)
    : list (list ascii) :=
  picture_row glyph m <$> seqZ 0 (m_rows m).

(** The text made of the lines [ls], each closed by a newline. *)
Definition unlines (ls : list (list ascii)) : list ascii :=
  concat ((λ s, s ++ [NEWLINE]) <$> ls).

(** The two characters that stand for the cell [p] in the picture [pic]. *)
Definition glyph_in (pic : list (list ascii)) (p : cell_ptr) : list ascii :=
  match pic !! Z.to_nat p.1 with
  | Some line => take 2 (drop (2 * Z.to_nat p.2) line)
  | None => []
  end.

(** Every character of [s] twice. *)
Definition twice (s : list ascii) : list ascii :=
  concat ((λ t, [t; t]) <$> s).

(** The decimal digit [d]. *)
Definition digit (d : Z) : ascii := ascii_of_nat (48 + Z.to_nat d).

(** The last two decimal digits of [v]. *)
Definition two_digits (v : Z) : list ascii :=
  [digit (v `mod` 100 / 10); digit (v `mod` 10)].

(** What [print_maze] prints for a maze whose grid is in memory. *)
Definition report_of (m : maze_t) : list ascii :=
  STAGENUM 1 ++ PRINT1 (m_rows m) (m_cols m)
  ++ unlines (picture glyph_1 m) ++ [NEWLINE]
  ++ STAGENUM 2
  ++ (if negb (m_soln m =? 0) then
        PRINT2A ++ unlines (picture glyph_2 m) ++ [NEWLINE]
        ++ STAGENUM 3 ++ PRINT3A (m_cost m)
        ++ unlines (picture glyph_3 m) ++ [NEWLINE]
        ++ STAGENUM 4 ++ PRINT4 ++ unlines (picture glyph_4 m)
      else
        PRINT2B ++ unlines (picture glyph_2 m) ++ [NEWLINE]
        ++ STAGENUM 3 ++ PRINT3B ++ unlines (picture glyph_3 m)).

(** * Proofs *)

(** ** Results *)

Lemma bind_Ok {A B} (r : result A) (k : A → result B) b :
  bind r k = Ok b → ∃ a, r = Ok a ∧ k a = Ok b.
Proof. destruct r as [a| |]; [|done..]. intros H. by exists a. Qed.

(** ** The model at work *)

(** Scenario A: both exits of the last row cost 2 and the left one is
    chosen. *)
Example scenario_a_report :
  report (traverse_maze 18 scenario_a)
  = Some ([[0; -1; 0]; [1; 2; 1]; [2; -1; 2]],
          [[1; 0; 1]; [1; 1; 1]; [1; 0; 1]],
          [[1; 0; 0]; [1; 0; 0]; [1; 0; 0]], 2, 1).
Proof. vm_compute. reflexivity. Qed.

Example scenario_a_exit :
  (let* '(m, q) := flood_maze 18 scenario_a in select_exit m) = Ok (Some (2, 0)).
Proof. vm_compute. reflexivity. Qed.

(** Scenario B: no solution, yet every Open cell has its cost. *)
Example scenario_b_report :
  report (traverse_maze 12 scenario_b)
  = Some ([[0; 0]; [1; -1]; [-1; -1]],
          [[1; 1]; [1; 0]; [0; 0]],
          [[0; 0]; [0; 0]; [0; 0]], 0, 0).
Proof. vm_compute. reflexivity. Qed.

(** Scenario C: the cell that is cut off is neither reached nor costed. *)
Example scenario_c_report :
  report (traverse_maze 12 scenario_c)
  = Some ([[-1; 0]; [-1; 1]; [-1; -1]],
          [[0; 1]; [0; 1]; [0; 0]],
          [[0; 0]; [0; 0]; [0; 0]], 0, 0).
Proof. vm_compute. reflexivity. Qed.

(** Too little fuel is reported as such. *)
Example scenario_a_out_of_fuel : traverse_maze 3 scenario_a = OutOfFuel.
Proof. vm_compute. reflexivity. Qed.

(** ** Machine integers: small values are not wrapped *)

Lemma int_wrap_small z : - 2 ^ 31 ≤ z < 2 ^ 31 → int_wrap z = z.
Proof.
  intros Hz. unfold int_wrap.
  rewrite Z.mod_small by lia. lia.
Qed.

Lemma int_add_small a b : - 2 ^ 31 ≤ a + b < 2 ^ 31 → int_add a b = a + b.
Proof. apply int_wrap_small. Qed.

Lemma int_sub_small a b : - 2 ^ 31 ≤ a - b < 2 ^ 31 → int_sub a b = a - b.
Proof. apply int_wrap_small. Qed.

(** ** Memory lemmas *)

Lemma get_cell_nonneg m p c : get_cell m p = Some c → 0 ≤ p.1 ∧ 0 ≤ p.2.
Proof. unfold get_cell. case_decide; [tauto | discriminate]. Qed.

Lemma get_put_eq m p c c' :
  get_cell m p = Some c → get_cell (put_cell m p c') p = Some c'.
Proof.
  unfold get_cell, put_cell. case_decide; [|discriminate].
  destruct (m_cells m !! Z.to_nat p.1) as [row|] eqn:Hrow; [|discriminate].
  intros Hc. simpl.
  rewrite list_lookup_insert_eq by (by eapply lookup_lt_Some).
  apply list_lookup_insert_eq. by eapply lookup_lt_Some.
Qed.

Lemma get_put_ne m p p' c c' :
  get_cell m p = Some c → p ≠ p' →
  get_cell (put_cell m p c') p' = get_cell m p'.
Proof.
  intros Hc Hne. pose proof (get_cell_nonneg _ _ _ Hc) as [Hx Hy].
  revert Hc. unfold get_cell, put_cell.
  case_decide; [|tauto].
  destruct (m_cells m !! Z.to_nat p.1) as [row|] eqn:Hrow; [|discriminate].
  intros Hc. simpl. case_decide as Hp'; [|done].
  destruct (decide (Z.to_nat p.1 = Z.to_nat p'.1)) as [Heq|Hneq].
  - rewrite <- Heq, Hrow.
    rewrite list_lookup_insert_eq by (by eapply lookup_lt_Some).
    apply list_lookup_insert_ne. intros Heq2.
    apply Hne. destruct p, p'; simpl in *. f_equal; lia.
  - by rewrite list_lookup_insert_ne.
Qed.

Lemma put_cell_id m p c : get_cell m p = Some c → put_cell m p c = m.
Proof.
  unfold get_cell, put_cell. case_decide; [|discriminate].
  destruct (m_cells m !! Z.to_nat p.1) as [row|] eqn:Hrow; [|discriminate].
  intros Hc. rewrite (list_insert_id row) by done.
  rewrite list_insert_id by done. by destruct m.
Qed.

Lemma put_cell_fields m p c :
  m_rows (put_cell m p c) = m_rows m ∧ m_cols (put_cell m p c) = m_cols m
  ∧ m_cost (put_cell m p c) = m_cost m ∧ m_soln (put_cell m p c) = m_soln m
  ∧ length (m_cells (put_cell m p c)) = length (m_cells m).
Proof.
  unfold put_cell. destruct (m_cells m !! Z.to_nat p.1); simpl;
    rewrite ?length_insert; done.
Qed.

Lemma get_put m p p' c c' :
  get_cell m p = Some c →
  get_cell (put_cell m p c') p' = if decide (p = p') then Some c' else get_cell m p'.
Proof.
  intros Hc. case_decide as Hp.
  - subst p'. by eapply get_put_eq.
  - by eapply get_put_ne.
Qed.

Lemma store_Ok m p f m' :
  store m p f = Ok m' ↔ ∃ c, get_cell m p = Some c ∧ m' = put_cell m p (f c).
Proof.
  unfold store. destruct (get_cell m p) as [c|]; split.
  - intros [= <-]. eauto.
  - intros (c' & [= <-] & ->). done.
  - discriminate.
  - intros (c' & [=] & _).
  Qed.

Lemma load_Ok m p c : load m p = Ok c ↔ get_cell m p = Some c.
Proof.
  unfold load. destruct (get_cell m p); split; intros H; by inversion H.
Qed.

(** ** What validity gives *)

Lemma forallb_id_lookup (l : list bool) :
  forallb id l = true ↔ ∀ i b, l !! i = Some b → b = true.
Proof.
  induction l as [|a l IH]; simpl.
  - split; [intros _ i b Hi; by rewrite lookup_nil in Hi | done].
  - rewrite andb_true_iff, IH. split.
    + intros [Ha Hl] [|i] b; simpl; [intros [= <-]; done | apply Hl].
    + intros H. split; [apply (H 0%nat); done | intros i b; apply (H (S i))].
Qed.

Lemma forallb_imap_lookup {A} (f : nat → A → bool) (l : list A) :
  forallb id (imap f l) = true ↔ ∀ i a, l !! i = Some a → f i a = true.
Proof.
  rewrite forallb_id_lookup. split.
  - intros H i a Hi. apply (H i). by rewrite list_lookup_imap, Hi.
  - intros H i b. rewrite list_lookup_imap.
    destruct (l !! i) as [a|] eqn:Hi; simpl; [|discriminate].
    intros [= <-]. by apply H.
Qed.

Lemma valid_maze_facts m : valid_maze m → valid_facts m.
Proof.
  unfold valid_maze, valid_mazeb. rewrite !andb_true_iff.
  intros [[[[[[H1 H2] H3] H4] H5] H6] H7].
  rewrite forallb_imap_lookup in H6.
  assert (Hrow : ∀ i row, m_cells m !! i = Some row →
            Z.of_nat (length row) = m_cols m
            ∧ ∀ j c, row !! j = Some c → fresh_cellb i j c = true).
  { intros i row Hi. specialize (H6 i row Hi).
    rewrite andb_true_iff, forallb_imap_lookup in H6. destruct H6 as [Hl Hc].
    split; [lia | done]. }
  split; try lia.
  - intros [x y] [Hx Hy]; simpl in *. unfold get_cell; simpl.
    case_decide; [|lia].
    destruct (lookup_lt_is_Some_2 (m_cells m) (Z.to_nat x)) as [row Hr]; [lia|].
    rewrite Hr. apply lookup_lt_is_Some_2.
    destruct (Hrow _ _ Hr) as [Hl _]. lia.
  - intros [x y] c. unfold get_cell, in_grid; simpl.
    case_decide as Hxy; [|discriminate].
    destruct (m_cells m !! Z.to_nat x) as [row|] eqn:Hr; [|discriminate].
    intros Hc. destruct (Hrow _ _ Hr) as [Hl Hcs].
    specialize (Hcs _ _ Hc). unfold fresh_cellb in Hcs.
    rewrite !andb_true_iff in Hcs.
    apply lookup_lt_Some in Hr, Hc. lia.
Qed.

Lemma put_put m p c c1 c2 :
  get_cell m p = Some c → put_cell (put_cell m p c1) p c2 = put_cell m p c2.
Proof.
  unfold get_cell, put_cell. case_decide; [|discriminate].
  destruct (m_cells m !! Z.to_nat p.1) as [row|] eqn:Hrow; [|discriminate].
  intros Hc. simpl.
  rewrite list_lookup_insert_eq by (by eapply lookup_lt_Some).
  by rewrite !list_insert_insert_eq.
Qed.

(** Observations after a write. *)
Section put_observations.
Context (m : maze_t) (p : cell_ptr) (c c' : cell_t).
Hypothesis Hget : get_cell m p = Some c.

Lemma cost_of_put p' :
  cost_of (put_cell m p c') p' = if decide (p = p') then c_cost c' else cost_of m p'.
Proof. unfold cost_of. rewrite (get_put _ _ _ _ _ Hget). by case_decide. Qed.

Lemma reach_of_put p' :
  reach_of (put_cell m p c') p' = if decide (p = p') then c_reach c' else reach_of m p'.
Proof. unfold reach_of. rewrite (get_put _ _ _ _ _ Hget). by case_decide. Qed.

Lemma soln_of_put p' :
  soln_of (put_cell m p c') p' = if decide (p = p') then c_soln c' else soln_of m p'.
Proof. unfold soln_of. rewrite (get_put _ _ _ _ _ Hget). by case_decide. Qed.
End put_observations.

(** ** The part of the maze that never changes *)

Lemma same_static_refl m : same_static m m.
Proof. by split. Qed.

Lemma same_static_trans m0 m1 m2 :
  same_static m0 m1 → same_static m1 m2 → same_static m0 m2.
Proof.
  intros [] []. split; congruence.
Qed.

Lemma same_static_put m p c c' :
  get_cell m p = Some c → static c' = static c → same_static m (put_cell m p c').
Proof.
  intros Hc Hs. destruct (put_cell_fields m p c') as (? & ? & ? & ? & ?).
  split; try done.
  intros p'. rewrite (get_put _ _ _ _ _ Hc). case_decide; [|done].
  subst p'. rewrite Hc. simpl. by rewrite Hs.
Qed.

Lemma same_static_get m0 m p c0 :
  same_static m0 m → get_cell m0 p = Some c0 →
  ∃ c, get_cell m p = Some c ∧ static c = static c0.
Proof.
  intros Hss Hc0. pose proof (ss_cells _ _ Hss p) as Hp. rewrite Hc0 in Hp.
  destruct (get_cell m p) as [c|]; simpl in Hp; [|discriminate].
  exists c. split; [done | congruence].
Qed.

Lemma same_static_open m0 m p : same_static m0 m → open_at m p = open_at m0 p.
Proof.
  intros Hss. pose proof (ss_cells _ _ Hss p) as Hp. unfold open_at, is_path.
  destruct (get_cell m p) as [c|], (get_cell m0 p) as [c0|];
    simpl in Hp; try done.
  unfold static in Hp. congruence.
Qed.

Lemma open_at_get m p : open_at m p = true → ∃ c, get_cell m p = Some c ∧ is_path c = true.
Proof. unfold open_at. destruct (get_cell m p); [eauto | discriminate]. Qed.

(** ** The invariant of the flood *)

Lemma elem_of_cells (q : queue_t) k n : q !! k = Some n → l_cell n ∈ l_cell <$> q.
Proof. intros Hk. apply list_elem_of_fmap_2. by eapply list_elem_of_lookup_2. Qed.

Lemma cells_lookup (q : queue_t) p :
  p ∈ l_cell <$> q ↔ ∃ k n, q !! k = Some n ∧ l_cell n = p.
Proof.
  split.
  - intros Hin. apply list_elem_of_fmap in Hin as (n & -> & Hn).
    apply list_elem_of_lookup in Hn as [k Hk]. by exists k, n.
  - intros (k & n & Hk & <-). by eapply elem_of_cells.
Qed.

(** [in_queue H as k n Hk]: from [H : p ∈ l_cell <$> q], the node [n] at
    index [k] that holds [p]; [p] is replaced by [l_cell n]. *)
Tactic Notation "in_queue" hyp(H) "as" ident(k) ident(n) ident(Hk) :=
  apply cells_lookup in H as (k & n & Hk & <-).

(** A cell that is not in the queue yet is given the cost [c] and a node
    behind all the others. *)
Lemma inv_push m0 m q i w cw c par :
  inv m0 m q i →
  get_cell m w = Some cw →
  w ∉ l_cell <$> q →
  open_at m0 w = true →
  0 ≤ c ≤ Z.of_nat (length q) →
  (∀ k n, q !! k = Some n → cost_of m (l_cell n) ≤ c) →
  (∀ ni, q !! i = Some ni → c ≤ cost_of m (l_cell ni) + 1) →
  match par with
  | None => w.1 = 0 ∧ c = 0
  | Some p => ∃ pn, q !! p = Some pn ∧ adjacent (l_cell pn) w
                    ∧ c = cost_of m (l_cell pn) + 1
  end →
  inv m0 (put_cell m w (with_cost c (with_reach TRUE cw))) (q ++ [Node w par]) i.
Proof.
  intros Hinv Hcw Hw Hopen Hc Hmax Hlev Hpar.
  set (m' := put_cell m w _).
  assert (Hcost : ∀ p, cost_of m' p = if decide (w = p) then c else cost_of m p).
  { intros p. unfold m'. by rewrite (cost_of_put _ _ _ _ Hcw). }
  assert (Hreach : ∀ p, reach_of m' p = if decide (w = p) then TRUE else reach_of m p).
  { intros p. unfold m'. by rewrite (reach_of_put _ _ _ _ Hcw). }
  assert (Hold : ∀ k n, q !! k = Some n →
            cost_of m' (l_cell n) = cost_of m (l_cell n)
            ∧ reach_of m' (l_cell n) = reach_of m (l_cell n)).
  { intros k n Hk. rewrite Hcost, Hreach.
    case_decide as Heq; [|done]. destruct Hw. rewrite Heq. by eapply elem_of_cells. }
  assert (Hnew : cost_of m' w = c ∧ reach_of m' w = TRUE).
  { rewrite Hcost, Hreach, !decide_True by done. done. }
  destruct Hnew as [Hnewc Hnewr].
  destruct (put_cell_fields m w (with_cost c (with_reach TRUE cw)))
    as (_ & _ & Hpc & Hps & _).
  split.
  - eapply same_static_trans; [apply Hinv|].
    by apply (same_static_put _ _ cw).
  - destruct (inv_maze _ _ _ _ Hinv). fold m' in Hpc, Hps. split; congruence.
  - rewrite length_app. pose proof (inv_idx _ _ _ _ Hinv). lia.
  - rewrite fmap_snoc. simpl. apply NoDup_app. split; [apply Hinv|].
    split; [|apply NoDup_singleton].
    intros x Hx Hx'. apply list_elem_of_singleton in Hx'. by subst x.
  - intros k n Hk. apply lookup_snoc_Some in Hk as [[Hlt Hk]|[-> <-]].
    + destruct (Hold _ _ Hk) as [-> ->]. by apply (inv_node _ _ _ _ Hinv).
    + simpl. rewrite Hnewc, Hnewr. done.
  - intros k n Hk. apply lookup_snoc_Some in Hk as [[Hlt Hk]|[-> <-]].
    + pose proof (inv_parent _ _ _ _ Hinv _ _ Hk) as Hp. unfold parent_ok in *.
      destruct (Hold _ _ Hk) as [-> _].
      destruct (l_parent n) as [p|]; [|done].
      destruct Hp as (Hpk & pn & Hpn & Hadj & Hpc').
      split; [done|]. exists pn. split; [by apply lookup_app_l_Some|].
      destruct (Hold _ _ Hpn) as [-> _]. by split.
    + unfold parent_ok. simpl. rewrite Hnewc. destruct par as [p|]; [|done].
      destruct Hpar as (pn & Hpn & Hadj & ->).
      split; [by eapply lookup_lt_Some|].
      exists pn. split; [by apply lookup_app_l_Some|].
      destruct (Hold _ _ Hpn) as [-> _]. by split.
  - intros k l nk nl Hkl Hk Hl.
    apply lookup_snoc_Some in Hk as [[Hklt Hk]|[-> <-]];
      apply lookup_snoc_Some in Hl as [[Hllt Hl]|[-> <-]]; simpl.
    + destruct (Hold _ _ Hk) as [-> _], (Hold _ _ Hl) as [-> _].
      by eapply (inv_sorted _ _ _ _ Hinv k l).
    + destruct (Hold _ _ Hk) as [-> _]. rewrite Hnewc. by eapply Hmax.
    + lia.
    + done.
  - intros ni l nl Hi Hl.
    apply lookup_snoc_Some in Hi as [[Hilt Hi]|[-> <-]];
      apply lookup_snoc_Some in Hl as [[Hllt Hl]|[-> <-]]; simpl.
    + destruct (Hold _ _ Hi) as [-> _], (Hold _ _ Hl) as [-> _].
      by eapply (inv_level _ _ _ _ Hinv).
    + destruct (Hold _ _ Hi) as [-> _]. rewrite Hnewc. by apply Hlev.
    + destruct (Hold _ _ Hl) as [-> _]. rewrite Hnewc.
      pose proof (Hmax _ _ Hl). lia.
    + lia.
  - intros p Hp. rewrite fmap_snoc in Hp. simpl in Hp.
    apply not_elem_of_app in Hp as [Hp Hpw].
    rewrite list_elem_of_singleton in Hpw.
    rewrite Hcost, Hreach, !decide_False by done.
    by apply (inv_fresh _ _ _ _ Hinv).
  - intros p. unfold m'. rewrite (soln_of_put _ _ _ _ Hcw).
    case_decide as Heq; [|apply Hinv].
    subst p. simpl. pose proof (inv_soln _ _ _ _ Hinv w) as Hs.
    unfold soln_of in Hs. by rewrite Hcw in Hs.
  - intros k n w' Hki Hk Hadj Ho.
    pose proof (inv_idx _ _ _ _ Hinv) as Hidx.
    apply lookup_snoc_Some in Hk as [[Hklt Hk]|[-> <-]]; [|lia].
    destruct (inv_done _ _ _ _ Hinv _ _ _ Hki Hk Hadj Ho) as [Hin Hle].
    split; [rewrite fmap_snoc; apply elem_of_app; by left|].
    destruct (Hold _ _ Hk) as [-> _].
    in_queue Hin as kw nw Hkw.
    destruct (Hold _ _ Hkw) as [-> _]. done.
Qed.

(** ** The queue: appending is adding at the end *)

Lemma append_snoc (l : queue_t) par cell :
  l ≠ [] → append l par cell = l ++ [Node cell par].
Proof.
  induction l as [|n rest IH]; [done|]. intros _.
  destruct rest as [|n' rest']; [done|].
  change (append (n :: n' :: rest') par cell)
    with (n :: append (n' :: rest') par cell).
  rewrite IH by done. done.
Qed.

Lemma append_at_snoc (q : queue_t) k par cell :
  (k < length q)%nat → append_at q k par cell = q ++ [Node cell par].
Proof.
  intros Hk. unfold append_at. rewrite append_snoc.
  - by rewrite app_assoc, take_drop.
  - intros Hnil. apply drop_nil_inv in Hnil. lia.
Qed.

(** ** One visit *)

Lemma visit_cell_eq m q k x y cost c :
  get_cell m (x, y) = Some c →
  visit_cell m q k x y cost =
    if (c_cost c <? NIL) || (cost <? c_cost c)
    then Ok (put_cell m (x, y) (with_cost cost (with_reach TRUE c)),
             append_at q k (Some k) (x, y))
    else Ok (put_cell m (x, y) (with_reach TRUE c), q).
Proof.
  intros Hc. unfold visit_cell, store, load. rewrite Hc. cbn [bind].
  rewrite (get_put_eq _ _ _ _ Hc). cbn [bind with_reach c_cost].
  destruct ((c_cost c <? NIL) || (cost <? c_cost c)); [|done].
  by rewrite (put_put _ _ _ _ _ Hc).
Qed.

(** ** Consequences of the invariant *)

Section with_valid.
Context (m0 : maze_t).
Hypothesis Hvalid : valid_facts m0.

Lemma open_in_grid p : open_at m0 p = true → in_grid m0 p.
Proof.
  intros Ho. apply open_at_get in Ho as (c & Hc & _).
  by apply (vf_cell _ Hvalid) in Hc as [? _].
Qed.

Lemma static_get m p :
  same_static m0 m → in_grid m0 p →
  ∃ c, get_cell m p = Some c ∧ c_x c = p.1 ∧ c_y c = p.2
       ∧ is_path c = open_at m0 p.
Proof.
  intros Hss Hp. destruct (vf_grid _ Hvalid _ Hp) as [c0 Hc0].
  destruct (same_static_get _ _ _ _ Hss Hc0) as (c & Hc & Hs).
  exists c. split; [done|].
  apply (vf_cell _ Hvalid) in Hc0 as Hf. destruct Hf as (_ & Hx & Hy & _).
  unfold static in Hs. injection Hs as Hsx Hsy Hst.
  unfold open_at. rewrite Hc0. unfold is_path. rewrite Hst. lia.
Qed.

Lemma static_get_inv m p c :
  same_static m0 m → get_cell m p = Some c → in_grid m0 p.
Proof.
  intros Hss Hc. pose proof (ss_cells _ _ Hss p) as Hp. rewrite Hc in Hp.
  destruct (get_cell m0 p) as [c0|] eqn:Hc0; [|discriminate].
  by apply (vf_cell _ Hvalid) in Hc0 as [? _].
Qed.

Lemma elem_of_grid_cells p : p ∈ grid_cells m0 ↔ in_grid m0 p.
Proof.
  unfold grid_cells, in_grid. destruct p as [x y].
  rewrite list_elem_of_In, in_prod_iff, <- !list_elem_of_In, !elem_of_seqZ.
  simpl. lia.
Qed.

Lemma length_grid_cells :
  Z.of_nat (length (grid_cells m0)) = m_rows m0 * m_cols m0.
Proof.
  unfold grid_cells. rewrite length_prod, !length_seqZ.
  pose proof (vf_rows _ Hvalid). pose proof (vf_cols _ Hvalid). lia.
Qed.

Lemma grid_size : m_rows m0 * m_cols m0 ≤ 10000.
Proof.
  pose proof (vf_rows _ Hvalid). pose proof (vf_cols _ Hvalid).
  unfold MAX_ROWS, MAX_COLS in *. nia.
Qed.

(** No cell is queued twice, so the queue is no longer than the grid. *)
Lemma inv_length m q i :
  inv m0 m q i → Z.of_nat (length q) ≤ m_rows m0 * m_cols m0.
Proof.
  intros Hinv. rewrite <- length_grid_cells, <- (length_fmap l_cell q).
  apply inj_le, submseteq_length, NoDup_submseteq; [apply Hinv|].
  intros p Hp. apply elem_of_grid_cells.
  in_queue Hp as k n Hk.
  apply open_in_grid. by apply (inv_node _ _ _ _ Hinv) in Hk as [? _].
Qed.

Lemma inv_cost_bound m q i k n :
  inv m0 m q i → q !! k = Some n → 0 ≤ cost_of m (l_cell n) < 10000.
Proof.
  intros Hinv Hk. pose proof (inv_length _ _ _ Hinv).
  pose proof grid_size. apply lookup_lt_Some in Hk as Hlt.
  apply (inv_node _ _ _ _ Hinv) in Hk as (_ & ? & _). lia.
Qed.

Lemma ext_refl m q : ext m q m q.
Proof. split; [exists []; by rewrite app_nil_r | done]. Qed.

Lemma ext_trans m1 q1 m2 q2 m3 q3 :
  ext m1 q1 m2 q2 → ext m2 q2 m3 q3 → ext m1 q1 m3 q3.
Proof.
  intros [[t1 ->] H1] [[t2 ->] H2]. split.
  - exists (t1 ++ t2). by rewrite app_assoc.
  - intros p Hp. rewrite H2, H1; [done..|].
    rewrite fmap_app. apply elem_of_app. by left.
Qed.

Lemma ext_lookup m q m' q' k n : ext m q m' q' → q !! k = Some n → q' !! k = Some n.
Proof. intros [[t ->] _] Hk. by apply lookup_app_l_Some. Qed.

Lemma nbr_done_ext m q m' q' v w :
  ext m q m' q' → v ∈ l_cell <$> q →
  nbr_done m0 m q v w → nbr_done m0 m' q' v w.
Proof.
  intros [[t ->] Hcost] Hv Hd Ho. destruct (Hd Ho) as [Hw Hle].
  split; [rewrite fmap_app; apply elem_of_app; by left|].
  by rewrite !Hcost.
Qed.

Lemma attempt_spec m q i ni w :
  inv m0 m q i → q !! i = Some ni →
  adjacent (l_cell ni) w → in_grid m0 w →
  ∃ m' q',
    attempt m q i w.1 w.2 (cost_of m (l_cell ni) + 1) = Ok (m', q')
    ∧ inv m0 m' q' i ∧ ext m q m' q' ∧ nbr_done m0 m' q' (l_cell ni) w.
Proof.
  intros Hinv Hi Hadj Hw. unfold attempt.
  destruct (static_get m w (inv_static _ _ _ _ Hinv) Hw)
    as (cw & Hcw & _ & _ & Hopen).
  destruct w as [x y]. cbn [fst snd].
  unfold load. rewrite Hcw. cbn [bind].
  destruct (is_path cw) eqn:Hpath.
  2:{ exists m, q. split_and!; [done | done | apply ext_refl |].
      intros Ho. congruence. }
  rewrite (visit_cell_eq _ _ _ _ _ _ _ Hcw).
  set (w := (x, y)) in *.
  set (c := cost_of m (l_cell ni) + 1).
  assert (Hcw_cost : cost_of m w = c_cost cw) by (unfold cost_of; by rewrite Hcw).
  assert (Hcw_reach : reach_of m w = c_reach cw) by (unfold reach_of; by rewrite Hcw).
  pose proof (inv_cost_bound _ _ _ _ _ Hinv Hi) as Hci.
  destruct (decide (w ∈ l_cell <$> q)) as [Hin|Hnin].
  - (* already queued: neither the cost nor the queue changes *)
    apply list_elem_of_fmap in Hin as Hin'. destruct Hin' as (nw & Hnw & Hnw').
    apply list_elem_of_lookup in Hnw' as [kw Hkw].
    pose proof (inv_node _ _ _ _ Hinv _ _ Hkw) as (_ & Hcn & Hrn).
    pose proof (inv_level _ _ _ _ Hinv _ _ _ Hi Hkw) as Hlev.
    rewrite <- Hnw in *.
    replace ((c_cost cw <? NIL) || (c <? c_cost cw)) with false
      by (unfold NIL, c; lia).
    replace (with_reach TRUE cw) with cw
      by (destruct cw; unfold with_reach; simpl in *; congruence).
    rewrite (put_cell_id _ _ _ Hcw).
    exists m, q. split_and!; [done | done | apply ext_refl |].
    intros _. split; [done | lia].
  - (* first discovery *)
    destruct (inv_fresh _ _ _ _ Hinv _ Hnin) as [Hfc Hfr].
    replace ((c_cost cw <? NIL) || (c <? c_cost cw)) with true
      by (unfold NIL, NOTVISIT in *; lia).
    apply lookup_lt_Some in Hi as Hlt.
    rewrite (append_at_snoc _ _ _ _ Hlt).
    pose proof (inv_node _ _ _ _ Hinv _ _ Hi) as (_ & Hcn & _).
    assert (Hopen' : open_at m0 w = true) by congruence.
    eexists _, _. split; [done|].
    assert (Hinv' : inv m0 (put_cell m w (with_cost c (with_reach TRUE cw)))
                      (q ++ [Node w (Some i)]) i).
    { apply inv_push; try done.
      - unfold c. lia.
      - intros k n Hk. apply (inv_level _ _ _ _ Hinv _ _ _ Hi Hk).
      - intros ni' Hi'. rewrite Hi in Hi'. injection Hi' as <-. done.
      - by exists ni. }
    assert (Hext : ext m q (put_cell m w (with_cost c (with_reach TRUE cw)))
                     (q ++ [Node w (Some i)])).
    { split; [by eexists|]. intros p Hp.
      rewrite (cost_of_put _ _ _ _ Hcw). case_decide; [by subst p | done]. }
    split_and!; [done | done |].
    intros _. split.
    + rewrite fmap_snoc. apply elem_of_app. right. by apply list_elem_of_singleton.
    + destruct Hext as [_ Hext]. rewrite (Hext (l_cell ni)) by by eapply elem_of_cells.
      rewrite (cost_of_put _ _ _ _ Hcw), decide_True by done. simpl. unfold c. lia.
Qed.

End with_valid.

(** ** Expanding one node and the whole flood *)

Lemma recursive_flood_unfold fuel m q i :
  recursive_flood (S fuel) m q i =
    match q !! i with
    | None => Ok (m, q)
    | Some node =>
        let* '(m', q') := expand m q i node in
        recursive_flood fuel m' q' (S i)
    end.
Proof.
  cbn [recursive_flood]. destruct (q !! i) as [node|]; [|done].
  unfold expand. destruct (load m (l_cell node)) as [c| |]; cbn [bind]; [|done..].
  destruct (flood_right _ _ _ _ _ _) as [[m1 q1]| |]; cbn [bind]; [|done..].
  destruct (flood_down _ _ _ _ _ _) as [[m2 q2]| |]; cbn [bind]; [|done..].
  destruct (flood_left _ _ _ _ _ _) as [[m3 q3]| |]; cbn [bind]; [|done..].
  by destruct (flood_up _ _ _ _ _ _) as [[m4 q4]| |].
Qed.

Section flood.
Context (m0 : maze_t).
Hypothesis Hvalid : valid_facts m0.

Lemma guarded_attempt_spec (g : bool) m q i ni x y c :
  inv m0 m q i → q !! i = Some ni →
  adjacent (l_cell ni) (x, y) →
  (g = true → in_grid m0 (x, y)) →
  (g = false → ¬ in_grid m0 (x, y)) →
  c = cost_of m (l_cell ni) + 1 →
  ∃ m' q',
    (if g then attempt m q i x y c else Ok (m, q)) = Ok (m', q')
    ∧ inv m0 m' q' i ∧ ext m q m' q' ∧ nbr_done m0 m' q' (l_cell ni) (x, y).
Proof.
  intros Hinv Hi Hadj Hin Hout ->. destruct g.
  - apply (attempt_spec m0 Hvalid m q i ni (x, y)); auto.
  - exists m, q. split_and!; [done | done | apply ext_refl |].
    intros Ho. destruct Hout; [done|]. by apply open_in_grid.
Qed.

(** Moving on to the next node once the four neighbours are done. *)
Lemma inv_advance m q i ni :
  inv m0 m q i → q !! i = Some ni →
  (∀ w, adjacent (l_cell ni) w → nbr_done m0 m q (l_cell ni) w) →
  inv m0 m q (S i).
Proof.
  intros Hinv Hi Hdone. split; try apply Hinv.
  - by eapply lookup_lt_Some.
  - intros ni' l nl Hi' Hl.
    pose proof (inv_level _ _ _ _ Hinv _ _ _ Hi Hl).
    pose proof (inv_sorted _ _ _ _ Hinv i (S i) _ _ (Nat.le_succ_diag_r i) Hi Hi').
    lia.
  - intros k n w Hk Hn Hadj Ho.
    destruct (decide (k = i)) as [->|Hne].
    + rewrite Hi in Hn. injection Hn as <-. by apply Hdone.
    + apply (inv_done _ _ _ _ Hinv k); [lia | done..].
Qed.

Lemma expand_spec m q i ni :
  inv m0 m q i → q !! i = Some ni →
  ∃ m' q',
    expand m q i ni = Ok (m', q')
    ∧ inv m0 m' q' (S i) ∧ ext m q m' q'.
Proof.
  intros Hinv Hi.
  set (v := l_cell ni).
  pose proof (inv_node _ _ _ _ Hinv _ _ Hi) as (Hopen & _ & _).
  apply (open_in_grid _ Hvalid) in Hopen as Hv. fold v in Hv.
  destruct (static_get m0 Hvalid m v (inv_static _ _ _ _ Hinv) Hv)
    as (c & Hc & Hx & Hy & _).
  pose proof (inv_cost_bound m0 Hvalid _ _ _ _ _ Hinv Hi) as Hcb. fold v in Hcb.
  assert (Hcost : c_cost c = cost_of m v) by (unfold cost_of; by rewrite Hc).
  pose proof (vf_rows _ Hvalid) as Hrows. pose proof (vf_cols _ Hvalid) as Hcols.
  unfold MAX_ROWS, MAX_COLS in *.
  pose proof (ss_rows _ _ (inv_static _ _ _ _ Hinv)) as Hr.
  pose proof (ss_cols _ _ (inv_static _ _ _ _ Hinv)) as Hcl.
  destruct Hv as [Hv1 Hv2].
  assert (Hvq : v ∈ l_cell <$> q) by by eapply elem_of_cells.
  (* right *)
  destruct (guarded_attempt_spec (v.2 + 1 <? m_cols m0) m q i ni v.1 (v.2 + 1)
              (cost_of m v + 1) Hinv Hi)
    as (m1 & q1 & E1 & Hinv1 & Hext1 & Hd1);
    [left; simpl; fold v; lia | unfold in_grid; simpl; lia
    | unfold in_grid; simpl; lia | done |].
  pose proof (ext_lookup _ _ _ _ _ _ Hext1 Hi) as Hi1.
  assert (Hc1 : cost_of m v + 1 = cost_of m1 (l_cell ni) + 1)
    by (fold v; destruct Hext1 as [_ ->]; done).
  (* down *)
  destruct (guarded_attempt_spec (v.1 + 1 <? m_rows m0) m1 q1 i ni (v.1 + 1) v.2
              (cost_of m v + 1) Hinv1 Hi1)
    as (m2 & q2 & E2 & Hinv2 & Hext2 & Hd2);
    [right; simpl; fold v; lia | unfold in_grid; simpl; lia
    | unfold in_grid; simpl; lia | done |].
  pose proof (ext_lookup _ _ _ _ _ _ Hext2 Hi1) as Hi2.
  pose proof (ext_trans _ _ _ _ _ _ Hext1 Hext2) as Hext12.
  assert (Hc2 : cost_of m v + 1 = cost_of m2 (l_cell ni) + 1)
    by (fold v; destruct Hext12 as [_ ->]; done).
  (* left *)
  destruct (guarded_attempt_spec (v.2 - 1 >=? NIL) m2 q2 i ni v.1 (v.2 - 1)
              (cost_of m v + 1) Hinv2 Hi2)
    as (m3 & q3 & E3 & Hinv3 & Hext3 & Hd3);
    [left; simpl; fold v; lia | unfold in_grid, NIL; simpl; lia
    | unfold in_grid, NIL; simpl; lia | done |].
  pose proof (ext_lookup _ _ _ _ _ _ Hext3 Hi2) as Hi3.
  pose proof (ext_trans _ _ _ _ _ _ Hext12 Hext3) as Hext13.
  assert (Hc3 : cost_of m v + 1 = cost_of m3 (l_cell ni) + 1)
    by (fold v; destruct Hext13 as [_ ->]; done).
  (* up *)
  destruct (guarded_attempt_spec (v.1 - 1 >=? NIL) m3 q3 i ni (v.1 - 1) v.2
              (cost_of m v + 1) Hinv3 Hi3)
    as (m4 & q4 & E4 & Hinv4 & Hext4 & Hd4);
    [right; simpl; fold v; lia | unfold in_grid, NIL; simpl; lia
    | unfold in_grid, NIL; simpl; lia | done |].
  pose proof (ext_lookup _ _ _ _ _ _ Hext4 Hi3) as Hi4.
  pose proof (ext_trans _ _ _ _ _ _ Hext13 Hext4) as Hext14.
  exists m4, q4. split_and!; [| |done].
  - unfold expand, load. fold v. rewrite Hc. cbn [bind].
    rewrite Hx, Hy, Hcost.
    rewrite !int_add_small, !int_sub_small by lia.
    unfold flood_right, flood_down, flood_left, flood_up.
    unfold attempt in E1, E2, E3, E4.
    rewrite Hcl, E1. cbn [bind].
    rewrite (ss_rows _ _ (inv_static _ _ _ _ Hinv1)), E2. cbn [bind].
    rewrite E3. cbn [bind]. by rewrite E4.
  - apply (inv_advance _ _ _ ni); [done | done |].
    intros w Hadj.
    assert (Hq1 : v ∈ l_cell <$> q1) by by eapply elem_of_cells.
    assert (Hq2 : v ∈ l_cell <$> q2) by by eapply elem_of_cells.
    assert (Hq3 : v ∈ l_cell <$> q3) by by eapply elem_of_cells.
    pose proof (ext_trans _ _ _ _ _ _ Hext2 (ext_trans _ _ _ _ _ _ Hext3 Hext4)) as Hext24.
    pose proof (ext_trans _ _ _ _ _ _ Hext3 Hext4) as Hext34.
    destruct w as [wx wy]. fold v in Hadj.
    destruct Hadj as [[Hw1 [Hw2|Hw2]]|[Hw2 [Hw1|Hw1]]]; simpl in Hw1, Hw2; subst wx wy.
    + by apply (nbr_done_ext _ _ _ _ _ _ _ Hext24 Hq1).
    + by apply (nbr_done_ext _ _ _ _ _ _ _ Hext4 Hq3).
    + by apply (nbr_done_ext _ _ _ _ _ _ _ Hext34 Hq2).
    + done.
Qed.

Lemma recursive_flood_step m q i ni :
  inv m0 m q i → q !! i = Some ni →
  ∃ m' q',
    (∀ fuel, recursive_flood (S fuel) m q i = recursive_flood fuel m' q' (S i))
    ∧ inv m0 m' q' (S i) ∧ ext m q m' q'.
Proof.
  intros Hinv Hi.
  destruct (expand_spec _ _ _ _ Hinv Hi) as (m' & q' & E & Hinv' & Hext).
  exists m', q'. split_and!; [|done..].
  intros fuel. by rewrite recursive_flood_unfold, Hi, E.
Qed.

Lemma recursive_flood_spec fuel : ∀ m q i,
  inv m0 m q i →
  m_rows m0 * m_cols m0 ≤ Z.of_nat fuel + Z.of_nat i →
  ∃ m' q',
    recursive_flood fuel m q i = Ok (m', q')
    ∧ inv m0 m' q' (length q') ∧ ext m q m' q'.
Proof.
  induction fuel as [|fuel IH]; intros m q i Hinv Hfuel.
  - pose proof (inv_length m0 Hvalid _ _ _ Hinv) as Hlen.
    pose proof (inv_idx _ _ _ _ Hinv) as Hidx.
    assert (i = length q) as -> by lia.
    exists m, q. cbn [recursive_flood].
    rewrite (lookup_ge_None_2 q (length q)) by lia.
    split_and!; [done | done | apply ext_refl].
  - destruct (q !! i) as [ni|] eqn:Hi.
    + destruct (recursive_flood_step _ _ _ _ Hinv Hi) as (m1 & q1 & E & Hinv1 & Hext1).
      destruct (IH m1 q1 (S i) Hinv1) as (m' & q' & E' & Hinv' & Hext'); [lia|].
      exists m', q'. rewrite E. split_and!; [done | done |].
      by eapply ext_trans.
    + exists m, q. cbn [recursive_flood]. rewrite Hi.
      apply lookup_ge_None_1 in Hi. pose proof (inv_idx _ _ _ _ Hinv) as Hidx.
      assert (i = length q) as -> by lia.
      split_and!; [done | done | apply ext_refl].
Qed.

End flood.

(** ** The entrances and the flood together *)

Lemma enqueue_root (q : queue_t) (p : cell_ptr) :
  match q with
  | [] => prepend q p
  | _ :: _ => append_at q 0 None p
  end = q ++ [Node p None].
Proof.
  destruct q as [|n q]; [done|].
  apply append_at_snoc. simpl. lia.
Qed.

Section entries.
Context (m0 : maze_t).
Hypothesis Hvalid : valid_facts m0.

Lemma fresh_observations p :
  cost_of m0 p = NOTVISIT ∧ reach_of m0 p = FALSE ∧ soln_of m0 p = FALSE.
Proof.
  unfold cost_of, reach_of, soln_of.
  destruct (get_cell m0 p) as [c|] eqn:Hc; [|done].
  apply (vf_cell _ Hvalid) in Hc. tauto.
Qed.

Lemma inv_init : inv m0 m0 [] 0.
Proof.
  split.
  - apply same_static_refl.
  - done.
  - done.
  - apply NoDup_nil_2.
  - by intros [|].
  - by intros [|].
  - by intros [|].
  - done.
  - intros p _. pose proof (fresh_observations p). tauto.
  - intros p. pose proof (fresh_observations p). tauto.
  - intros k n w Hk. lia.
Qed.

Lemma find_entries_walk_spec lim : ∀ m q j,
  inv m0 m q 0 →
  (∀ k n, q !! k = Some n → l_parent n = None ∧ (l_cell n).2 < j) →
  (∀ y, 0 ≤ y < j → open_at m0 (0, y) = true → (0, y) ∈ l_cell <$> q) →
  0 ≤ j → j + Z.of_nat lim = m_cols m0 →
  ∃ m' q',
    find_entries_walk lim m (0, j) q = Ok (m', q')
    ∧ inv m0 m' q' 0
    ∧ (∀ k n, q' !! k = Some n → l_parent n = None)
    ∧ ∀ p, entrance m0 p → p ∈ l_cell <$> q' ∧ cost_of m' p = 0.
Proof.
  induction lim as [|lim IH]; intros m q j Hinv Hroots Hseen Hj Hlim.
  - exists m, q. split_and!; [done | done | |].
    { intros k n Hk. by apply Hroots in Hk as [? _]. }
    intros [x y] [Hx Ho]. simpl in Hx. subst x.
    assert (Hin : (0, y) ∈ l_cell <$> q).
    { apply Hseen; [|done]. apply (open_in_grid _ Hvalid) in Ho.
      unfold in_grid in Ho. simpl in Ho. lia. }
    split; [done|].
    in_queue Hin as k n Hk.
    pose proof (inv_parent _ _ _ _ Hinv _ _ Hk) as Hpar.
    unfold parent_ok in Hpar. apply Hroots in Hk as [Hn _].
    rewrite Hn in Hpar. tauto.
  - cbn [find_entries_walk fst snd].
    pose proof (vf_rows _ Hvalid) as Hrows.
    assert (Hp : in_grid m0 (0, j)) by (unfold in_grid; simpl; lia).
    destruct (static_get m0 Hvalid m _ (inv_static _ _ _ _ Hinv) Hp)
      as (c & Hc & _ & _ & Hopen).
    unfold load. rewrite Hc. cbn [bind].
    destruct (is_path c) eqn:Hpath.
    + unfold store. rewrite Hc. cbn [bind].
      rewrite (get_put_eq _ _ _ _ Hc). cbn [bind].
      rewrite (put_put _ _ _ _ _ Hc), enqueue_root.
      assert (Hnin : (0, j) ∉ l_cell <$> q).
      { intros Hin. apply list_elem_of_fmap in Hin as (n & Hn & Hin).
        apply list_elem_of_lookup in Hin as [k Hk].
        apply Hroots in Hk as [_ Hlt]. rewrite <- Hn in Hlt. simpl in Hlt. lia. }
      assert (Hzero : ∀ k n, q !! k = Some n → cost_of m (l_cell n) = 0).
      { intros k n Hk. pose proof (inv_parent _ _ _ _ Hinv _ _ Hk) as Hpar.
        unfold parent_ok in Hpar. apply Hroots in Hk as [Hn _].
        rewrite Hn in Hpar. tauto. }
      unfold with_cost at 1. cbn [with_reach c_x c_y c_cost c_reach c_soln c_type].
      change (Cell (c_x c) (c_y c) FALSE TRUE (c_soln c) (c_type c))
        with (with_cost 0 (with_reach TRUE c)).
      apply IH; [|  | | lia | lia].
      * apply inv_push; try done; try congruence.
        -- lia.
        -- intros k n Hk. rewrite (Hzero _ _ Hk). lia.
        -- intros ni Hi. rewrite (Hzero _ _ Hi). lia.
      * intros k n Hk. apply lookup_snoc_Some in Hk as [[_ Hk]|[_ <-]].
        -- apply Hroots in Hk as [? ?]. split; [done | lia].
        -- simpl. split; [done | lia].
      * intros y Hy Ho. rewrite fmap_snoc. apply elem_of_app.
        destruct (decide (y = j)) as [->|Hne].
        -- right. by apply list_elem_of_singleton.
        -- left. apply Hseen; [lia | done].
    + apply IH; [done | | | lia | lia].
      * intros k n Hk. apply Hroots in Hk as [? ?]. split; [done | lia].
      * intros y Hy Ho. destruct (decide (y = j)) as [->|Hne]; [congruence|].
        apply Hseen; [lia | done].
Qed.

Lemma find_entries_spec :
  ∃ m1 q1,
    find_entries m0 (0, 0) [] (m_cols m0) = Ok (m1, q1)
    ∧ inv m0 m1 q1 0
    ∧ (∀ k n, q1 !! k = Some n → l_parent n = None)
    ∧ ∀ p, entrance m0 p → p ∈ l_cell <$> q1 ∧ cost_of m1 p = 0.
Proof.
  pose proof (vf_cols _ Hvalid) as Hcols.
  unfold find_entries. replace (m_cols m0 <? 0) with false by lia.
  apply (find_entries_walk_spec (Z.to_nat (m_cols m0)) m0 [] 0 inv_init);
    [by intros [|] | lia | lia | lia].
Qed.

Lemma flood_maze_spec fuel :
  m_rows m0 * m_cols m0 ≤ Z.of_nat fuel →
  ∃ m q, flood_maze fuel m0 = Ok (m, q) ∧ flooded m0 m q.
Proof.
  intros Hfuel. unfold flood_maze, row_ptr.
  pose proof (vf_rows _ Hvalid) as Hrows. pose proof (vf_cols _ Hvalid) as Hcols.
  pose proof (vf_len _ Hvalid) as Hlen.
  rewrite decide_True by lia. cbn [bind].
  unfold find_entries. replace (m_cols m0 <? 0) with false by lia.
  destruct (find_entries_walk_spec (Z.to_nat (m_cols m0)) m0 [] 0 inv_init)
    as (m1 & q1 & -> & Hinv1 & _ & Hentr1); [by intros [|] | lia | lia | lia |].
  cbn [bind].
  destruct (recursive_flood_spec m0 Hvalid fuel m1 q1 0%nat Hinv1)
    as (m & q & -> & Hinv & Hext); [lia|].
  exists m, q. split; [done|]. split; [done|].
  intros p Hp. destruct (Hentr1 p Hp) as [Hin Hzero].
  destruct Hext as [[t ->] Hcost]. rewrite Hcost by done. split; [|done].
  rewrite fmap_app. apply elem_of_app. by left.
Qed.

End entries.

(** ** The parent chain of a node *)

Lemma chain_exists m0 m q i k n :
  inv m0 m q i → q !! k = Some n → ∃ l, chain q k l.
Proof.
  intros Hinv. revert n. induction (lt_wf k) as [k _ IH]. intros n Hk.
  pose proof (inv_parent _ _ _ _ Hinv _ _ Hk) as Hpar. unfold parent_ok in Hpar.
  destruct (l_parent n) as [p|] eqn:Hp.
  - destruct Hpar as (Hlt & pn & Hpn & _).
    destruct (IH p Hlt pn Hpn) as [l Hl].
    eexists. by eapply chain_step.
  - eexists. by eapply chain_root.
Qed.

Lemma chain_path m0 m q i k l :
  inv m0 m q i → chain q k l →
  ∃ n, q !! k = Some n
       ∧ open_path m0 l (l_cell n)
       ∧ Z.of_nat (length l) = cost_of m (l_cell n) + 1
       ∧ ∀ j p, l !! j = Some p →
           cost_of m p = Z.of_nat j ∧ p ∈ l_cell <$> q.
Proof.
  intros Hinv. induction 1 as [k n Hk Hp|k n p l Hk Hp Hch IH].
  - pose proof (inv_parent _ _ _ _ Hinv _ _ Hk) as Hpar. unfold parent_ok in Hpar.
    rewrite Hp in Hpar. destruct Hpar as [Hrow Hcost].
    pose proof (inv_node _ _ _ _ Hinv _ _ Hk) as (Hopen & _ & _).
    exists n. split_and!; [done | by constructor | simpl; lia |].
    intros j p Hj. apply list_lookup_singleton_Some in Hj as [-> <-].
    split; [done | by eapply elem_of_cells].
  - destruct IH as (pn & Hpn & Hpath & Hlen & Hidx).
    pose proof (inv_parent _ _ _ _ Hinv _ _ Hk) as Hpar. unfold parent_ok in Hpar.
    rewrite Hp in Hpar. destruct Hpar as (_ & pn' & Hpn' & Hadj & Hcost).
    rewrite Hpn in Hpn'. injection Hpn' as <-.
    pose proof (inv_node _ _ _ _ Hinv _ _ Hk) as (Hopen & _ & _).
    exists n. split_and!; [done | by econstructor | rewrite length_app; simpl; lia |].
    intros j p' Hj. apply lookup_snoc_Some in Hj as [[_ Hj]|[-> <-]].
    + by apply Hidx.
    + split; [lia | by eapply elem_of_cells].
Qed.

(** ** Marking the solution *)

Lemma marked_one m p c :
  get_cell m p = Some c → marked m [p] (put_cell m p (with_soln TRUE c)).
Proof.
  intros Hc. destruct (put_cell_fields m p (with_soln TRUE c)) as (_ & _ & ? & ? & _).
  split.
  - by apply (same_static_put _ _ c).
  - done.
  - intros p'. rewrite (cost_of_put _ _ _ _ Hc). case_decide; [|done].
    subst p'. unfold cost_of. by rewrite Hc.
  - intros p'. rewrite (reach_of_put _ _ _ _ Hc). case_decide; [|done].
    subst p'. unfold reach_of. by rewrite Hc.
  - intros p'. rewrite (soln_of_put _ _ _ _ Hc).
    destruct (decide (p = p')) as [->|Hne].
    + rewrite decide_True; [done | by apply list_elem_of_singleton].
    + rewrite decide_False; [done|]. rewrite list_elem_of_singleton. congruence.
Qed.

Lemma marked_snoc m m1 m2 p l :
  marked m [p] m1 → marked m1 l m2 → marked m (l ++ [p]) m2.
Proof.
  intros H1 H2. split.
  - eapply same_static_trans; [apply H1 | apply H2].
  - destruct (mk_maze _ _ _ H1), (mk_maze _ _ _ H2). split; congruence.
  - intros p'. by rewrite (mk_cost _ _ _ H2), (mk_cost _ _ _ H1).
  - intros p'. by rewrite (mk_reach _ _ _ H2), (mk_reach _ _ _ H1).
  - intros p'. rewrite (mk_soln _ _ _ H2), (mk_soln _ _ _ H1).
    destruct (decide (p' ∈ l)) as [Hl|Hl].
    + rewrite decide_True; [done|]. apply elem_of_app. by left.
    + destruct (decide (p' ∈ [p])) as [Hp|Hp].
      * rewrite decide_True; [done|]. apply elem_of_app. by right.
      * rewrite decide_False; [done|]. rewrite elem_of_app. tauto.
Qed.

(** From the node that holds the exit, [shortest_path] marks the parent
    chain and counts its steps. *)
Lemma shortest_path_chain q k l :
  chain q k l → ∀ fuel m,
  (length l ≤ fuel)%nat →
  Z.of_nat (length l) < 2 ^ 31 →
  (∀ p, p ∈ l → is_Some (get_cell m p)) →
  ∃ m', shortest_path fuel m q (Some k) None = Ok (m', Z.of_nat (length l) - 1)
        ∧ marked m l m'.
Proof.
  induction 1 as [k n Hk Hp|k n p l Hk Hp Hch IH]; intros fuel m Hfuel Hlen Hget.
  - destruct fuel as [|fuel]; [simpl in Hfuel; lia|].
    destruct (Hget (l_cell n)) as [c Hc]; [by apply list_elem_of_singleton|].
    cbn [shortest_path]. rewrite Hk. unfold store. rewrite Hc, Hp. cbn [bind].
    destruct fuel; cbn [shortest_path bind];
      (eexists; split; [done | by apply marked_one]).
  - rewrite length_app in Hfuel, Hlen. simpl in Hfuel, Hlen.
    destruct fuel as [|fuel]; [lia|].
    destruct (Hget (l_cell n)) as [c Hc];
      [apply elem_of_app; right; by apply list_elem_of_singleton|].
    pose proof (marked_one _ _ _ Hc) as Hm1.
    destruct (IH fuel (put_cell m (l_cell n) (with_soln TRUE c)))
      as (m' & E & Hm'); [lia | lia | |].
    { intros p' Hp'. destruct (Hget p') as [c' Hc']; [apply elem_of_app; by left|].
      destruct (same_static_get _ _ _ _ (mk_static _ _ _ Hm1) Hc') as (c'' & ? & _).
      by exists c''. }
    exists m'. split; [|by eapply marked_snoc].
    cbn [shortest_path]. rewrite Hk. unfold store. rewrite Hc, Hp. cbn [bind].
    rewrite E. cbn [bind]. rewrite int_add_small by lia.
    rewrite length_app. simpl. do 2 f_equal. lia.
Qed.

(** Before that, it walks down the queue to the first node of the exit. *)
Lemma shortest_path_scan q e k n f m : ∀ d j,
  q !! k = Some n → l_cell n = e →
  (∀ j' n', (j' < k)%nat → q !! j' = Some n' → l_cell n' ≠ e) →
  (j + d = k)%nat →
  shortest_path (d + S f) m q (Some j) (Some e)
  = shortest_path (S f) m q (Some k) None.
Proof.
  induction d as [|d IH]; intros j Hk He Hfirst Hj.
  - assert (j = k) as -> by lia. cbn [Nat.add shortest_path].
    rewrite Hk. by rewrite bool_decide_eq_true_2.
  - assert (Hlt : (j < k)%nat) by lia.
    destruct (lookup_lt_is_Some_2 q j) as [nj Hnj].
    { apply lookup_lt_Some in Hk. lia. }
    cbn [Nat.add shortest_path]. rewrite Hnj.
    rewrite bool_decide_eq_false_2 by by eapply Hfirst.
    unfold next. rewrite decide_True by (apply lookup_lt_Some in Hk; lia).
    apply IH; [done..|lia].
Qed.

(** ** Choosing the exit *)

Lemma find_exit_walk_spec m r lim : ∀ j exit cost,
  (∀ y, j ≤ y < j + Z.of_nat lim → is_Some (get_cell m (r, y))) →
  (∀ y, candidate m (r, y) → 0 ≤ cost_of m (r, y)) →
  0 ≤ j → scan_state m r j exit cost →
  ∃ ex cost',
    find_exit_walk lim m (r, j) exit cost = Ok ex
    ∧ scan_state m r (j + Z.of_nat lim) ex cost'.
Proof.
  induction lim as [|lim IH]; intros j exit cost Hget Hpos Hj Hst.
  - exists exit, cost. split; [done|]. by replace (j + Z.of_nat 0) with j by lia.
  - destruct (Hget j) as [c Hc]; [lia|].
    cbn [find_exit_walk fst snd]. unfold load. rewrite Hc. cbn [bind].
    replace (j + Z.of_nat (S lim)) with ((j + 1) + Z.of_nat lim) by lia.
    assert (Hcand : candidate m (r, j) ↔ is_path c && negb (c_reach c =? 0) = true).
    { unfold candidate, open_at, reach_of, FALSE. rewrite Hc.
      rewrite andb_true_iff, negb_true_iff, Z.eqb_neq. done. }
    assert (Hcost : cost_of m (r, j) = c_cost c) by (unfold cost_of; by rewrite Hc).
    assert (Hget' : ∀ y, j + 1 ≤ y < j + 1 + Z.of_nat lim → is_Some (get_cell m (r, y)))
      by (intros y Hy; apply Hget; lia).
    destruct (is_path c && negb (c_reach c =? 0)) eqn:Hb.
    2:{ apply IH; [done | done | lia |].
        assert (Hn : ¬ candidate m (r, j)) by (rewrite Hcand; done).
        destruct exit as [e|]; unfold scan_state in *.
        - destruct Hst as (? & ? & ? & ? & Hall). split_and!; [done | done | lia | lia | done |].
          intros y Hy Hy'. destruct (decide (y = j)) as [->|]; [done|]. apply Hall; [lia | done].
        - destruct Hst as [? Hall]. split; [done|].
          intros y Hy. destruct (decide (y = j)) as [->|]; [done|]. apply Hall; lia. }
    assert (Hc' : candidate m (r, j)) by by rewrite Hcand.
    pose proof (Hpos _ Hc') as Hcj. rewrite Hcost in Hcj.
    destruct ((cost <? NIL) || ((c_cost c >=? NIL) && (c_cost c <? cost))) eqn:Hbetter.
    + apply IH; [done | done | lia |]. unfold scan_state. cbn [fst snd].
      split_and!; [done | done | lia | lia | done |].
      intros y Hy Hy'. destruct (decide (y = j)) as [->|Hne]; [lia|].
      destruct exit as [e|]; unfold scan_state in Hst.
      * destruct Hst as (Hce & He1 & He2 & Hecand & Hall).
        destruct (Hall y) as [Hle _]; [lia | done |].
        assert (0 ≤ cost).
        { rewrite Hce. replace e with (r, e.2) in * by (destruct e; simpl in *; congruence).
          by apply Hpos. }
        unfold NIL in Hbetter. lia.
      * destruct Hst as [_ Hall]. destruct (Hall y); [lia | done].
    + apply IH; [done | done | lia |].
      destruct exit as [e|]; unfold scan_state in *.
      * destruct Hst as (Hce & He1 & He2 & Hecand & Hall).
        split_and!; [done | done | lia | lia | done |].
        intros y Hy Hy'. destruct (decide (y = j)) as [->|Hne].
        -- rewrite Hcost. unfold NIL in Hbetter. lia.
        -- apply Hall; [lia | done].
      * destruct Hst as [Hneg _]. unfold NIL in Hbetter. lia.
Qed.

Section select.
Context (m0 : maze_t).
Hypothesis Hvalid : valid_facts m0.

Lemma inv_candidate m q i p :
  inv m0 m q i → candidate m p →
  ∃ k n, q !! k = Some n ∧ l_cell n = p ∧ 0 ≤ cost_of m p.
Proof.
  intros Hinv [_ Hr].
  destruct (decide (p ∈ l_cell <$> q)) as [Hin|Hnin].
  - in_queue Hin as k n Hk. exists k, n.
    pose proof (inv_node _ _ _ _ Hinv _ _ Hk). split_and!; [done | done | lia].
  - apply (inv_fresh _ _ _ _ Hinv) in Hnin. tauto.
Qed.

Lemma select_exit_spec m q i :
  inv m0 m q i →
  ∃ ex, select_exit m = Ok ex
        ∧ match ex with
          | Some e => best_exit m e
          | None => no_exit m
          end.
Proof.
  intros Hinv. unfold select_exit.
  pose proof (vf_rows _ Hvalid) as Hrows. pose proof (vf_cols _ Hvalid) as Hcols.
  pose proof (vf_len _ Hvalid) as Hlen. unfold MAX_ROWS, MAX_COLS in *.
  pose proof (ss_rows _ _ (inv_static _ _ _ _ Hinv)) as Hr.
  pose proof (ss_cols _ _ (inv_static _ _ _ _ Hinv)) as Hc.
  pose proof (ss_len _ _ (inv_static _ _ _ _ Hinv)) as Hl.
  rewrite int_sub_small by lia.
  unfold find_exit. replace (m_cols m <? 0) with false by lia.
  destruct (find_exit_walk_spec m (m_rows m - 1) (Z.to_nat (m_cols m)) 0 None NOTVISIT)
    as (ex & cost' & -> & Hst).
  - intros y Hy.
    destruct (static_get m0 Hvalid m (m_rows m - 1, y) (inv_static _ _ _ _ Hinv))
      as (c & -> & _); [unfold in_grid; simpl; lia | done].
  - intros y Hy. by destruct (inv_candidate _ _ _ _ Hinv Hy) as (_ & _ & _ & _ & ?).
  - done.
  - simpl. unfold NOTVISIT. split; [lia|]. intros y Hy. lia.
  - exists ex. split; [done|].
    replace (0 + Z.of_nat (Z.to_nat (m_cols m))) with (m_cols m) in Hst by lia.
    destruct ex as [e|]; unfold scan_state in Hst.
    + destruct Hst as (-> & ? & ? & ? & ?). unfold best_exit. tauto.
    + by destruct Hst.
Qed.

End select.

(** ** The whole traversal *)

Lemma same_static_set_maze m v1 v2 :
  same_static m (set_maze_soln v1 (set_maze_cost v2 m)).
Proof. by split. Qed.

Lemma traverse_maze_spec m0 fuel :
  valid_facts m0 →
  2 * (m_rows m0 * m_cols m0) ≤ Z.of_nat fuel →
  ∃ m2 q2 ex m',
    flood_maze fuel m0 = Ok (m2, q2) ∧ flooded m0 m2 q2
    ∧ select_exit m2 = Ok ex
    ∧ match ex with
      | Some e => best_exit m2 e
      | None => no_exit m2
      end
    ∧ traverse_maze fuel m0 = Ok m'
    ∧ solved m0 m2 ex m'.
Proof.
  intros Hvalid Hfuel.
  pose proof (vf_rows _ Hvalid) as Hrows. pose proof (vf_cols _ Hvalid) as Hcols.
  destruct (flood_maze_spec m0 Hvalid fuel) as (m2 & q2 & Hflood & Hfl); [nia|].
  pose proof (fl_inv _ _ _ Hfl) as Hinv.
  destruct (select_exit_spec m0 Hvalid _ _ _ Hinv) as (ex & Hsel & Hex).
  exists m2, q2, ex. unfold traverse_maze. rewrite Hflood. cbn [bind].
  rewrite Hsel. cbn [bind].
  destruct ex as [e|].
  2:{ exists m2. split_and!; try done. split; [apply Hinv | done..]. }
  destruct Hex as (He1 & He2 & Hcand & Hbest).
  destruct (inv_candidate _ _ _ _ _ Hinv Hcand) as (k & n & Hk & Hn & Hcost).
  assert (Hfirst : ∀ j' n', (j' < k)%nat → q2 !! j' = Some n' → l_cell n' ≠ e).
  { intros j' n' Hlt Hj' Heq.
    assert (j' = k); [|lia].
    eapply (NoDup_lookup _ _ _ e (inv_nodup _ _ _ _ Hinv)).
    - rewrite list_lookup_fmap, Hj'. simpl. by rewrite Heq.
    - rewrite list_lookup_fmap, Hk. simpl. by rewrite Hn. }
  destruct (chain_exists _ _ _ _ _ _ Hinv Hk) as [l Hchain].
  destruct (chain_path _ _ _ _ _ _ Hinv Hchain) as (n' & Hk' & Hpath & Hlen & Hidx).
  rewrite Hk in Hk'. injection Hk' as <-. rewrite Hn in *.
  pose proof (inv_node _ _ _ _ Hinv _ _ Hk) as (_ & Hck & _). rewrite Hn in Hck.
  pose proof (inv_length m0 Hvalid _ _ _ Hinv) as Hqlen.
  pose proof (grid_size m0 Hvalid) as Hsize.
  apply lookup_lt_Some in Hk as Hklt.
  assert (Hhead : head_ptr q2 = Some 0%nat) by (destruct q2; [simpl in Hklt; lia | done]).
  rewrite Hhead.
  replace fuel with (k + S (fuel - k - 1))%nat by lia.
  rewrite (shortest_path_scan q2 e k n _ m2 k 0%nat Hk Hn Hfirst) by lia.
  destruct (shortest_path_chain _ _ _ Hchain (S (fuel - k - 1)) m2)
    as (m3 & -> & Hmarked); [lia | lia | |].
  { intros p Hp. apply list_elem_of_lookup in Hp as [j Hj].
    apply Hidx in Hj as [_ Hin].
    in_queue Hin as kp np Hkp.
    pose proof (inv_node _ _ _ _ Hinv _ _ Hkp) as (Hopen & _).
    apply (open_in_grid _ Hvalid) in Hopen.
    destruct (static_get m0 Hvalid m2 _ (inv_static _ _ _ _ Hinv) Hopen) as (c & -> & _).
    done. }
  cbn [bind]. eexists. split_and!; try done.
  split.
  - eapply same_static_trans; [apply Hinv|].
    eapply same_static_trans; [apply Hmarked | apply same_static_set_maze].
  - intros p. apply (mk_cost _ _ _ Hmarked).
  - intros p. apply (mk_reach _ _ _ Hmarked).
  - split_and!; [done | simpl; lia |].
    exists l. split_and!; [done | done | intros j p Hj; by apply Hidx |].
    intros p. change (soln_of (set_maze_soln _ _) p) with (soln_of m3 p).
    rewrite (mk_soln _ _ _ Hmarked). by rewrite (inv_soln _ _ _ _ Hinv).
Qed.

(** ** Walks, spelled out *)

Lemma open_path_nonempty m l p : open_path m l p → l ≠ [] ∧ last l = Some p.
Proof.
  destruct 1; [done|]. split; [by destruct l | apply last_snoc].
Qed.

Lemma open_path_iff m l p :
  open_path m l p ↔
    (∃ e, head l = Some e ∧ entrance m e)
    ∧ last l = Some p
    ∧ (∀ x, x ∈ l → open_at m x = true)
    ∧ (∀ j a b, l !! j = Some a → l !! S j = Some b → adjacent a b).
Proof.
  split.
  - induction 1 as [e He|l p p' Hl IH Hadj Ho].
    + split_and!.
      * by exists e.
      * done.
      * intros x Hx. apply list_elem_of_singleton in Hx as ->. apply He.
      * intros j a b _ Hb. by destruct j.
    + destruct IH as ((e & Hhead & He) & Hlast & Hopen & Hstep).
      split_and!.
      * exists e. split; [|done]. destruct l; [done | done].
      * apply last_snoc.
      * intros x Hx. apply elem_of_app in Hx as [Hx|Hx]; [by apply Hopen|].
        by apply list_elem_of_singleton in Hx as ->.
      * intros j a b Ha Hb.
        apply lookup_snoc_Some in Hb as [[Hlt Hb]|[Hj <-]].
        -- rewrite lookup_app_l in Ha by lia. by eapply Hstep.
        -- rewrite lookup_app_l in Ha by lia.
           rewrite last_lookup in Hlast. rewrite <- Hj in Hlast. simpl in Hlast.
           congruence.
  - revert p. induction l as [|x l IH] using rev_ind;
      intros p ((e & Hhead & He) & Hlast & Hopen & Hstep); [done|].
    rewrite last_snoc in Hlast. injection Hlast as ->.
    destruct (decide (l = [])) as [->|Hne].
    + simpl in Hhead. injection Hhead as ->. by constructor.
    + destruct (last l) as [y|] eqn:Hy; [|by apply last_None in Hy].
      apply (open_path_step _ _ y).
      * apply IH. split_and!.
        -- exists e. split; [|done]. by destruct l.
        -- done.
        -- intros x Hx. apply Hopen, elem_of_app. by left.
        -- intros j a b Ha Hb. apply (Hstep j); by apply lookup_app_l_Some.
      * rewrite last_lookup in Hy.
        apply (Hstep (pred (length l))); [by apply lookup_app_l_Some|].
        replace (S (pred (length l))) with (length l) by (destruct l; simpl; [done | lia]).
        by rewrite list_lookup_middle.
      * apply Hopen, elem_of_app. right. by apply list_elem_of_singleton.
Qed.

(** ** What the flood has computed *)

Section flooded_facts.
Context (m0 m : maze_t) (q : queue_t).
Hypothesis Hvalid : valid_facts m0.
Hypothesis Hfl : flooded m0 m q.

(** Every walk ends in a queued cell whose cost is at most its length. *)
Lemma flooded_reached l p :
  open_path m0 l p →
  p ∈ l_cell <$> q ∧ cost_of m p + 1 ≤ Z.of_nat (length l).
Proof.
  pose proof (fl_inv _ _ _ Hfl) as Hinv.
  induction 1 as [e He|l p p' Hl IH Hadj Ho].
  - destruct (fl_entrances _ _ _ Hfl e He) as [Hin ->]. split; [done | simpl; lia].
  - destruct IH as [Hin Hle].
    in_queue Hin as k n Hk.
    apply lookup_lt_Some in Hk as Hlt.
    destruct (inv_done _ _ _ _ Hinv _ _ _ Hlt Hk Hadj Ho) as [Hin' Hle'].
    split; [done|]. rewrite length_app. simpl. lia.
Qed.

(** Every queued cell is the end of a walk as long as its cost. *)
Lemma flooded_walk p :
  p ∈ l_cell <$> q →
  ∃ l, open_path m0 l p ∧ Z.of_nat (length l) = cost_of m p + 1.
Proof.
  pose proof (fl_inv _ _ _ Hfl) as Hinv. intros Hin.
  in_queue Hin as k n Hk.
  destruct (chain_exists _ _ _ _ _ _ Hinv Hk) as [l Hchain].
  destruct (chain_path _ _ _ _ _ _ Hinv Hchain) as (n' & Hk' & Hpath & Hlen & _).
  rewrite Hk in Hk'. injection Hk' as <-. by exists l.
Qed.

Lemma flooded_queued p :
  p ∈ l_cell <$> q → 0 ≤ cost_of m p ∧ reach_of m p = TRUE.
Proof.
  pose proof (fl_inv _ _ _ Hfl) as Hinv. intros Hin.
  in_queue Hin as k n Hk.
  pose proof (inv_node _ _ _ _ Hinv _ _ Hk). split; [lia | tauto].
Qed.

Lemma flooded_fresh p :
  p ∉ l_cell <$> q → cost_of m p = NOTVISIT ∧ reach_of m p = FALSE.
Proof. apply (inv_fresh _ _ _ _ (fl_inv _ _ _ Hfl)). Qed.

Lemma flooded_connected p : connected m0 p ↔ p ∈ l_cell <$> q.
Proof.
  split.
  - intros [l Hl]. by apply flooded_reached in Hl as [? _].
  - intros Hin. destruct (flooded_walk _ Hin) as (l & Hl & _). by exists l.
Qed.

Lemma flooded_shortest p :
  p ∈ l_cell <$> q → shortest m0 p (cost_of m p).
Proof.
  intros Hin. split; [by apply flooded_walk|].
  intros l Hl. by apply flooded_reached in Hl as [_ ?].
Qed.

End flooded_facts.

(** ** The outcome of the traversal *)

(** More fuel does not change a result. *)
Lemma recursive_flood_mono fuel : ∀ m q i r fuel',
  recursive_flood fuel m q i = Ok r → (fuel ≤ fuel')%nat →
  recursive_flood fuel' m q i = Ok r.
Proof.
  induction fuel as [|fuel IH]; intros m q i r fuel' Hrun Hle.
  - cbn [recursive_flood] in Hrun. destruct (q !! i) eqn:Hi; [done|].
    destruct fuel'; cbn [recursive_flood]; by rewrite Hi.
  - destruct fuel' as [|fuel']; [lia|].
    rewrite recursive_flood_unfold in *. destruct (q !! i); [|done].
    apply bind_Ok in Hrun as ([m1 q1] & E & Hrun). rewrite E. cbn [bind].
    apply (IH _ _ _ _ _ Hrun). lia.
Qed.

Lemma shortest_path_mono fuel : ∀ m q k exit r fuel',
  shortest_path fuel m q k exit = Ok r → (fuel ≤ fuel')%nat →
  shortest_path fuel' m q k exit = Ok r.
Proof.
  induction fuel as [|fuel IH]; intros m q k exit r fuel' Hrun Hle.
  - destruct k as [k|]; cbn [shortest_path] in Hrun.
    + by destruct (q !! k).
    + by destruct fuel'.
  - destruct fuel' as [|fuel']; [lia|].
    destruct k as [k|]; cbn [shortest_path] in *; [|done].
    destruct (q !! k) as [node|]; [|done].
    destruct (match exit with
              | Some e => bool_decide (l_cell node = e)
              | None => true
              end).
    + apply bind_Ok in Hrun as (m1 & E1 & Hrun). rewrite E1. cbn [bind].
      apply bind_Ok in Hrun as ([m2 n] & E2 & Hrun).
      rewrite (IH _ _ _ _ _ fuel' E2) by lia. done.
    + apply (IH _ _ _ _ _ _ Hrun). lia.
Qed.

Lemma traverse_maze_mono fuel fuel' m r :
  traverse_maze fuel m = Ok r → (fuel ≤ fuel')%nat →
  traverse_maze fuel' m = Ok r.
Proof.
  unfold traverse_maze, flood_maze. intros Hrun Hle.
  apply bind_Ok in Hrun as ([m2 q2] & Hflood & Hrun).
  apply bind_Ok in Hflood as (row0 & -> & Hflood). cbn [bind].
  apply bind_Ok in Hflood as ([m1 q1] & -> & Hflood). cbn [bind].
  rewrite (recursive_flood_mono _ _ _ _ _ fuel' Hflood) by done. cbn [bind].
  apply bind_Ok in Hrun as (ex & -> & Hrun). cbn [bind].
  destruct ex as [e|]; [|done].
  apply bind_Ok in Hrun as ([m3 n] & Hpath & Hrun).
  by rewrite (shortest_path_mono _ _ _ _ _ _ fuel' Hpath).
Qed.

Lemma traverse_maze_outcome m fuel :
  valid_maze m → (fuel_bound m ≤ fuel)%nat →
  valid_facts m
  ∧ ∃ m2 q2 ex m',
      flood_maze fuel m = Ok (m2, q2) ∧ flooded m m2 q2
      ∧ select_exit m2 = Ok ex
      ∧ match ex with
        | Some e => best_exit m2 e
        | None => no_exit m2
        end
      ∧ traverse_maze fuel m = Ok m'
      ∧ solved m m2 ex m'.
Proof.
  intros Hv Hfuel. apply valid_maze_facts in Hv. split; [done|].
  apply traverse_maze_spec; [done|].
  pose proof (vf_rows _ Hv). pose proof (vf_cols _ Hv).
  unfold fuel_bound in Hfuel. nia.
Qed.

(** The exit selector looks at the flooded maze; the maze that is returned
    has the same cells up to the solution marks. *)
Lemma solved_candidate m m2 ex m' p :
  solved m m2 ex m' → same_static m m2 → (candidate m' p ↔ candidate m2 p).
Proof.
  intros Hsv Hss. unfold candidate.
  rewrite (sv_reach _ _ _ _ Hsv), (same_static_open _ _ _ (sv_static _ _ _ _ Hsv)).
  by rewrite (same_static_open _ _ _ Hss).
Qed.

Lemma solved_best_exit m m2 ex m' e :
  solved m m2 ex m' → same_static m m2 → best_exit m2 e → best_exit m' e.
Proof.
  intros Hsv Hss (He1 & He2 & Hc & Hbest).
  pose proof (ss_rows _ _ (sv_static _ _ _ _ Hsv)) as Hr.
  pose proof (ss_cols _ _ (sv_static _ _ _ _ Hsv)) as Hc'.
  pose proof (ss_rows _ _ Hss) as Hr2. pose proof (ss_cols _ _ Hss) as Hc2.
  unfold best_exit. rewrite Hr, Hc', <- Hr2, <- Hc2.
  split_and!; [done | lia | lia | by apply (solved_candidate _ _ _ _ _ Hsv Hss) |].
  intros y Hy Hcy. rewrite !(sv_cost _ _ _ _ Hsv).
  apply Hbest; [done|]. by apply (solved_candidate _ _ _ _ _ Hsv Hss).
Qed.

(** ** One visit, in any state *)

Lemma visit_cell_cases m q k x y c m' q' :
  visit_cell m q k x y c = Ok (m', q') →
  ∃ cell, get_cell m (x, y) = Some cell
    ∧ (((c_cost cell < 0 ∨ c < c_cost cell)
        ∧ m' = put_cell m (x, y) (with_cost c (with_reach TRUE cell))
        ∧ q' = append_at q k (Some k) (x, y))
       ∨ (0 ≤ c_cost cell ≤ c
          ∧ m' = put_cell m (x, y) (with_reach TRUE cell)
          ∧ q' = q)).
Proof.
  intros Hv. destruct (get_cell m (x, y)) as [cell|] eqn:Hc.
  2:{ unfold visit_cell, store in Hv. by rewrite Hc in Hv. }
  exists cell. split; [done|].
  rewrite (visit_cell_eq _ _ _ _ _ _ _ Hc) in Hv.
  destruct ((c_cost cell <? NIL) || (c <? c_cost cell)) eqn:Hg;
    injection Hv as <- <-; unfold NIL in Hg; [left | right];
    (split_and!; try done; lia).
Qed.

(** The guard of [visit_cell]: a node is added only when the cost was absent
    or is lowered, and a cost that is present is never raised. *)
Lemma visit_cell_guard m q k x y c m' q' :
  visit_cell m q k x y c = Ok (m', q') →
  ((q' = append_at q k (Some k) (x, y)
    ∧ (cost_of m (x, y) < 0 ∨ c < cost_of m (x, y))
    ∧ cost_of m' (x, y) = c)
   ∨ (q' = q ∧ 0 ≤ cost_of m (x, y) ≤ c ∧ ∀ p, cost_of m' p = cost_of m p))
  ∧ (∀ p, p ≠ (x, y) → cost_of m' p = cost_of m p)
  ∧ (∀ p, 0 ≤ cost_of m p → cost_of m' p ≤ cost_of m p).
Proof.
  intros Hv. apply visit_cell_cases in Hv as (cell & Hc & Hcases).
  assert (Hold : cost_of m (x, y) = c_cost cell) by (unfold cost_of; by rewrite Hc).
  destruct Hcases as [(Hg & -> & ->)|(Hg & -> & ->)].
  - split_and!.
    + left. split_and!; [done | lia |].
      by rewrite (cost_of_put _ _ _ _ Hc), decide_True.
    + intros p Hp. by rewrite (cost_of_put _ _ _ _ Hc), decide_False.
    + intros p Hp. rewrite (cost_of_put _ _ _ _ Hc). case_decide; [|done].
      subst p. simpl. lia.
  - assert (Hsame : ∀ p, cost_of (put_cell m (x, y) (with_reach TRUE cell)) p = cost_of m p).
    { intros p. rewrite (cost_of_put _ _ _ _ Hc). case_decide; [|done]. by subst p. }
    split_and!.
    + right. split_and!; [done | lia | lia | done].
    + intros p _. apply Hsame.
    + intros p _. rewrite Hsame. lia.
Qed.

(** ** A first row without any Open cell *)

Lemma closed_top_get m y c :
  closed_top m = true → get_cell m (0, y) = Some c → is_path c = false.
Proof.
  unfold closed_top, get_cell. simpl. case_decide; [|done].
  destruct (m_cells m) as [|row rows]; [done|]. simpl.
  intros Hall Hc. apply negb_true_iff.
  rewrite forallb_forall in Hall. apply Hall.
  apply list_elem_of_In. by eapply list_elem_of_lookup_2.
Qed.

Lemma find_entries_walk_closed m q lim : ∀ j,
  (∀ y, j ≤ y < j + Z.of_nat lim →
     ∃ c, get_cell m (0, y) = Some c ∧ is_path c = false) →
  find_entries_walk lim m (0, j) q = Ok (m, q).
Proof.
  induction lim as [|lim IH]; intros j Hrow; [done|].
  cbn [find_entries_walk fst snd]. unfold load.
  destruct (Hrow j) as (c & Hc & Hp); [lia|]. rewrite Hc. cbn [bind].
  rewrite Hp. cbn [bind].
  apply IH. intros y Hy. apply Hrow. lia.
Qed.

Lemma find_exit_walk_none m r lim cost : ∀ j,
  (∀ y, j ≤ y < j + Z.of_nat lim →
     ∃ c, get_cell m (r, y) = Some c ∧ c_reach c = FALSE) →
  find_exit_walk lim m (r, j) None cost = Ok None.
Proof.
  induction lim as [|lim IH]; intros j Hrow; [done|].
  cbn [find_exit_walk fst snd]. unfold load.
  destruct (Hrow j) as (c & Hc & Hr); [lia|]. rewrite Hc. cbn [bind].
  rewrite Hr. cbn [FALSE Z.eqb negb]. rewrite andb_false_r.
  apply IH. intros y Hy. apply Hrow. lia.
Qed.

(** ** Walls are never stepped into *)

Lemma visit_cell_reach m q k x y cost c :
  get_cell m (x, y) = Some c →
  ∃ m' q', visit_cell m q k x y cost = Ok (m', q') ∧ reach_of m' (x, y) = TRUE.
Proof.
  intros Hc. rewrite (visit_cell_eq _ _ _ _ _ _ _ Hc).
  destruct ((c_cost c <? NIL) || (cost <? c_cost c));
    eexists _, _; (split; [done|]);
    by rewrite (reach_of_put _ _ _ _ Hc), decide_True.
Qed.

Lemma attempt_open m q k x y cost c :
  get_cell m (x, y) = Some c → is_path c = true →
  ∃ m' q', attempt m q k x y cost = Ok (m', q') ∧ reach_of m' (x, y) = TRUE.
Proof.
  intros Hc Hp. unfold attempt, load. rewrite Hc. cbn [bind]. rewrite Hp.
  by apply (visit_cell_reach _ _ _ _ _ _ c).
Qed.

Lemma attempt_wall m q k x y cost c :
  get_cell m (x, y) = Some c → is_path c = false →
  attempt m q k x y cost = Ok (m, q).
Proof.
  intros Hc Hp. unfold attempt, load. rewrite Hc. cbn [bind]. by rewrite Hp.
Qed.

(** ** The four attempts of one expansion *)

Lemma attempt_fields m q k x y c m' q' :
  attempt m q k x y c = Ok (m', q') →
  m_rows m' = m_rows m ∧ m_cols m' = m_cols m.
Proof.
  unfold attempt. intros H. apply bind_Ok in H as (cell & _ & H).
  destruct (is_path cell); [|by injection H as <- <-].
  apply visit_cell_cases in H as (cell' & _ & [(_ & -> & _)|(_ & -> & _)]);
    by destruct (put_cell_fields m (x, y) (with_cost c (with_reach TRUE cell'))) as (? & ? & _),
               (put_cell_fields m (x, y) (with_reach TRUE cell')) as (? & ? & _).
Qed.

Lemma attempts_guarded (g : bool) m q k x y c :
  (if g then attempt m q k x y c else Ok (m, q))
  = attempts m q k (if g then [(x, y)] else []) c.
Proof.
  destruct g; [|done]. cbn [attempts fst snd].
  by destruct (attempt m q k x y c) as [[m1 q1]| |].
Qed.

Lemma attempts_fields ws : ∀ m q k c m' q',
  attempts m q k ws c = Ok (m', q') →
  m_rows m' = m_rows m ∧ m_cols m' = m_cols m.
Proof.
  induction ws as [|w ws IH]; intros m q k c m' q' H.
  - by injection H as <- <-.
  - cbn [attempts] in H. apply bind_Ok in H as ([m1 q1] & H1 & H).
    apply attempt_fields in H1 as [<- <-]. by eapply IH.
Qed.

Lemma attempts_app ws1 ws2 : ∀ m q k c,
  attempts m q k (ws1 ++ ws2) c =
    let* '(m1, q1) := attempts m q k ws1 c in attempts m1 q1 k ws2 c.
Proof.
  induction ws1 as [|w ws1 IH]; intros m q k c; [done|].
  cbn [app attempts].
  destruct (attempt m q k w.1 w.2 c) as [[m1 q1]| |]; cbn [bind]; [|done..].
  apply IH.
Qed.

Lemma expand_attempts m q k node c :
  get_cell m (l_cell node) = Some c →
  - 2 ^ 31 < c_x c < 2 ^ 31 - 1 → - 2 ^ 31 < c_y c < 2 ^ 31 - 1 →
  expand m q k node =
    attempts m q k (guarded_neighbours m (c_x c) (c_y c)) (int_add (c_cost c) 1).
Proof.
  intros Hc Hx Hy. unfold expand, load. rewrite Hc. cbn [bind].
  rewrite (int_add_small (c_y c) 1), (int_add_small (c_x c) 1),
    (int_sub_small (c_y c) 1), (int_sub_small (c_x c) 1) by lia.
  unfold guarded_neighbours, flood_right, flood_down, flood_left, flood_up, NIL.
  set (cost := int_add (c_cost c) 1).
  fold (attempt m q k (c_x c) (c_y c + 1) cost).
  rewrite (attempts_guarded _ m q k (c_x c) (c_y c + 1)), attempts_app.
  destruct (attempts m q k _ cost) as [[m1 q1]| |] eqn:E1; cbn [bind]; [|done..].
  apply attempts_fields in E1 as [Hr1 _]. rewrite Hr1.
  fold (attempt m1 q1 k (c_x c + 1) (c_y c) cost).
  rewrite (attempts_guarded _ m1 q1 k (c_x c + 1) (c_y c)), attempts_app.
  destruct (attempts m1 q1 k _ cost) as [[m2 q2]| |] eqn:E2; cbn [bind]; [|done..].
  fold (attempt m2 q2 k (c_x c) (c_y c - 1) cost).
  rewrite (attempts_guarded _ m2 q2 k (c_x c) (c_y c - 1)), attempts_app.
  destruct (attempts m2 q2 k _ cost) as [[m3 q3]| |] eqn:E3; cbn [bind]; [|done..].
  fold (attempt m3 q3 k (c_x c - 1) (c_y c) cost).
  by rewrite (attempts_guarded _ m3 q3 k (c_x c - 1) (c_y c)).
Qed.

Lemma guarded_neighbours_in_grid m r c w :
  in_grid m (r, c) → w ∈ guarded_neighbours m r c → in_grid m w.
Proof.
  unfold in_grid, guarded_neighbours. simpl. intros Hrc Hw.
  repeat (apply elem_of_app in Hw as [Hw|Hw]);
    (destruct (_ : bool) eqn:Hg in Hw; [|by apply elem_of_nil in Hw]);
    apply list_elem_of_singleton in Hw as ->; simpl; lia.
Qed.

Lemma recursive_flood_in_bounds m0 fuel : ∀ m q i,
  valid_facts m0 → inv m0 m q i → recursive_flood fuel m q i ≠ OutOfBounds.
Proof.
  induction fuel as [|fuel IH]; intros m q i Hvf Hinv.
  - cbn [recursive_flood]. by destruct (q !! i).
  - destruct (q !! i) as [ni|] eqn:Hi.
    + destruct (recursive_flood_step m0 Hvf _ _ _ _ Hinv Hi) as (m' & q' & -> & Hinv' & _).
      by apply IH.
    + cbn [recursive_flood]. by rewrite Hi.
Qed.

(** ** The flood from any state of a valid grid *)

Lemma attempt_safe m0 m q k x y cost :
  valid_facts m0 → same_static m0 m → in_grid m0 (x, y) → (k < length q)%nat →
  Forall (λ n, in_grid m0 (l_cell n)) q →
  ∃ m' q', attempt m q k x y cost = Ok (m', q') ∧ same_static m0 m'
           ∧ (k < length q')%nat ∧ Forall (λ n, in_grid m0 (l_cell n)) q'.
Proof.
  intros Hvf Hss Hw Hk Hq.
  destruct (static_get m0 Hvf m _ Hss Hw) as (c & Hc & _).
  unfold attempt, load. rewrite Hc. cbn [bind].
  destruct (is_path c); [|by exists m, q].
  rewrite (visit_cell_eq _ _ _ _ _ _ _ Hc).
  destruct ((c_cost c <? NIL) || (cost <? c_cost c)).
  - eexists _, _. split; [done|]. split; [|split].
    + eapply same_static_trans; [done|]. by apply (same_static_put _ _ c).
    + rewrite append_at_snoc by done. rewrite length_app. lia.
    + rewrite append_at_snoc by done. apply Forall_app. split; [done|].
      by apply Forall_singleton.
  - eexists _, _. split; [done|]. split; [|done].
    eapply same_static_trans; [done|]. by apply (same_static_put _ _ c).
Qed.

Lemma attempts_safe m0 k cost ws : ∀ m q,
  valid_facts m0 → same_static m0 m → Forall (in_grid m0) ws → (k < length q)%nat →
  Forall (λ n, in_grid m0 (l_cell n)) q →
  ∃ m' q', attempts m q k ws cost = Ok (m', q') ∧ same_static m0 m'
           ∧ (k < length q')%nat ∧ Forall (λ n, in_grid m0 (l_cell n)) q'.
Proof.
  induction ws as [|w ws IH]; intros m q Hvf Hss Hws Hk Hq.
  - by exists m, q.
  - apply Forall_cons in Hws as [Hw Hws]. destruct w as [x y].
    destruct (attempt_safe m0 m q k x y cost Hvf Hss Hw Hk Hq)
      as (m1 & q1 & E1 & Hss1 & Hk1 & Hq1).
    cbn [attempts fst snd]. rewrite E1. cbn [bind]. by apply IH.
Qed.

Lemma guarded_neighbours_static m0 m r cl :
  same_static m0 m → guarded_neighbours m r cl = guarded_neighbours m0 r cl.
Proof.
  intros Hss. unfold guarded_neighbours.
  by rewrite (ss_rows _ _ Hss), (ss_cols _ _ Hss).
Qed.

Lemma recursive_flood_floods fuel m q i node c :
  q !! i = Some node → get_cell m (l_cell node) = Some c →
  c_x c = (l_cell node).1 → c_y c = (l_cell node).2 →
  - 2 ^ 31 < c_x c < 2 ^ 31 - 1 → - 2 ^ 31 < c_y c < 2 ^ 31 - 1 →
  recursive_flood (S fuel) m q i =
    (let r := (l_cell node).1 in
     let cl := (l_cell node).2 in
     let cost := int_add (c_cost c) 1 in
     let* '(m1, q1) := flood_right m q i r (cl + 1) cost in
     let* '(m2, q2) := flood_down m1 q1 i (r + 1) cl cost in
     let* '(m3, q3) := flood_left m2 q2 i r (cl - 1) cost in
     let* '(m4, q4) := flood_up m3 q3 i (r - 1) cl cost in
     recursive_flood fuel m4 q4 (S i)).
Proof.
  intros Hi Hc Hx Hy Hbx Hby. cbn [recursive_flood]. rewrite Hi.
  unfold load. rewrite Hc. cbn [bind]. cbv zeta.
  rewrite (int_add_small (c_y c) 1), (int_add_small (c_x c) 1),
    (int_sub_small (c_y c) 1), (int_sub_small (c_x c) 1) by lia.
  by rewrite Hx, Hy.
Qed.

Lemma recursive_flood_safe m0 fuel : ∀ m q i,
  valid_facts m0 → same_static m0 m → Forall (λ n, in_grid m0 (l_cell n)) q →
  recursive_flood fuel m q i ≠ OutOfBounds.
Proof.
  induction fuel as [|fuel IH]; intros m q i Hvf Hss Hq.
  - cbn [recursive_flood]. by destruct (q !! i).
  - rewrite recursive_flood_unfold. destruct (q !! i) as [node|] eqn:Hi; [|done].
    pose proof (lookup_lt_Some _ _ _ Hi) as Hk.
    pose proof (proj1 (Forall_lookup _ _) Hq _ _ Hi) as Hnode. cbn beta in Hnode.
    destruct (static_get m0 Hvf m _ Hss Hnode) as (c & Hc & Hx & Hy & _).
    pose proof (vf_rows _ Hvf) as Hrows. pose proof (vf_cols _ Hvf) as Hcols.
    unfold MAX_ROWS, MAX_COLS in *. pose proof Hnode as [Hg1 Hg2].
    rewrite (expand_attempts _ _ _ _ _ Hc) by lia.
    destruct (attempts_safe m0 i (int_add (c_cost c) 1)
                (guarded_neighbours m (c_x c) (c_y c)) m q Hvf Hss)
      as (m' & q' & -> & Hss' & _ & Hq'); [|done|done|].
    + apply Forall_forall. intros w Hw.
      rewrite (guarded_neighbours_static m0) in Hw by done.
      apply (guarded_neighbours_in_grid m0 (c_x c) (c_y c)); [|done].
      by rewrite Hx, Hy, <- surjective_pairing.
    + cbn [bind]. by apply IH.
Qed.

Lemma four_floods_attempts m q i r cl cost :
  - 2 ^ 31 < r < 2 ^ 31 - 1 → - 2 ^ 31 < cl < 2 ^ 31 - 1 →
  (let* '(m1, q1) := flood_right m q i r (cl + 1) cost in
   let* '(m2, q2) := flood_down m1 q1 i (r + 1) cl cost in
   let* '(m3, q3) := flood_left m2 q2 i r (cl - 1) cost in
   flood_up m3 q3 i (r - 1) cl cost)
  = attempts m q i (guarded_neighbours m r cl) cost.
Proof.
  intros Hr Hcl.
  unfold guarded_neighbours, flood_right, flood_down, flood_left, flood_up, NIL.
  fold (attempt m q i r (cl + 1) cost).
  rewrite (attempts_guarded _ m q i r (cl + 1)), attempts_app.
  destruct (attempts m q i _ cost) as [[m1 q1]| |] eqn:E1; cbn [bind]; [|done..].
  apply attempts_fields in E1 as [Hr1 _]. rewrite Hr1.
  fold (attempt m1 q1 i (r + 1) cl cost).
  rewrite (attempts_guarded _ m1 q1 i (r + 1) cl), attempts_app.
  destruct (attempts m1 q1 i _ cost) as [[m2 q2]| |] eqn:E2; cbn [bind]; [|done..].
  fold (attempt m2 q2 i r (cl - 1) cost).
  rewrite (attempts_guarded _ m2 q2 i r (cl - 1)), attempts_app.
  destruct (attempts m2 q2 i _ cost) as [[m3 q3]| |] eqn:E3; cbn [bind]; [|done..].
  fold (attempt m3 q3 i (r - 1) cl cost).
  by rewrite (attempts_guarded _ m3 q3 i (r - 1) cl).
Qed.

(** ** The states the flood goes through *)

Lemma flood_at_fun m0 i m q m' q' :
  flood_at m0 i m q → flood_at m0 i m' q' → m = m' ∧ q = q'.
Proof.
  intros H. revert m' q'.
  induction H as [m1 q1 E|i m q node m1 q1 H IH Hi E]; intros m' q' H';
    inversion H' as [m2 q2 E'|i' m2 q2 node' m3 q3 H2 Hi' E']; subst.
  - rewrite E in E'. by injection E' as <- <-.
  - destruct (IH _ _ H2) as [<- <-].
    rewrite Hi in Hi'. injection Hi' as <-.
    rewrite E in E'. by injection E' as <- <-.
Qed.

Lemma flood_at_before m0 i m q j :
  flood_at m0 i m q → (j < i)%nat →
  ∃ mj qj node, flood_at m0 j mj qj ∧ qj !! j = Some node.
Proof.
  induction 1 as [m1 q1 E|i m q node m1 q1 H IH Hi E]; intros Hj; [lia|].
  destruct (decide (j = i)) as [->|Hne].
  - by exists m, q, node.
  - apply IH. lia.
Qed.

Lemma recursive_flood_at m0 fuel : ∀ i m q m' q',
  flood_at m0 i m q → recursive_flood fuel m q i = Ok (m', q') →
  ∃ j, flood_at m0 j m' q' ∧ q' !! j = None.
Proof.
  induction fuel as [|fuel IH]; intros i m q m' q' Hat Hrun.
  - cbn [recursive_flood] in Hrun. destruct (q !! i) eqn:Hi; [done|].
    injection Hrun as <- <-. by exists i.
  - rewrite recursive_flood_unfold in Hrun.
    destruct (q !! i) as [node|] eqn:Hi.
    + apply bind_Ok in Hrun as ([m1 q1] & E & Hrun).
      apply (IH (S i) m1 q1); [|done]. by eapply flood_at_next.
    + injection Hrun as <- <-. by exists i.
Qed.

Section flood_states.
Context (m0 : maze_t).
Hypothesis Hvalid : valid_facts m0.

Lemma flood_at_inv i m q : flood_at m0 i m q → inv m0 m q i.
Proof.
  induction 1 as [m1 q1 E|i m q node m1 q1 H IH Hi E].
  - pose proof (vf_cols _ Hvalid) as Hcols.
    unfold find_entries in E. replace (m_cols m0 <? 0) with false in E by lia.
    destruct (find_entries_walk_spec m0 Hvalid (Z.to_nat (m_cols m0)) m0 [] 0
                (inv_init m0 Hvalid))
      as (m1' & q1' & E' & Hinv1 & _ & _); [by intros [|] | lia | lia | lia |].
    rewrite E in E'. by injection E' as <- <-.
  - destruct (expand_spec m0 Hvalid _ _ _ _ IH Hi) as (m' & q' & E' & Hinv' & _).
    rewrite E in E'. by injection E' as <- <-.
Qed.

Lemma flood_at_ext i m q j m' q' :
  flood_at m0 i m q → flood_at m0 j m' q' → (i ≤ j)%nat → ext m q m' q'.
Proof.
  intros Hi Hj. revert i m q Hi.
  induction Hj as [m1 q1 E|j mj qj node m1 q1 Hj IH Hnode E]; intros i m q Hi Hle.
  - assert (i = 0)%nat as -> by lia.
    destruct (flood_at_fun _ _ _ _ _ _ Hi (flood_at_start _ _ _ E)) as [-> ->].
    apply ext_refl.
  - destruct (decide (i = S j)) as [->|Hne].
    + destruct (flood_at_fun _ _ _ _ _ _ Hi
                  (flood_at_next _ _ _ _ _ _ _ Hj Hnode E)) as [-> ->].
      apply ext_refl.
    + eapply ext_trans; [apply (IH i); [done | lia]|].
      destruct (expand_spec m0 Hvalid _ _ _ _ (flood_at_inv _ _ _ Hj) Hnode)
        as (m' & q' & E' & _ & Hext).
      rewrite E in E'. by injection E' as <- <-.
Qed.

(** Between two states of the flood, a cost that is present stays as it
    is. *)
Lemma flood_at_cost i m q j m' q' p :
  flood_at m0 i m q → flood_at m0 j m' q' → (i ≤ j)%nat →
  0 ≤ cost_of m p → cost_of m' p = cost_of m p.
Proof.
  intros Hi Hj Hle Hp.
  destruct (flood_at_ext _ _ _ _ _ _ Hi Hj Hle) as [_ Hcost].
  apply Hcost.
  destruct (decide (p ∈ l_cell <$> q)) as [|Hnin]; [done|].
  apply (inv_fresh _ _ _ _ (flood_at_inv _ _ _ Hi)) in Hnin as [Hc _].
  unfold NOTVISIT in Hc. lia.
Qed.

End flood_states.

(** * The claims of the specification *)

(** C1. On every valid grid the traversal returns, and then every grid cell
    whose cost is not the sentinel [NOTVISIT] holds the length of a shortest
    walk (4-adjacent unit steps over Open cells) from an entrance, and every
    cell that has such a shortest distance has its cost present. *)
Theorem costs_are_shortest_distances (m : maze_t) (fuel : nat) :
  valid_maze m → (fuel_bound m ≤ fuel)%nat →
  ∃ m', traverse_maze fuel m = Ok m'
    ∧ ∀ p, in_grid m p →
        (cost_of m' p ≠ NOTVISIT → shortest m p (cost_of m' p))
        ∧ (∀ d, shortest m p d → cost_of m' p ≠ NOTVISIT).
Proof.
  intros Hv Hfuel.
  destruct (traverse_maze_outcome m fuel Hv Hfuel)
    as (Hvf & m2 & q2 & ex & m' & _ & Hfl & _ & _ & Htr & Hsv).
  exists m'. split; [done|]. intros p _. rewrite (sv_cost _ _ _ _ Hsv).
  split.
  - intros Hc. apply (flooded_shortest m m2 q2 Hfl).
    destruct (decide (p ∈ l_cell <$> q2)) as [|Hnin]; [done|].
    by apply (flooded_fresh _ _ _ Hfl) in Hnin as [? _].
  - intros d [(l & Hl & _) _].
    apply (flooded_reached _ _ _ Hfl) in Hl as [Hin _].
    apply (flooded_queued _ _ _ Hfl) in Hin as [? _]. unfold NOTVISIT. lia.
Qed.

Lemma costs_are_shortest_distances_witness :
  valid_maze scenario_a ∧ (fuel_bound scenario_a ≤ 18)%nat
  ∧ ∃ m', traverse_maze 18 scenario_a = Ok m'
      ∧ ∀ p, in_grid scenario_a p →
          (cost_of m' p ≠ NOTVISIT → shortest scenario_a p (cost_of m' p))
          ∧ (∀ d, shortest scenario_a p d → cost_of m' p ≠ NOTVISIT).
Proof.
  split; [reflexivity|]. split; [vm_compute; lia|].
  apply (costs_are_shortest_distances scenario_a 18); [reflexivity | vm_compute; lia].
Defined.

(** C2. On every valid grid the traversal returns with [soln] set exactly
    when some cell of the last row is Open and reachable; the exit that
    [find_exit] selected is then such a cell of least cost, the leftmost one
    among those of least cost, and the cost stored in the maze is its
    cost. *)
Theorem exit_is_leftmost_cheapest (m : maze_t) (fuel : nat) :
  valid_maze m → (fuel_bound m ≤ fuel)%nat →
  ∃ m2 q2 ex m',
    flood_maze fuel m = Ok (m2, q2)
    ∧ select_exit m2 = Ok ex
    ∧ traverse_maze fuel m = Ok m'
    ∧ (m_soln m' = TRUE ∨ m_soln m' = FALSE)
    ∧ (m_soln m' = TRUE ↔
         ∃ y, 0 ≤ y < m_cols m' ∧ candidate m' (m_rows m' - 1, y))
    ∧ (m_soln m' = TRUE →
         ∃ e, ex = Some e ∧ best_exit m' e ∧ m_cost m' = cost_of m' e).
Proof.
  intros Hv Hfuel.
  destruct (traverse_maze_outcome m fuel Hv Hfuel)
    as (Hvf & m2 & q2 & ex & m' & Hflood & Hfl & Hsel & Hex & Htr & Hsv).
  exists m2, q2, ex, m'. split_and!; [done..| | |].
  - destruct ex as [e|]; [left; apply Hsv|right].
    rewrite (sv_exit _ _ _ _ Hsv).
    destruct (inv_maze _ _ _ _ (fl_inv _ _ _ Hfl)) as [-> _]. apply Hvf.
  - pose proof (inv_static _ _ _ _ (fl_inv _ _ _ Hfl)) as Hss.
    destruct ex as [e|].
    + pose proof (solved_best_exit _ _ _ _ _ Hsv Hss Hex) as (He1 & He2 & Hc & _).
      split; [|intros _; apply Hsv].
      intros _. exists e.2. split; [done|]. rewrite <- He1. by destruct e.
    + pose proof (sv_exit _ _ _ _ Hsv) as Heq. simpl in Heq. subst m'.
      destruct (inv_maze _ _ _ _ (fl_inv _ _ _ Hfl)) as [Hs _].
      rewrite Hs, (vf_soln _ Hvf). unfold TRUE, FALSE. split; [lia|].
      intros (y & Hy & Hc). by destruct (Hex y).
  - pose proof (inv_static _ _ _ _ (fl_inv _ _ _ Hfl)) as Hss.
    destruct ex as [e|].
    + intros _. exists e. split_and!; [done | by eapply solved_best_exit |].
      destruct (sv_exit _ _ _ _ Hsv) as (_ & -> & _). by rewrite (sv_cost _ _ _ _ Hsv).
    + pose proof (sv_exit _ _ _ _ Hsv) as Heq. simpl in Heq. subst m'.
      destruct (inv_maze _ _ _ _ (fl_inv _ _ _ Hfl)) as [Hs _].
      rewrite Hs, (vf_soln _ Hvf). unfold TRUE, FALSE. lia.
Qed.

Lemma exit_is_leftmost_cheapest_witness :
  valid_maze scenario_a ∧ (fuel_bound scenario_a ≤ 18)%nat
  ∧ (∃ m', traverse_maze 18 scenario_a = Ok m' ∧ m_soln m' = TRUE)
  ∧ ∃ m2 q2 ex m',
      flood_maze 18 scenario_a = Ok (m2, q2)
      ∧ select_exit m2 = Ok ex
      ∧ traverse_maze 18 scenario_a = Ok m'
      ∧ (m_soln m' = TRUE ∨ m_soln m' = FALSE)
      ∧ (m_soln m' = TRUE ↔
           ∃ y, 0 ≤ y < m_cols m' ∧ candidate m' (m_rows m' - 1, y))
      ∧ (m_soln m' = TRUE →
           ∃ e, ex = Some e ∧ best_exit m' e ∧ m_cost m' = cost_of m' e).
Proof.
  split; [reflexivity|]. split; [vm_compute; lia|].
  split; [eexists; split; [vm_compute; reflexivity | reflexivity]|].
  apply (exit_is_leftmost_cheapest scenario_a 18); [reflexivity | vm_compute; lia].
Defined.

(** C3. After the traversal of a valid grid, the reachable flag of a grid
    cell is true exactly when some walk over 4-adjacent Open cells, the cell
    itself included, joins it to an entrance (an Open cell of row 0). *)
Theorem reachable_iff_connected (m : maze_t) (fuel : nat) :
  valid_maze m → (fuel_bound m ≤ fuel)%nat →
  ∃ m', traverse_maze fuel m = Ok m'
    ∧ ∀ p, in_grid m p →
        (reach_of m' p = TRUE ↔ connected m p)
        ∧ (reach_of m' p = FALSE ↔ ¬ connected m p).
Proof.
  intros Hv Hfuel.
  destruct (traverse_maze_outcome m fuel Hv Hfuel)
    as (Hvf & m2 & q2 & ex & m' & _ & Hfl & _ & _ & Htr & Hsv).
  exists m'. split; [done|]. intros p _. rewrite (sv_reach _ _ _ _ Hsv).
  rewrite (flooded_connected _ _ _ Hfl).
  destruct (decide (p ∈ l_cell <$> q2)) as [Hin|Hnin].
  - destruct (flooded_queued _ _ _ Hfl _ Hin) as [_ ->]. unfold TRUE, FALSE.
    split; split; try done; lia.
  - destruct (flooded_fresh _ _ _ Hfl _ Hnin) as [_ ->]. unfold TRUE, FALSE.
    split; split; try done; lia.
Qed.

Lemma reachable_iff_connected_witness :
  valid_maze scenario_a ∧ (fuel_bound scenario_a ≤ 18)%nat
  ∧ ∃ m', traverse_maze 18 scenario_a = Ok m'
      ∧ ∀ p, in_grid scenario_a p →
          (reach_of m' p = TRUE ↔ connected scenario_a p)
          ∧ (reach_of m' p = FALSE ↔ ¬ connected scenario_a p).
Proof.
  split; [reflexivity|]. split; [vm_compute; lia|].
  apply (reachable_iff_connected scenario_a 18); [reflexivity | vm_compute; lia].
Defined.

(** C4. On every valid grid with a solution, the cells marked [soln] are
    exactly the cells of one walk: it repeats no cell, starts at an entrance,
    ends at the selected exit, moves between 4-adjacent cells, stays on Open
    cells and has [cost + 1] cells, where [cost], the cost stored in the
    maze, is the cost of the exit cell. *)
Theorem solution_is_a_simple_walk (m : maze_t) (fuel : nat) :
  valid_maze m → (fuel_bound m ≤ fuel)%nat →
  ∃ m2 q2 ex m',
    flood_maze fuel m = Ok (m2, q2)
    ∧ select_exit m2 = Ok ex
    ∧ traverse_maze fuel m = Ok m'
    ∧ (m_soln m' = TRUE →
         ∃ e l, ex = Some e
           ∧ NoDup l
           ∧ (∃ e0, head l = Some e0 ∧ entrance m e0)
           ∧ last l = Some e
           ∧ (∀ x, x ∈ l → open_at m x = true)
           ∧ (∀ j a b, l !! j = Some a → l !! S j = Some b → adjacent a b)
           ∧ (∀ p, soln_of m' p = TRUE ↔ p ∈ l)
           ∧ Z.of_nat (length l) = m_cost m' + 1
           ∧ m_cost m' = cost_of m' e).
Proof.
  intros Hv Hfuel.
  destruct (traverse_maze_outcome m fuel Hv Hfuel)
    as (Hvf & m2 & q2 & ex & m' & Hflood & Hfl & Hsel & Hex & Htr & Hsv).
  exists m2, q2, ex, m'. split_and!; [done..|].
  destruct ex as [e|].
  2:{ pose proof (sv_exit _ _ _ _ Hsv) as Heq. simpl in Heq. subst m'.
      destruct (inv_maze _ _ _ _ (fl_inv _ _ _ Hfl)) as [Hs _].
      rewrite Hs, (vf_soln _ Hvf). unfold TRUE, FALSE. lia. }
  intros _.
  destruct (sv_exit _ _ _ _ Hsv) as (_ & Hcost & l & Hpath & Hlen & Hidx & Hmark).
  apply open_path_iff in Hpath as (Hhead & Hlast & Hopen & Hstep).
  exists e, l. split_and!; try done.
  - apply NoDup_alt. intros i j p Hi Hj.
    apply Hidx in Hi, Hj. lia.
  - intros p. rewrite Hmark. case_decide; unfold TRUE, FALSE; split; try done; lia.
  - lia.
  - by rewrite (sv_cost _ _ _ _ Hsv).
Qed.

Lemma solution_is_a_simple_walk_witness :
  valid_maze scenario_a ∧ (fuel_bound scenario_a ≤ 18)%nat
  ∧ (∃ m', traverse_maze 18 scenario_a = Ok m' ∧ m_soln m' = TRUE)
  ∧ ∃ m2 q2 ex m',
      flood_maze 18 scenario_a = Ok (m2, q2)
      ∧ select_exit m2 = Ok ex
      ∧ traverse_maze 18 scenario_a = Ok m'
      ∧ (m_soln m' = TRUE →
           ∃ e l, ex = Some e
             ∧ NoDup l
             ∧ (∃ e0, head l = Some e0 ∧ entrance scenario_a e0)
             ∧ last l = Some e
             ∧ (∀ x, x ∈ l → open_at scenario_a x = true)
             ∧ (∀ j a b, l !! j = Some a → l !! S j = Some b → adjacent a b)
             ∧ (∀ p, soln_of m' p = TRUE ↔ p ∈ l)
             ∧ Z.of_nat (length l) = m_cost m' + 1
             ∧ m_cost m' = cost_of m' e).
Proof.
  split; [reflexivity|]. split; [vm_compute; lia|].
  split; [eexists; split; [vm_compute; reflexivity | reflexivity]|].
  apply (solution_is_a_simple_walk scenario_a 18); [reflexivity | vm_compute; lia].
Defined.

(** C5. On every valid grid the traversal terminates.  A node enters the
    queue only when [visit_cell] finds the cost of the cell absent or
    lowers it, or when [find_entries] gives an entrance, whose cost was
    absent, the cost 0; no cell is queued twice, so the queue never holds
    more nodes than the grid has cells; the pass over the queue ends at its
    last node with every node expanded; and [traverse_maze] returns a maze
    whose [soln] field says whether there is a solution, the same maze for
    every amount of fuel from [fuel_bound] on. *)
Theorem traversal_terminates (m : maze_t) (fuel : nat) :
  valid_maze m → (fuel_bound m ≤ fuel)%nat →
  (∀ m1 q1 k x y c m1' q1',
     visit_cell m1 q1 k x y c = Ok (m1', q1') →
     (q1' = append_at q1 k (Some k) (x, y)
      ∧ (cost_of m1 (x, y) < 0 ∨ c < cost_of m1 (x, y))
      ∧ cost_of m1' (x, y) = c)
     ∨ (q1' = q1 ∧ ∀ p, cost_of m1' p = cost_of m1 p))
  ∧ (∃ m1 q1,
       find_entries m (0, 0) [] (m_cols m) = Ok (m1, q1)
       ∧ ∀ k n, q1 !! k = Some n →
           cost_of m (l_cell n) = NOTVISIT ∧ cost_of m1 (l_cell n) = 0)
  ∧ (∃ m2 q2,
       flood_maze fuel m = Ok (m2, q2)
       ∧ NoDup (l_cell <$> q2)
       ∧ Z.of_nat (length q2) ≤ m_rows m * m_cols m
       ∧ ∀ k n w, q2 !! k = Some n → adjacent (l_cell n) w →
           open_at m w = true → w ∈ l_cell <$> q2)
  ∧ ∃ m', traverse_maze fuel m = Ok m'
          ∧ (m_soln m' = TRUE ∨ m_soln m' = FALSE)
          ∧ ∀ fuel', (fuel_bound m ≤ fuel')%nat → traverse_maze fuel' m = Ok m'.
Proof.
  intros Hv Hfuel.
  destruct (traverse_maze_outcome m fuel Hv Hfuel)
    as (Hvf & m2 & q2 & ex & m' & Hflood & Hfl & Hsel & Hex & Htr & Hsv).
  pose proof (fl_inv _ _ _ Hfl) as Hinv.
  split_and!.
  - intros m1 q1 k x y c m1' q1' Hvisit.
    apply visit_cell_guard in Hvisit as [[?|(? & _ & ?)] _]; [by left | by right].
  - destruct (find_entries_spec m Hvf) as (m1 & q1 & E & Hinv1 & Hroots & _).
    exists m1, q1. split; [done|]. intros k n Hk.
    split; [by destruct (fresh_observations m Hvf (l_cell n))|].
    pose proof (inv_parent _ _ _ _ Hinv1 _ _ Hk) as Hpar.
    unfold parent_ok in Hpar. rewrite (Hroots _ _ Hk) in Hpar. tauto.
  - exists m2, q2. split_and!; [done | apply Hinv | by eapply inv_length |].
    intros k n w Hk Hadj Ho. apply lookup_lt_Some in Hk as Hlt.
    by destruct (inv_done _ _ _ _ Hinv _ _ _ Hlt Hk Hadj Ho).
  - exists m'. split_and!; [done | |].
    + destruct ex as [e|]; [left; apply Hsv | right].
      rewrite (sv_exit _ _ _ _ Hsv). destruct (inv_maze _ _ _ _ Hinv) as [-> _]. apply Hvf.
    + intros fuel' Hfuel'.
      destruct (traverse_maze_outcome m fuel' Hv Hfuel')
        as (_ & _ & _ & _ & m'' & _ & _ & _ & _ & Htr' & _).
      destruct (Nat.le_ge_cases fuel fuel') as [Hle|Hle].
      * by apply (traverse_maze_mono fuel).
      * apply (traverse_maze_mono _ _ _ _ Htr') in Hle. congruence.
Qed.

Lemma traversal_terminates_witness :
  valid_maze scenario_a ∧ (fuel_bound scenario_a ≤ 18)%nat
  ∧ ∃ m', traverse_maze 18 scenario_a = Ok m'
          ∧ (m_soln m' = TRUE ∨ m_soln m' = FALSE)
          ∧ ∀ fuel', (fuel_bound scenario_a ≤ fuel')%nat →
              traverse_maze fuel' scenario_a = Ok m'.
Proof.
  split; [reflexivity|]. split; [vm_compute; lia|].
  apply (traversal_terminates scenario_a 18); [reflexivity | vm_compute; lia].
Defined.

(** C6. Once set, a cost is never overwritten with a higher value.  The
    guard of [visit_cell] lets a proposed cost through only when the stored
    one is absent or strictly higher, so a visit never raises a cost that is
    present, and a visit with an equal or higher proposal changes neither
    the costs nor the queue.  On a valid grid, a cost that is present in
    some state of the flood has the same value in every later state and in
    the maze the traversal returns. *)
Theorem cost_is_never_raised (m0 : maze_t) (fuel : nat) :
  valid_maze m0 → (fuel_bound m0 ≤ fuel)%nat →
  (∀ m q k x y c m' q',
     visit_cell m q k x y c = Ok (m', q') →
     (∀ p, 0 ≤ cost_of m p → cost_of m' p ≤ cost_of m p)
     ∧ (0 ≤ cost_of m (x, y) ≤ c →
        q' = q ∧ ∀ p, cost_of m' p = cost_of m p))
  ∧ (∀ i m q j m' q' p,
       flood_at m0 i m q → flood_at m0 j m' q' → (i ≤ j)%nat →
       0 ≤ cost_of m p → cost_of m' p ≤ cost_of m p)
  ∧ ∃ mf, traverse_maze fuel m0 = Ok mf
      ∧ ∀ i m q p, flood_at m0 i m q →
          0 ≤ cost_of m p → cost_of mf p ≤ cost_of m p.
Proof.
  intros Hv Hfuel.
  destruct (traverse_maze_outcome m0 fuel Hv Hfuel)
    as (Hvf & m2 & q2 & ex & mf & Hflood & Hfl & _ & _ & Htr & Hsv).
  split_and!.
  - intros m q k x y c m' q' Hvisit.
    apply visit_cell_guard in Hvisit as (Hcases & _ & Hle).
    split; [done|]. intros Hc.
    destruct Hcases as [(_ & Hlt & _)|(-> & _ & Hsame)]; [lia | done].
  - intros i m q j m' q' p Hi Hj Hle Hp.
    rewrite (flood_at_cost m0 Hvf _ _ _ _ _ _ _ Hi Hj Hle Hp). lia.
  - exists mf. split; [done|]. intros i m q p Hi Hp.
    rewrite (sv_cost _ _ _ _ Hsv).
    (* the flooded maze is the last state of the flood *)
    assert (∃ j, flood_at m0 j m2 q2 ∧ q2 !! j = None) as (j & Hj & Hend).
    { unfold flood_maze in Hflood.
      apply bind_Ok in Hflood as (row0 & Hrow & Hflood).
      apply bind_Ok in Hflood as ([m1 q1] & Hentries & Hflood).
      unfold row_ptr in Hrow. case_decide; [|done]. injection Hrow as <-.
      apply (recursive_flood_at m0 fuel 0%nat m1 q1); [|done].
      by apply flood_at_start. }
    destruct (decide (i ≤ j)%nat) as [Hle|Hgt].
    + rewrite (flood_at_cost m0 Hvf _ _ _ _ _ _ _ Hi Hj Hle Hp). lia.
    + destruct (flood_at_before _ _ _ _ j Hi) as (mj & qj & node & Hj' & Hnode); [lia|].
      destruct (flood_at_fun _ _ _ _ _ _ Hj Hj') as [<- <-]. congruence.
Qed.

Lemma cost_is_never_raised_witness :
  valid_maze scenario_a ∧ (fuel_bound scenario_a ≤ 18)%nat
  ∧ ∃ mf, traverse_maze 18 scenario_a = Ok mf
      ∧ ∀ i m q p, flood_at scenario_a i m q →
          0 ≤ cost_of m p → cost_of mf p ≤ cost_of m p.
Proof.
  split; [reflexivity|]. split; [vm_compute; lia|].
  apply (cost_is_never_raised scenario_a 18); [reflexivity | vm_compute; lia].
Defined.

(** C7, as the code has it.  A flood steps into a neighbour only when the
    bounds check on the moving axis passes and the neighbour is Open; the
    reachable flag of such a neighbour is then set, whatever the cost check
    decides.  A Wall neighbour is left alone: the maze and the queue do not
    change.  After the traversal of a valid grid, every Open neighbour of a
    reached cell is reached and no Wall is. *)
Theorem floods_mark_open_neighbours_only (m0 : maze_t) (fuel : nat) :
  valid_maze m0 → (fuel_bound m0 ≤ fuel)%nat →
  (∀ m q k x y cost c,
     get_cell m (x, y) = Some c →
     (is_path c = true →
        (y < m_cols m →
           ∃ m' q', flood_right m q k x y cost = Ok (m', q')
                    ∧ reach_of m' (x, y) = TRUE)
        ∧ (x < m_rows m →
           ∃ m' q', flood_down m q k x y cost = Ok (m', q')
                    ∧ reach_of m' (x, y) = TRUE)
        ∧ (∃ m' q', flood_left m q k x y cost = Ok (m', q')
                    ∧ reach_of m' (x, y) = TRUE)
        ∧ (∃ m' q', flood_up m q k x y cost = Ok (m', q')
                    ∧ reach_of m' (x, y) = TRUE))
     ∧ (is_path c = false →
        flood_right m q k x y cost = Ok (m, q)
        ∧ flood_down m q k x y cost = Ok (m, q)
        ∧ flood_left m q k x y cost = Ok (m, q)
        ∧ flood_up m q k x y cost = Ok (m, q)))
  ∧ ∃ m', traverse_maze fuel m0 = Ok m'
      ∧ (∀ v w, reach_of m' v = TRUE → adjacent v w → open_at m0 w = true →
           reach_of m' w = TRUE)
      ∧ (∀ w, open_at m0 w = false → reach_of m' w = FALSE).
Proof.
  intros Hv Hfuel. split.
  - intros m q k x y cost c Hc.
    pose proof (get_cell_nonneg _ _ _ Hc) as [Hx Hy]. simpl in Hx, Hy.
    unfold flood_right, flood_down, flood_left, flood_up. fold (attempt m q k x y cost).
    split; intros Hp.
    + pose proof (attempt_open m q k x y cost c Hc Hp) as Hopen.
      split_and!.
      * intros Hlt. by replace (y <? m_cols m) with true by lia.
      * intros Hlt. by replace (x <? m_rows m) with true by lia.
      * by replace (y >=? NIL) with true by (unfold NIL; lia).
      * by replace (x >=? NIL) with true by (unfold NIL; lia).
    + rewrite (attempt_wall m q k x y cost c Hc Hp).
      split_and!;
        [by destruct (y <? m_cols m) | by destruct (x <? m_rows m)
        | by destruct (y >=? NIL) | by destruct (x >=? NIL)].
  - destruct (traverse_maze_outcome m0 fuel Hv Hfuel)
      as (Hvf & m2 & q2 & ex & m' & _ & Hfl & _ & _ & Htr & Hsv).
    pose proof (fl_inv _ _ _ Hfl) as Hinv.
    exists m'. split_and!; [done | |].
    + intros v w Hrv Hadj Ho. rewrite (sv_reach _ _ _ _ Hsv) in *.
      destruct (decide (v ∈ l_cell <$> q2)) as [Hin|Hnin].
      * in_queue Hin as kn n Hkn.
        apply lookup_lt_Some in Hkn as Hlt.
        destruct (inv_done _ _ _ _ Hinv _ _ _ Hlt Hkn Hadj Ho) as [Hw _].
        by apply (flooded_queued _ _ _ Hfl) in Hw as [_ ?].
      * apply (flooded_fresh _ _ _ Hfl) in Hnin as [_ Hr].
        rewrite Hr in Hrv. done.
    + intros w Ho. rewrite (sv_reach _ _ _ _ Hsv).
      destruct (decide (w ∈ l_cell <$> q2)) as [Hin|Hnin].
      * in_queue Hin as kn n Hkn.
        pose proof (inv_node _ _ _ _ Hinv _ _ Hkn) as [Ho' _]. congruence.
      * by apply (flooded_fresh _ _ _ Hfl) in Hnin as [_ Hr].
Qed.

Lemma floods_mark_open_neighbours_only_witness :
  valid_maze scenario_a ∧ (fuel_bound scenario_a ≤ 18)%nat
  ∧ ∃ m', traverse_maze 18 scenario_a = Ok m'
      ∧ (∀ v w, reach_of m' v = TRUE → adjacent v w →
           open_at scenario_a w = true → reach_of m' w = TRUE)
      ∧ (∀ w, open_at scenario_a w = false → reach_of m' w = FALSE).
Proof.
  split; [reflexivity|]. split; [vm_compute; lia|].
  apply (floods_mark_open_neighbours_only scenario_a 18);
    [reflexivity | vm_compute; lia].
Defined.

(** C7, as the specification words it, fails.  In scenario A the entrance
    [(0, 0)] is Open and is the first node expanded; its right neighbour
    [(0, 1)] is inside the grid and is a Wall.  The expansion leaves the
    reachable flag of [(0, 1)] false, and so does the whole traversal. *)
Lemma wall_neighbour_is_not_marked :
  ∃ m1 q1 node m2 q2 mf,
    find_entries scenario_a (0, 0) [] (m_cols scenario_a) = Ok (m1, q1)
    ∧ q1 !! 0%nat = Some node
    ∧ l_cell node = (0, 0)
    ∧ open_at scenario_a (0, 0) = true
    ∧ adjacent (0, 0) (0, 1)
    ∧ in_grid scenario_a (0, 1)
    ∧ open_at scenario_a (0, 1) = false
    ∧ expand m1 q1 0 node = Ok (m2, q2)
    ∧ reach_of m2 (0, 1) = FALSE
    ∧ traverse_maze 18 scenario_a = Ok mf
    ∧ reach_of mf (0, 0) = TRUE
    ∧ reach_of mf (0, 1) = FALSE.
Proof.
  eexists _, _, _, _, _, _.
  split; [vm_compute; reflexivity|].
  split; [reflexivity|].
  split; [reflexivity|].
  split; [reflexivity|].
  split; [left; simpl; lia|].
  split; [unfold in_grid; simpl; lia|].
  split; [reflexivity|].
  split; [vm_compute; reflexivity|].
  split; [reflexivity|].
  split; [vm_compute; reflexivity|].
  split; reflexivity.
Qed.

(** C8. On a valid grid, a call of [recursive_flood] on a node whose cell is
    [(r, c)] calls the four floods at [(r, c+1)], [(r+1, c)], [(r, c-1)] and
    [(r-1, c)], in that order, and then goes on with the next node.  Each
    flood checks the bound on the axis it moves along, and nothing else,
    before it reads its cell.  These checks are enough: the cells that pass
    are inside the grid and are in memory, the four floods succeed and leave
    a maze and a queue on which the same holds, and the queue of entrances
    starts the flood in such a state.  Hence [recursive_flood] never makes an
    access outside the grid, whatever the fuel, and with enough fuel the flood
    ends normally. *)
Theorem floods_stay_in_bounds (m0 : maze_t) (fuel : nat) :
  valid_maze m0 →
  (∀ m q k x y cost,
     flood_right m q k x y cost
       = (if y <? m_cols m then attempt m q k x y cost else Ok (m, q))
     ∧ flood_down m q k x y cost
       = (if x <? m_rows m then attempt m q k x y cost else Ok (m, q))
     ∧ flood_left m q k x y cost
       = (if y >=? 0 then attempt m q k x y cost else Ok (m, q))
     ∧ flood_up m q k x y cost
       = (if x >=? 0 then attempt m q k x y cost else Ok (m, q)))
  ∧ (∃ m1 q1,
       find_entries m0 (0, 0) [] (m_cols m0) = Ok (m1, q1)
       ∧ same_static m0 m1
       ∧ Forall (λ n, in_grid m0 (l_cell n)) q1
       ∧ flood_maze fuel m0 = recursive_flood fuel m1 q1 0)
  ∧ (∀ fuel' m q i node,
       same_static m0 m → Forall (λ n, in_grid m0 (l_cell n)) q →
       q !! i = Some node →
       let r := (l_cell node).1 in
       let cl := (l_cell node).2 in
       ∃ c, get_cell m (l_cell node) = Some c ∧ c_x c = r ∧ c_y c = cl ∧
         let cost := int_add (c_cost c) 1 in
         recursive_flood (S fuel') m q i =
           (let* '(m1, q1) := flood_right m q i r (cl + 1) cost in
            let* '(m2, q2) := flood_down m1 q1 i (r + 1) cl cost in
            let* '(m3, q3) := flood_left m2 q2 i r (cl - 1) cost in
            let* '(m4, q4) := flood_up m3 q3 i (r - 1) cl cost in
            recursive_flood fuel' m4 q4 (S i))
         ∧ (let* '(m1, q1) := flood_right m q i r (cl + 1) cost in
            let* '(m2, q2) := flood_down m1 q1 i (r + 1) cl cost in
            let* '(m3, q3) := flood_left m2 q2 i r (cl - 1) cost in
            flood_up m3 q3 i (r - 1) cl cost)
           = attempts m q i (guarded_neighbours m r cl) cost
         ∧ guarded_neighbours m r cl =
             (if cl + 1 <? m_cols m0 then [(r, cl + 1)] else [])
             ++ (if r + 1 <? m_rows m0 then [(r + 1, cl)] else [])
             ++ (if cl - 1 >=? 0 then [(r, cl - 1)] else [])
             ++ (if r - 1 >=? 0 then [(r - 1, cl)] else [])
         ∧ (∀ w, w ∈ guarded_neighbours m r cl →
              in_grid m0 w ∧ is_Some (get_cell m w))
         ∧ ∃ m' q',
             attempts m q i (guarded_neighbours m r cl) cost = Ok (m', q')
             ∧ same_static m0 m'
             ∧ Forall (λ n, in_grid m0 (l_cell n)) q'
             ∧ recursive_flood (S fuel') m q i = recursive_flood fuel' m' q' (S i))
  ∧ (∀ fuel' m q i,
       same_static m0 m → Forall (λ n, in_grid m0 (l_cell n)) q →
       recursive_flood fuel' m q i ≠ OutOfBounds)
  ∧ flood_maze fuel m0 ≠ OutOfBounds
  ∧ ((fuel_bound m0 ≤ fuel)%nat → ∃ m' q', flood_maze fuel m0 = Ok (m', q')).
Proof.
  intros Hv. apply valid_maze_facts in Hv as Hvf.
  pose proof (vf_rows _ Hvf) as Hrows. pose proof (vf_cols _ Hvf) as Hcols.
  pose proof (vf_len _ Hvf) as Hlen. unfold MAX_ROWS, MAX_COLS in *.
  assert (Hinit : ∃ m1 q1,
    find_entries m0 (0, 0) [] (m_cols m0) = Ok (m1, q1) ∧ inv m0 m1 q1 0).
  { unfold find_entries. replace (m_cols m0 <? 0) with false by lia.
    destruct (find_entries_walk_spec m0 Hvf (Z.to_nat (m_cols m0)) m0 [] 0
                (inv_init m0 Hvf))
      as (m1 & q1 & E & Hinv1 & _ & _); [by intros [|] | lia | lia | lia |].
    by exists m1, q1. }
  destruct Hinit as (m1 & q1 & Hent & Hinv1).
  assert (Hflood : flood_maze fuel m0 = recursive_flood fuel m1 q1 0).
  { unfold flood_maze, row_ptr. rewrite decide_True by lia. cbn [bind].
    by rewrite Hent. }
  assert (Hq1 : Forall (λ n, in_grid m0 (l_cell n)) q1).
  { apply Forall_lookup. intros k n Hk.
    apply (open_in_grid m0 Hvf). by apply (inv_node _ _ _ _ Hinv1 k). }
  split; [|split; [|split; [|split; [|split]]]].
  - intros m q k x y cost. unfold flood_right, flood_down, flood_left, flood_up,
      attempt, NIL. done.
  - exists m1, q1. split; [done|]. split; [by apply (inv_static _ _ _ _ Hinv1)|]. done.
  - intros fuel' m q i node Hss Hq Hi. cbv zeta.
    set (r := (l_cell node).1). set (cl := (l_cell node).2).
    pose proof (lookup_lt_Some _ _ _ Hi) as Hk.
    pose proof (proj1 (Forall_lookup _ _) Hq _ _ Hi) as Hgrid. cbn beta in Hgrid.
    destruct (static_get m0 Hvf m _ Hss Hgrid) as (c & Hc & Hx & Hy & _).
    pose proof Hgrid as [Hg1 Hg2]. fold r in Hx, Hg1. fold cl in Hy, Hg2.
    exists c. split; [done|]. split; [done|]. split; [done|].
    assert (Hws : ∀ w, w ∈ guarded_neighbours m r cl → in_grid m0 w).
    { intros w Hw. rewrite (guarded_neighbours_static m0) in Hw by done.
      apply (guarded_neighbours_in_grid m0 r cl); [|done].
      unfold r, cl. by rewrite <- surjective_pairing. }
    destruct (attempts_safe m0 i (int_add (c_cost c) 1)
                (guarded_neighbours m r cl) m q Hvf Hss)
      as (m' & q' & E & Hss' & _ & Hq'); [by apply Forall_forall|done|done|].
    assert (Hstep : recursive_flood (S fuel') m q i =
      (let* '(m1, q1) := flood_right m q i r (cl + 1) (int_add (c_cost c) 1) in
       let* '(m2, q2) := flood_down m1 q1 i (r + 1) cl (int_add (c_cost c) 1) in
       let* '(m3, q3) := flood_left m2 q2 i r (cl - 1) (int_add (c_cost c) 1) in
       let* '(m4, q4) := flood_up m3 q3 i (r - 1) cl (int_add (c_cost c) 1) in
       recursive_flood fuel' m4 q4 (S i))).
    { apply (recursive_flood_floods fuel' m q i node c); [done..|lia|lia]. }
    split; [done|]. split; [apply four_floods_attempts; lia|].
    split; [by apply guarded_neighbours_static|].
    split.
    { intros w Hw. split; [by apply Hws|].
      destruct (static_get m0 Hvf m w Hss (Hws w Hw)) as (cw & Hcw & _).
      by exists cw. }
    exists m', q'. split; [done|]. split; [done|]. split; [done|].
    rewrite recursive_flood_unfold, Hi.
    rewrite (expand_attempts _ _ _ _ _ Hc) by lia.
    rewrite Hx, Hy, E. done.
  - intros fuel' m q i Hss Hq. by apply (recursive_flood_safe m0).
  - rewrite Hflood. by apply (recursive_flood_in_bounds m0).
  - intros Hfuel.
    destruct (traverse_maze_outcome m0 fuel Hv Hfuel)
      as (_ & m2 & q2 & _ & _ & Hfl & _).
    by exists m2, q2.
Qed.

Lemma floods_stay_in_bounds_witness :
  valid_maze scenario_a ∧ (fuel_bound scenario_a ≤ 18)%nat
  ∧ (∃ m1 q1,
       find_entries scenario_a (0, 0) [] (m_cols scenario_a) = Ok (m1, q1)
       ∧ same_static scenario_a m1
       ∧ Forall (λ n, in_grid scenario_a (l_cell n)) q1
       ∧ flood_maze 18 scenario_a = recursive_flood 18 m1 q1 0)
  ∧ (∀ fuel' m q i,
       same_static scenario_a m → Forall (λ n, in_grid scenario_a (l_cell n)) q →
       recursive_flood fuel' m q i ≠ OutOfBounds)
  ∧ flood_maze 18 scenario_a ≠ OutOfBounds
  ∧ ((fuel_bound scenario_a ≤ 18)%nat →
     ∃ m' q', flood_maze 18 scenario_a = Ok (m', q')).
Proof.
  split; [reflexivity|]. split; [vm_compute; lia|].
  destruct (floods_stay_in_bounds scenario_a 18) as (_ & H1 & _ & H2 & H3 & H4);
    [reflexivity|].
  split; [exact H1|]. split; [exact H2|]. split; [exact H3|exact H4].
Defined.

(** C9. After the traversal of a valid grid, the reachable flag of a grid
    cell is set exactly when its cost is present, that is non-negative. *)
Theorem reachable_iff_cost_present (m : maze_t) (fuel : nat) :
  valid_maze m → (fuel_bound m ≤ fuel)%nat →
  ∃ m', traverse_maze fuel m = Ok m'
    ∧ ∀ p, in_grid m p →
        (reach_of m' p ≠ FALSE ↔ 0 ≤ cost_of m' p)
        ∧ (reach_of m' p = TRUE ∨ reach_of m' p = FALSE)
        ∧ (0 ≤ cost_of m' p ∨ cost_of m' p = NOTVISIT).
Proof.
  intros Hv Hfuel.
  destruct (traverse_maze_outcome m fuel Hv Hfuel)
    as (Hvf & m2 & q2 & ex & m' & _ & Hfl & _ & _ & Htr & Hsv).
  exists m'. split; [done|]. intros p _.
  rewrite (sv_reach _ _ _ _ Hsv), (sv_cost _ _ _ _ Hsv).
  destruct (decide (p ∈ l_cell <$> q2)) as [Hin|Hnin].
  - destruct (flooded_queued _ _ _ Hfl _ Hin) as [Hc ->]. unfold TRUE, FALSE.
    split_and!; [split; [done | lia] | by left | by left].
  - destruct (flooded_fresh _ _ _ Hfl _ Hnin) as [-> ->]. unfold NOTVISIT, FALSE.
    split_and!; [split; [done | lia] | by right | by right].
Qed.

Lemma reachable_iff_cost_present_witness :
  valid_maze scenario_a ∧ (fuel_bound scenario_a ≤ 18)%nat
  ∧ ∃ m', traverse_maze 18 scenario_a = Ok m'
      ∧ ∀ p, in_grid scenario_a p →
          (reach_of m' p ≠ FALSE ↔ 0 ≤ cost_of m' p)
          ∧ (reach_of m' p = TRUE ∨ reach_of m' p = FALSE)
          ∧ (0 ≤ cost_of m' p ∨ cost_of m' p = NOTVISIT).
Proof.
  split; [reflexivity|]. split; [vm_compute; lia|].
  apply (reachable_iff_cost_present scenario_a 18); [reflexivity | vm_compute; lia].
Defined.

(** C10. On a valid grid whose first row has no Open cell the traversal
    returns the maze as it received it, whatever the fuel: the queue stays
    empty, no cell is marked reachable, no cost is set, [soln] stays false
    and the cost of the maze is not assigned. *)
Theorem closed_top_leaves_maze_untouched (m : maze_t) (fuel : nat) :
  valid_maze m → closed_top m = true →
  flood_maze fuel m = Ok (m, [])
  ∧ traverse_maze fuel m = Ok m
  ∧ m_soln m = FALSE
  ∧ ∀ p, reach_of m p = FALSE ∧ cost_of m p = NOTVISIT.
Proof.
  intros Hv Hclosed. apply valid_maze_facts in Hv as Hvf.
  pose proof (vf_rows _ Hvf) as Hrows. pose proof (vf_cols _ Hvf) as Hcols.
  pose proof (vf_len _ Hvf) as Hlen. unfold MAX_ROWS, MAX_COLS in *.
  assert (Hflood : flood_maze fuel m = Ok (m, [])).
  { unfold flood_maze, row_ptr. rewrite decide_True by lia. cbn [bind].
    unfold find_entries. replace (m_cols m <? 0) with false by lia.
    rewrite find_entries_walk_closed; [by destruct fuel|].
    intros y Hy. destruct (vf_grid _ Hvf (0, y)) as [c Hc];
      [unfold in_grid; simpl; lia|].
    exists c. split; [done | by eapply closed_top_get]. }
  split_and!; [done | | apply Hvf |].
  - unfold traverse_maze. rewrite Hflood. cbn [bind].
    unfold select_exit. rewrite int_sub_small by lia.
    unfold find_exit. replace (m_cols m <? 0) with false by lia.
    rewrite find_exit_walk_none; [done|].
    intros y Hy. destruct (vf_grid _ Hvf (m_rows m - 1, y)) as [c Hc];
      [unfold in_grid; simpl; lia|].
    exists c. split; [done|]. apply (vf_cell _ Hvf) in Hc. tauto.
  - intros p. pose proof (fresh_observations m Hvf p). tauto.
Qed.

Lemma closed_top_leaves_maze_untouched_witness :
  valid_maze walled_in ∧ closed_top walled_in = true
  ∧ flood_maze 0 walled_in = Ok (walled_in, [])
  ∧ traverse_maze 0 walled_in = Ok walled_in
  ∧ m_soln walled_in = FALSE
  ∧ ∀ p, reach_of walled_in p = FALSE ∧ cost_of walled_in p = NOTVISIT.
Proof.
  split; [reflexivity|]. split; [reflexivity|].
  apply (closed_top_leaves_maze_untouched walled_in 0); reflexivity.
Defined.

(** * Further properties of the traversal *)

(** ** The list *)

(** X1. Called on any node of a list, [append] adds exactly one node, behind
    the last one, with the cell and the parent it was given; the nodes that
    were there keep their place. *)
Theorem append_adds_one_node_at_the_end (q : queue_t) (k : nat)
    (parent : option nat) (cell : cell_ptr) :
  (k < length q)%nat →
  append_at q k parent cell = q ++ [Node cell parent]
  ∧ length (append_at q k parent cell) = S (length q)
  ∧ last (append_at q k parent cell) = Some (Node cell parent)
  ∧ ∀ j n, q !! j = Some n → append_at q k parent cell !! j = Some n.
Proof.
  intros Hk. rewrite (append_at_snoc _ _ _ _ Hk).
  split_and!; [done | rewrite length_app; simpl; lia | apply last_snoc |].
  intros j n Hj. by apply lookup_app_l_Some.
Qed.

Lemma append_adds_one_node_at_the_end_witness :
  (0 < length [Node (0, 0)%Z None; Node (0, 2)%Z None])%nat
  ∧ append_at [Node (0, 0) None; Node (0, 2) None] 0 (Some 0%nat) (1, 0)
    = [Node (0, 0) None; Node (0, 2) None] ++ [Node (1, 0) (Some 0%nat)].
Proof.
  split; [simpl; lia|].
  apply (append_adds_one_node_at_the_end
           [Node (0, 0) None; Node (0, 2) None] 0 (Some 0%nat) (1, 0)).
  simpl; lia.
Defined.

(** ** The entrances *)

Lemma find_entries_walk_queue m0 lim : ∀ m q j,
  0 ≤ j →
  (∀ y, j ≤ y < j + Z.of_nat lim →
     is_Some (get_cell m0 (0, y)) ∧ get_cell m (0, y) = get_cell m0 (0, y)) →
  ∃ m',
    find_entries_walk lim m (0, j) q
    = Ok (m', q ++ ((λ y, Node (0, y) None)
                      <$> filter (λ y, open_at m0 (0, y) = true)
                                 (seqZ j (Z.of_nat lim))))
    ∧ (m_rows m' = m_rows m ∧ m_cols m' = m_cols m
       ∧ m_cost m' = m_cost m ∧ m_soln m' = m_soln m)
    ∧ ∀ p, get_cell m' p =
        if decide (p.1 = 0 ∧ j ≤ p.2 < j + Z.of_nat lim ∧ open_at m0 p = true)
        then (λ c, with_cost FALSE (with_reach TRUE c)) <$> get_cell m p
        else get_cell m p.
Proof.
  induction lim as [|lim IH]; intros m q j Hj Hrow.
  - exists m. cbn [find_entries_walk]. rewrite seqZ_nil by lia.
    rewrite filter_nil, fmap_nil, app_nil_r. split_and!; try done.
    intros p. rewrite decide_False; [done | lia].
  - destruct (Hrow j) as [[c Hc0] Hc]; [lia|]. rewrite Hc0 in Hc.
    cbn [find_entries_walk fst snd]. unfold load. rewrite Hc. cbn [bind].
    rewrite seqZ_cons by lia.
    replace (Z.pred (Z.of_nat (S lim))) with (Z.of_nat lim) by lia.
    replace (Z.succ j) with (j + 1) by lia.
    assert (Ho : open_at m0 (0, j) = is_path c) by (unfold open_at; by rewrite Hc0).
    destruct (is_path c) eqn:Hpath.
    + unfold store. rewrite Hc. cbn [bind].
      rewrite (get_put_eq _ _ _ _ Hc). cbn [bind].
      rewrite (put_put _ _ _ _ _ Hc), enqueue_root.
      pose proof (put_cell_fields m (0, j) (with_cost FALSE (with_reach TRUE c)))
        as (Hp1 & Hp2 & Hp3 & Hp4 & _).
      set (m1 := put_cell m (0, j) _) in *.
      destruct (IH m1 (q ++ [Node (0, j) None]) (j + 1)) as (m' & E & Hf & Hcells);
        [lia | |].
      { intros y Hy. destruct (Hrow y) as [? ?]; [lia|]. split; [done|].
        unfold m1. rewrite (get_put_ne _ _ _ _ _ Hc); [done|]. intros [=]. lia. }
      exists m'. rewrite E, filter_cons_True, fmap_cons, <- app_assoc by done.
      split_and!; [done | | | | |].
      1-4: destruct Hf as (? & ? & ? & ?); congruence.
      intros p. rewrite Hcells. unfold m1. rewrite (get_put _ _ _ _ _ Hc).
      destruct (decide ((0, j) = p)) as [<-|Hne].
      * rewrite decide_False by (simpl; lia).
        rewrite decide_True by (simpl; split_and!; try done; lia).
        by rewrite Hc.
      * assert (¬ (p.1 = 0 ∧ p.2 = j)) by (intros [? ?]; destruct Hne, p; simpl in *; congruence).
        destruct (decide (p.1 = 0 ∧ j + 1 ≤ p.2 < j + 1 + Z.of_nat lim
                          ∧ open_at m0 p = true)).
        -- rewrite decide_True; [done | lia].
        -- rewrite decide_False; [done | lia].
    + destruct (IH m q (j + 1)) as (m' & E & Hf & Hcells); [lia | |].
      { intros y Hy. apply Hrow. lia. }
      cbn [bind].
      exists m'. rewrite E, filter_cons_False by (rewrite Ho; done).
      split_and!; [done | apply Hf.. |].
      intros p. rewrite Hcells.
      destruct (decide (p.1 = 0 ∧ j + 1 ≤ p.2 < j + 1 + Z.of_nat lim
                        ∧ open_at m0 p = true)).
      * rewrite decide_True; [done | lia].
      * rewrite decide_False; [done|]. intros (Hp1 & Hp2 & Hp3).
        destruct (decide (p.2 = j)) as [Heq|]; [|lia].
        replace p with (0, j) in Hp3 by (destruct p; simpl in *; congruence).
        congruence.
Qed.

(** X2. On a valid grid [find_entries] returns the root nodes of the Open
    cells of row 0 in column order, gives these cells the cost 0 and the
    reachable flag, and changes nothing else in the maze. *)
Theorem find_entries_queues_the_entrances (m : maze_t) :
  valid_maze m →
  ∃ m',
    find_entries m (0, 0) [] (m_cols m) = Ok (m', entrance_nodes m)
    ∧ (m_rows m' = m_rows m ∧ m_cols m' = m_cols m
       ∧ m_cost m' = m_cost m ∧ m_soln m' = m_soln m)
    ∧ ∀ p, get_cell m' p =
        if decide (entrance m p)
        then (λ c, with_cost FALSE (with_reach TRUE c)) <$> get_cell m p
        else get_cell m p.
Proof.
  intros Hv. apply valid_maze_facts in Hv as Hvf.
  pose proof (vf_rows _ Hvf) as Hrows. pose proof (vf_cols _ Hvf) as Hcols.
  unfold find_entries. replace (m_cols m <? 0) with false by lia.
  destruct (find_entries_walk_queue m (Z.to_nat (m_cols m)) m [] 0)
    as (m' & E & Hf & Hcells); [lia | |].
  { intros y Hy. split; [|done]. apply (vf_grid _ Hvf). unfold in_grid. simpl. lia. }
  exists m'. rewrite E. unfold entrance_nodes.
  replace (Z.of_nat (Z.to_nat (m_cols m))) with (m_cols m) by lia.
  split_and!; [done | apply Hf.. |].
  intros p. rewrite Hcells.
  destruct (decide (entrance m p)) as [[He1 He2]|Hne].
  - rewrite decide_True; [done|].
    apply (open_in_grid _ Hvf) in He2 as Hg. unfold in_grid in Hg. lia.
  - rewrite decide_False; [done|]. unfold entrance in Hne. tauto.
Qed.

Lemma find_entries_queues_the_entrances_witness :
  valid_maze scenario_a
  ∧ ∃ m',
      find_entries scenario_a (0, 0) [] (m_cols scenario_a)
      = Ok (m', entrance_nodes scenario_a)
      ∧ (m_rows m' = m_rows scenario_a ∧ m_cols m' = m_cols scenario_a
         ∧ m_cost m' = m_cost scenario_a ∧ m_soln m' = m_soln scenario_a)
      ∧ ∀ p, get_cell m' p =
          if decide (entrance scenario_a p)
          then (λ c, with_cost FALSE (with_reach TRUE c)) <$> get_cell scenario_a p
          else get_cell scenario_a p.
Proof.
  split; [reflexivity|].
  apply (find_entries_queues_the_entrances scenario_a). reflexivity.
Defined.

Example scenario_a_entrances :
  entrance_nodes scenario_a = [Node (0, 0) None; Node (0, 2) None].
Proof. reflexivity. Qed.

(** ** The queue after the flood *)

(** X3. On a valid grid the queue the flood leaves is in breadth-first
    order: along the queue the costs of the cells never decrease, a node
    without parent holds an entrance of cost 0, and the parent of any other
    node stands before it and holds an adjacent cell that costs one less. *)
Theorem queue_is_in_breadth_first_order (m : maze_t) (fuel : nat) :
  valid_maze m → (fuel_bound m ≤ fuel)%nat →
  ∃ m2 q2,
    flood_maze fuel m = Ok (m2, q2)
    ∧ (∀ k l nk nl, (k ≤ l)%nat → q2 !! k = Some nk → q2 !! l = Some nl →
         cost_of m2 (l_cell nk) ≤ cost_of m2 (l_cell nl))
    ∧ ∀ k n, q2 !! k = Some n →
        match l_parent n with
        | None => entrance m (l_cell n) ∧ cost_of m2 (l_cell n) = 0
        | Some p =>
            (p < k)%nat
            ∧ ∃ pn, q2 !! p = Some pn ∧ adjacent (l_cell pn) (l_cell n)
                    ∧ cost_of m2 (l_cell n) = cost_of m2 (l_cell pn) + 1
        end.
Proof.
  intros Hv Hfuel.
  destruct (traverse_maze_outcome m fuel Hv Hfuel)
    as (Hvf & m2 & q2 & _ & _ & Hflood & Hfl & _).
  pose proof (fl_inv _ _ _ Hfl) as Hinv.
  exists m2, q2. split_and!; [done | apply Hinv |].
  intros k n Hk. pose proof (inv_parent _ _ _ _ Hinv _ _ Hk) as Hpar.
  unfold parent_ok in Hpar. destruct (l_parent n); [done|].
  destruct Hpar as [Hrow Hcost]. split; [|done]. split; [done|].
  by apply (inv_node _ _ _ _ Hinv) in Hk as [? _].
Qed.

Lemma queue_is_in_breadth_first_order_witness :
  valid_maze scenario_a ∧ (fuel_bound scenario_a ≤ 18)%nat
  ∧ ∃ m2 q2,
      flood_maze 18 scenario_a = Ok (m2, q2)
      ∧ (∀ k l nk nl, (k ≤ l)%nat → q2 !! k = Some nk → q2 !! l = Some nl →
           cost_of m2 (l_cell nk) ≤ cost_of m2 (l_cell nl))
      ∧ ∀ k n, q2 !! k = Some n →
          match l_parent n with
          | None => entrance scenario_a (l_cell n) ∧ cost_of m2 (l_cell n) = 0
          | Some p =>
              (p < k)%nat
              ∧ ∃ pn, q2 !! p = Some pn ∧ adjacent (l_cell pn) (l_cell n)
                      ∧ cost_of m2 (l_cell n) = cost_of m2 (l_cell pn) + 1
          end.
Proof.
  split; [reflexivity|]. split; [vm_compute; lia|].
  apply (queue_is_in_breadth_first_order scenario_a 18);
    [reflexivity | vm_compute; lia].
Defined.

(** X4. On a valid grid the queue the flood leaves holds the cells that a
    walk over Open cells joins to an entrance, each of them once, and no
    other cell. *)
Theorem queue_holds_each_reachable_cell_once (m : maze_t) (fuel : nat) :
  valid_maze m → (fuel_bound m ≤ fuel)%nat →
  ∃ m2 q2,
    flood_maze fuel m = Ok (m2, q2)
    ∧ NoDup (l_cell <$> q2)
    ∧ ∀ p, p ∈ l_cell <$> q2 ↔ connected m p.
Proof.
  intros Hv Hfuel.
  destruct (traverse_maze_outcome m fuel Hv Hfuel)
    as (Hvf & m2 & q2 & _ & _ & Hflood & Hfl & _).
  exists m2, q2.
  split_and!; [done | apply (inv_nodup _ _ _ _ (fl_inv _ _ _ Hfl)) |].
  intros p. symmetry. apply (flooded_connected _ _ _ Hfl).
Qed.

Lemma queue_holds_each_reachable_cell_once_witness :
  valid_maze scenario_a ∧ (fuel_bound scenario_a ≤ 18)%nat
  ∧ ∃ m2 q2,
      flood_maze 18 scenario_a = Ok (m2, q2)
      ∧ NoDup (l_cell <$> q2)
      ∧ ∀ p, p ∈ l_cell <$> q2 ↔ connected scenario_a p.
Proof.
  split; [reflexivity|]. split; [vm_compute; lia|].
  apply (queue_holds_each_reachable_cell_once scenario_a 18);
    [reflexivity | vm_compute; lia].
Defined.

(** ** The maze after the traversal *)

(** X5. The traversal of a valid grid changes neither the dimensions of the
    maze nor the coordinates and the type of any cell. *)
Theorem traversal_keeps_the_grid (m : maze_t) (fuel : nat) :
  valid_maze m → (fuel_bound m ≤ fuel)%nat →
  ∃ m', traverse_maze fuel m = Ok m'
    ∧ m_rows m' = m_rows m ∧ m_cols m' = m_cols m
    ∧ length (m_cells m') = length (m_cells m)
    ∧ ∀ p c, get_cell m p = Some c →
        ∃ c', get_cell m' p = Some c'
              ∧ c_x c' = c_x c ∧ c_y c' = c_y c ∧ c_type c' = c_type c.
Proof.
  intros Hv Hfuel.
  destruct (traverse_maze_outcome m fuel Hv Hfuel)
    as (Hvf & m2 & q2 & ex & m' & _ & _ & _ & _ & Htr & Hsv).
  pose proof (sv_static _ _ _ _ Hsv) as Hss.
  exists m'. split_and!; [done | apply Hss.. |].
  intros p c Hc. destruct (same_static_get _ _ _ _ Hss Hc) as (c' & Hc' & Hs).
  exists c'. unfold static in Hs. injection Hs as ? ? ?. done.
Qed.

Lemma traversal_keeps_the_grid_witness :
  valid_maze scenario_a ∧ (fuel_bound scenario_a ≤ 18)%nat
  ∧ ∃ m', traverse_maze 18 scenario_a = Ok m'
      ∧ m_rows m' = m_rows scenario_a ∧ m_cols m' = m_cols scenario_a
      ∧ length (m_cells m') = length (m_cells scenario_a)
      ∧ ∀ p c, get_cell scenario_a p = Some c →
          ∃ c', get_cell m' p = Some c'
                ∧ c_x c' = c_x c ∧ c_y c' = c_y c ∧ c_type c' = c_type c.
Proof.
  split; [reflexivity|]. split; [vm_compute; lia|].
  apply (traversal_keeps_the_grid scenario_a 18); [reflexivity | vm_compute; lia].
Defined.

(** X6. On a valid grid every cost the traversal stores, in a cell or in
    the maze, stays below the number of cells of the grid, hence below
    10000: the [int] additions of the traversal never overflow. *)
Theorem costs_stay_below_the_grid_size (m : maze_t) (fuel : nat) :
  valid_maze m → (fuel_bound m ≤ fuel)%nat →
  ∃ m', traverse_maze fuel m = Ok m'
    ∧ m_rows m * m_cols m ≤ 10000
    ∧ (∀ p, -1 ≤ cost_of m' p < m_rows m * m_cols m)
    ∧ (m_soln m' = TRUE → 0 ≤ m_cost m' < m_rows m * m_cols m).
Proof.
  intros Hv Hfuel.
  destruct (traverse_maze_outcome m fuel Hv Hfuel)
    as (Hvf & m2 & q2 & ex & m' & _ & Hfl & _ & Hex & Htr & Hsv).
  pose proof (fl_inv _ _ _ Hfl) as Hinv.
  pose proof (vf_rows _ Hvf) as Hrows. pose proof (vf_cols _ Hvf) as Hcols.
  assert (Hcost : ∀ p, -1 ≤ cost_of m2 p < m_rows m * m_cols m).
  { intros p. destruct (decide (p ∈ l_cell <$> q2)) as [Hin|Hnin].
    - in_queue Hin as k n Hk.
      pose proof (inv_length m Hvf _ _ _ Hinv). apply lookup_lt_Some in Hk as Hlt.
      apply (inv_node _ _ _ _ Hinv) in Hk as (_ & ? & _). lia.
    - apply (flooded_fresh _ _ _ Hfl) in Hnin as [-> _]. unfold NOTVISIT. nia. }
  exists m'. split_and!; [done | by apply grid_size | |].
  - intros p. rewrite (sv_cost _ _ _ _ Hsv). apply Hcost.
  - intros Hs. destruct ex as [e|].
    + destruct (sv_exit _ _ _ _ Hsv) as (_ & -> & _).
      destruct Hex as (_ & _ & Hc & _).
      destruct (inv_candidate _ _ _ _ _ Hinv Hc) as (_ & _ & _ & _ & ?).
      specialize (Hcost e). lia.
    + pose proof (sv_exit _ _ _ _ Hsv) as Heq. simpl in Heq. subst m'.
      destruct (inv_maze _ _ _ _ Hinv) as [Hs' _].
      rewrite Hs', (vf_soln _ Hvf) in Hs. done.
Qed.

Lemma costs_stay_below_the_grid_size_witness :
  valid_maze scenario_a ∧ (fuel_bound scenario_a ≤ 18)%nat
  ∧ ∃ m', traverse_maze 18 scenario_a = Ok m'
      ∧ m_rows scenario_a * m_cols scenario_a ≤ 10000
      ∧ (∀ p, -1 ≤ cost_of m' p < m_rows scenario_a * m_cols scenario_a)
      ∧ (m_soln m' = TRUE →
         0 ≤ m_cost m' < m_rows scenario_a * m_cols scenario_a).
Proof.
  split; [reflexivity|]. split; [vm_compute; lia|].
  apply (costs_stay_below_the_grid_size scenario_a 18);
    [reflexivity | vm_compute; lia].
Defined.

Lemma open_path_row m l p : open_path m l p → p.1 + 1 ≤ Z.of_nat (length l).
Proof.
  induction 1 as [e [He _]|l p p' Hl IH Hadj Ho].
  - simpl. lia.
  - rewrite length_app. simpl. unfold adjacent in Hadj. lia.
Qed.

(** X7. On a valid grid the cost of a reached cell is at least its row
    index, and the cost of a solution is at least the number of rows minus
    one: a walk goes down one row at a time. *)
Theorem cost_is_at_least_the_row (m : maze_t) (fuel : nat) :
  valid_maze m → (fuel_bound m ≤ fuel)%nat →
  ∃ m', traverse_maze fuel m = Ok m'
    ∧ (∀ p, 0 ≤ cost_of m' p → p.1 ≤ cost_of m' p)
    ∧ (m_soln m' = TRUE → m_rows m - 1 ≤ m_cost m').
Proof.
  intros Hv Hfuel.
  destruct (traverse_maze_outcome m fuel Hv Hfuel)
    as (Hvf & m2 & q2 & ex & m' & _ & Hfl & _ & Hex & Htr & Hsv).
  pose proof (fl_inv _ _ _ Hfl) as Hinv.
  assert (Hrow : ∀ p, 0 ≤ cost_of m2 p → p.1 ≤ cost_of m2 p).
  { intros p Hp. destruct (decide (p ∈ l_cell <$> q2)) as [Hin|Hnin].
    - destruct (flooded_walk _ _ _ Hfl _ Hin) as (l & Hl & Hlen).
      apply open_path_row in Hl. lia.
    - apply (flooded_fresh _ _ _ Hfl) in Hnin as [Hc _]. unfold NOTVISIT in Hc. lia. }
  exists m'. split_and!; [done | |].
  - intros p. rewrite (sv_cost _ _ _ _ Hsv). apply Hrow.
  - intros Hs. destruct ex as [e|].
    + destruct (sv_exit _ _ _ _ Hsv) as (_ & -> & _).
      destruct Hex as (He1 & _ & Hc & _).
      destruct (inv_candidate _ _ _ _ _ Hinv Hc) as (_ & _ & _ & _ & ?).
      pose proof (ss_rows _ _ (inv_static _ _ _ _ Hinv)).
      specialize (Hrow e). lia.
    + pose proof (sv_exit _ _ _ _ Hsv) as Heq. simpl in Heq. subst m'.
      destruct (inv_maze _ _ _ _ Hinv) as [Hs' _].
      rewrite Hs', (vf_soln _ Hvf) in Hs. done.
Qed.

Lemma cost_is_at_least_the_row_witness :
  valid_maze scenario_a ∧ (fuel_bound scenario_a ≤ 18)%nat
  ∧ ∃ m', traverse_maze 18 scenario_a = Ok m'
      ∧ (∀ p, 0 ≤ cost_of m' p → p.1 ≤ cost_of m' p)
      ∧ (m_soln m' = TRUE → m_rows scenario_a - 1 ≤ m_cost m').
Proof.
  split; [reflexivity|]. split; [vm_compute; lia|].
  apply (cost_is_at_least_the_row scenario_a 18); [reflexivity | vm_compute; lia].
Defined.

(** X8. On a valid grid the final costs are locally consistent: an Open
    cell next to a cell with a cost has a cost too, at most one higher; a
    cell of positive cost has a neighbour that costs exactly one less; and
    the cells of cost 0 are the entrances. *)
Theorem costs_are_locally_consistent (m : maze_t) (fuel : nat) :
  valid_maze m → (fuel_bound m ≤ fuel)%nat →
  ∃ m', traverse_maze fuel m = Ok m'
    ∧ (∀ p p', adjacent p p' → 0 ≤ cost_of m' p → open_at m p' = true →
         0 ≤ cost_of m' p' ≤ cost_of m' p + 1)
    ∧ (∀ p, 0 < cost_of m' p →
         ∃ p', adjacent p' p ∧ cost_of m' p' = cost_of m' p - 1)
    ∧ ∀ p, cost_of m' p = 0 ↔ entrance m p.
Proof.
  intros Hv Hfuel.
  destruct (traverse_maze_outcome m fuel Hv Hfuel)
    as (Hvf & m2 & q2 & ex & m' & _ & Hfl & _ & _ & Htr & Hsv).
  pose proof (fl_inv _ _ _ Hfl) as Hinv.
  assert (Hq : ∀ p, 0 ≤ cost_of m2 p → p ∈ l_cell <$> q2).
  { intros p Hp. destruct (decide (p ∈ l_cell <$> q2)) as [|Hnin]; [done|].
    apply (flooded_fresh _ _ _ Hfl) in Hnin as [Hc _]. unfold NOTVISIT in Hc. lia. }
  exists m'. split; [done|]. split_and!.
  - intros p p' Hadj Hp Ho. rewrite !(sv_cost _ _ _ _ Hsv) in *.
    destruct (flooded_walk _ _ _ Hfl _ (Hq _ Hp)) as (l & Hl & Hlen).
    pose proof (open_path_step _ _ _ _ Hl Hadj Ho) as Hl'.
    apply (flooded_reached _ _ _ Hfl) in Hl' as [Hin Hc].
    apply (flooded_queued _ _ _ Hfl) in Hin as [? _].
    rewrite length_app in Hc. simpl in Hc. lia.
  - intros p. rewrite (sv_cost _ _ _ _ Hsv). intros Hp.
    assert (Hin : p ∈ l_cell <$> q2) by (apply Hq; lia).
    in_queue Hin as k n Hk.
    pose proof (inv_parent _ _ _ _ Hinv _ _ Hk) as Hpar. unfold parent_ok in Hpar.
    destruct (l_parent n) as [pk|].
    + destruct Hpar as (_ & pn & _ & Hadj & Hc). exists (l_cell pn).
      rewrite (sv_cost _ _ _ _ Hsv). split; [done | lia].
    + lia.
  - intros p. rewrite (sv_cost _ _ _ _ Hsv). split.
    + intros Hp. assert (Hin : p ∈ l_cell <$> q2) by (apply Hq; lia).
      in_queue Hin as k n Hk.
      pose proof (inv_parent _ _ _ _ Hinv _ _ Hk) as Hpar. unfold parent_ok in Hpar.
      pose proof (inv_node _ _ _ _ Hinv _ _ Hk) as (Ho & _ & _).
      destruct (l_parent n) as [pk|].
      * destruct Hpar as (_ & pn & Hpn & _ & Hc).
        pose proof (inv_node _ _ _ _ Hinv _ _ Hpn) as (_ & ? & _). lia.
      * split; [tauto | done].
    + intros He. by apply (fl_entrances _ _ _ Hfl) in He as [_ ?].
Qed.

Lemma costs_are_locally_consistent_witness :
  valid_maze scenario_a ∧ (fuel_bound scenario_a ≤ 18)%nat
  ∧ ∃ m', traverse_maze 18 scenario_a = Ok m'
      ∧ (∀ p p', adjacent p p' → 0 ≤ cost_of m' p →
           open_at scenario_a p' = true →
           0 ≤ cost_of m' p' ≤ cost_of m' p + 1)
      ∧ (∀ p, 0 < cost_of m' p →
           ∃ p', adjacent p' p ∧ cost_of m' p' = cost_of m' p - 1)
      ∧ ∀ p, cost_of m' p = 0 ↔ entrance scenario_a p.
Proof.
  split; [reflexivity|]. split; [vm_compute; lia|].
  apply (costs_are_locally_consistent scenario_a 18);
    [reflexivity | vm_compute; lia].
Defined.

(** ** The search for the exit in the queue *)

Lemma shortest_path_absent q e m : ∀ fuel k,
  (k < length q)%nat → (length q ≤ k + fuel)%nat →
  (∀ j n, (k ≤ j)%nat → q !! j = Some n → l_cell n ≠ e) →
  shortest_path fuel m q (Some k) (Some e) = Ok (m, -1).
Proof.
  induction fuel as [|fuel IH]; intros k Hk Hfuel Hno; [lia|].
  destruct (lookup_lt_is_Some_2 q k Hk) as [n Hn].
  cbn [shortest_path]. rewrite Hn.
  rewrite bool_decide_eq_false_2 by by apply (Hno k).
  unfold next. case_decide as Hnext.
  - apply IH; [done | lia |]. intros j n' Hj. apply Hno. lia.
  - by destruct fuel.
Qed.

(** X9. [shortest_path] called on the head of a queue that does not hold
    the exit walks the [next] links to the end of the queue, returns -1 and
    leaves the maze as it is: no cell is marked. *)
Theorem shortest_path_without_the_exit (fuel : nat) (m : maze_t)
    (q : queue_t) (e : cell_ptr) :
  (length q ≤ fuel)%nat → e ∉ l_cell <$> q →
  shortest_path fuel m q (head_ptr q) (Some e) = Ok (m, -1).
Proof.
  intros Hfuel Hno. destruct q as [|n q]; [by destruct fuel|].
  cbn [head_ptr]. apply shortest_path_absent; [simpl; lia | simpl in *; lia |].
  intros j n' _ Hj <-. apply Hno. apply list_elem_of_fmap. exists n'.
  split; [done|]. by eapply list_elem_of_lookup_2.
Qed.

Lemma shortest_path_without_the_exit_witness :
  (length [Node (0, 0)%Z None; Node (1, 0)%Z (Some 0%nat)] ≤ 2)%nat
  ∧ ((2, 0) ∉ l_cell <$> [Node (0, 0)%Z None; Node (1, 0)%Z (Some 0%nat)])
  ∧ shortest_path 2 scenario_a [Node (0, 0)%Z None; Node (1, 0)%Z (Some 0%nat)]
      (head_ptr [Node (0, 0)%Z None; Node (1, 0)%Z (Some 0%nat)]) (Some (2, 0))
    = Ok (scenario_a, -1).
Proof.
  assert (H : (2, 0) ∉ l_cell <$> [Node (0, 0)%Z None; Node (1, 0)%Z (Some 0%nat)]).
  { simpl. intros Hin. repeat (apply elem_of_cons in Hin as [Hin|Hin]; [discriminate|]).
    by apply elem_of_nil in Hin. }
  split; [simpl; lia|]. split; [exact H|].
  apply (shortest_path_without_the_exit 2 scenario_a); [simpl; lia | exact H].
Defined.

(** * The reader *)

(** ** Allocated memory and the text of a maze *)

Lemma store_some m p f c :
  get_cell m p = Some c → store m p f = Ok (put_cell m p (f c)).
Proof. intros Hc. unfold store. by rewrite Hc. Qed.

Lemma new_row_replicate s lim :
  new_row s lim = replicate lim (replicate (s * Z.to_nat MAX_COLS) zero_cell).
Proof. induction lim as [|lim IH]; [done|]. cbn [new_row replicate]. by rewrite IH. Qed.

Lemma get_cell_new_maze s p :
  get_cell (new_maze s) p
  = if decide (0 ≤ p.1 < MAX_ROWS ∧ 0 ≤ p.2 < Z.of_nat s * MAX_COLS)
    then Some zero_cell else None.
Proof.
  unfold get_cell, new_maze. cbn [m_cells]. rewrite new_row_replicate.
  case_decide as H1; case_decide as H2; try done; try lia.
  - rewrite lookup_replicate_2 by lia. rewrite lookup_replicate_2; [done|].
    unfold MAX_COLS in *. lia.
  - destruct (replicate _ _ !! Z.to_nat p.1) as [row|] eqn:Hr; [|done].
    apply lookup_replicate in Hr as [-> Hlt].
    apply lookup_replicate_None. unfold MAX_COLS, MAX_ROWS in *. lia.
Qed.

Lemma new_maze_fields s :
  m_rows (new_maze s) = 0 ∧ m_cols (new_maze s) = 0
  ∧ m_cost (new_maze s) = 0 ∧ m_soln (new_maze s) = 0
  ∧ Z.of_nat (length (m_cells (new_maze s))) = MAX_ROWS.
Proof.
  unfold new_maze. cbn [m_rows m_cols m_cost m_soln m_cells].
  rewrite new_row_replicate, length_replicate. unfold MAX_ROWS. lia.
Qed.

Lemma get_cell_maze_of_rows l p :
  get_cell (maze_of_rows l) p
  = fresh_cell (Z.to_nat p.1) (Z.to_nat p.2) <$> char_at l p.
Proof.
  unfold get_cell, char_at, maze_of_rows. cbn [m_cells].
  case_decide; [|done]. rewrite list_lookup_imap.
  destruct (l !! Z.to_nat p.1) as [s|]; [|done]. cbn.
  by rewrite list_lookup_imap.
Qed.

(** ** The reader on well-formed lines *)

Lemma fresh_cell_Z x y t :
  0 ≤ x → 0 ≤ y →
  Cell x y NOTVISIT 0 0 t = fresh_cell (Z.to_nat x) (Z.to_nat y) t.
Proof. intros. unfold fresh_cell, FALSE. by rewrite !Z2Nat.id. Qed.

(** The four assignments of [read_cell]. *)
Lemma read_cell_writes {A} m x y t c0 (k : maze_t → result A) :
  get_cell m (x, y) = Some c0 →
  (let* m1 := store m (x, y) (with_x x) in
   let* m2 := store m1 (x, y) (with_y y) in
   let* m3 := store m2 (x, y) (with_type t) in
   let* m4 := store m3 (x, y) (with_cost NOTVISIT) in
   k m4)
  = k (put_cell m (x, y) (Cell x y NOTVISIT (c_reach c0) (c_soln c0) t)).
Proof.
  intros Hc.
  rewrite (store_some _ _ _ _ Hc). cbn [bind].
  rewrite (store_some _ _ _ _ (get_put_eq _ _ _ _ Hc)). cbn [bind].
  rewrite (put_put _ _ _ _ _ Hc).
  rewrite (store_some _ _ _ _ (get_put_eq _ _ _ _ Hc)). cbn [bind].
  rewrite (put_put _ _ _ _ _ Hc).
  rewrite (store_some _ _ _ _ (get_put_eq _ _ _ _ Hc)). cbn [bind].
  by rewrite (put_put _ _ _ _ _ Hc).
Qed.

Lemma read_cell_line s : ∀ lim m c inp rest x y,
  c :: inp = s ++ NEWLINE :: rest →
  Forall (λ a, a ≠ NEWLINE) s →
  (length s ≤ lim)%nat →
  0 ≤ x → 0 ≤ y → y + Z.of_nat (length s) < 2 ^ 31 →
  (∀ j, y ≤ j < y + Z.of_nat (length s) → get_cell m (x, j) = Some zero_cell) →
  ∃ m', read_cell lim m inp (x, 0) c x y
        = Ok (m', rest, Z.max 1 (Z.of_nat (length s)))
    ∧ (m_rows m' = m_rows m ∧ m_cols m' = m_cols m ∧ m_cost m' = m_cost m
       ∧ m_soln m' = m_soln m ∧ length (m_cells m') = length (m_cells m))
    ∧ ∀ p, get_cell m' p =
        match (if decide (p.1 = x ∧ y ≤ p.2) then s !! Z.to_nat (p.2 - y)
               else None) with
        | Some t => Some (fresh_cell (Z.to_nat p.1) (Z.to_nat p.2) t)
        | None => get_cell m p
        end.
Proof.
  induction s as [|t s IH]; intros lim m c inp rest x y Hinp Hnl Hlim Hx Hy Hsmall Hzero.
  - injection Hinp as -> ->. exists m. split_and!; try done.
    + by destruct lim.
    + intros p. by case_decide.
  - injection Hinp as -> ->. apply Forall_cons in Hnl as [Ht Hnl].
    destruct lim as [|lim]; [simpl in Hlim; lia|].
    simpl in Hlim, Hsmall.
    cbn [read_cell]. rewrite (proj2 (Ascii.eqb_neq _ _) Ht). cbn [negb fst snd].
    rewrite Z.add_0_l.
    assert (Hc : get_cell m (x, y) = Some zero_cell) by (apply Hzero; simpl; lia).
    rewrite (read_cell_writes _ _ _ _ _ _ Hc).
    change (Cell x y NOTVISIT _ _ t) with (Cell x y NOTVISIT 0 0 t).
    rewrite (fresh_cell_Z _ _ _ Hx Hy).
    set (m4 := put_cell m (x, y) _).
    pose proof (put_cell_fields m (x, y) (fresh_cell (Z.to_nat x) (Z.to_nat y) t)) as Hf.
    fold m4 in Hf.
    assert (Hget4 : ∀ p, get_cell m4 p
              = if decide ((x, y) = p)
                then Some (fresh_cell (Z.to_nat x) (Z.to_nat y) t)
                else get_cell m p).
    { intros p. apply (get_put _ _ _ _ _ Hc). }
    destruct s as [|t' s].
    + cbn [app scanf_char]. rewrite Ascii.eqb_refl. cbn.
      exists m4. split_and!; try tauto.
      intros p. rewrite Hget4. destruct p as [px py]. cbn [fst snd].
      destruct (decide (px = x ∧ y ≤ py)) as [[-> Hle]|Hn].
      * destruct (decide (py = y)) as [->|Hne].
        -- rewrite Z.sub_diag. cbn. by rewrite decide_True.
        -- replace (Z.to_nat (py - y)) with (S (Z.to_nat (py - (y + 1)))) by lia.
           cbn [lookup list_lookup].
           rewrite decide_False; [done|]. intros [= ]. lia.
      * rewrite decide_False; [done|]. intros [= -> ->]. lia.
    + cbn [app scanf_char]. apply Forall_cons in Hnl as Hnl'. destruct Hnl' as [Ht' _].
      rewrite (proj2 (Ascii.eqb_neq _ _) Ht'). cbn [negb andb Z.eqb].
      rewrite int_add_small by lia.
      destruct (IH lim m4 t' (s ++ NEWLINE :: rest) rest x (y + 1)) as (m5 & Hrun & Hf5 & Hget5);
        [done | done | simpl in *; lia | done | lia | simpl in *; lia | |].
      { intros j Hj. rewrite Hget4. case_decide as Hp; [simplify_eq; lia|].
        apply Hzero. simpl in *. lia. }
      rewrite Hrun. cbn [bind]. exists m5.
      split; [|split; [destruct Hf5 as (?&?&?&?&?), Hf as (?&?&?&?&?);
                       split_and!; congruence|]].
      * f_equal. f_equal. rewrite int_add_small by (simpl in *; lia). simpl length. lia.
      * intros p. rewrite Hget5, Hget4. destruct p as [px py]. cbn [fst snd].
        destruct (decide (px = x ∧ y ≤ py)) as [[-> Hle]|Hn].
        -- destruct (decide (py = y)) as [->|Hne].
           ++ rewrite Z.sub_diag. cbn. rewrite decide_False by lia.
              by rewrite decide_True.
           ++ rewrite decide_True by lia.
              replace (Z.to_nat (py - y)) with (S (Z.to_nat (py - (y + 1)))) by lia.
              cbn [lookup list_lookup].
              destruct ((t' :: s) !! Z.to_nat (py - (y + 1))); [done|].
              rewrite decide_False; [done|]. intros [= ]. lia.
        -- rewrite decide_False by lia.
           rewrite decide_False; [done|]. intros [= -> ->]. lia.
Qed.

Lemma row_ptr_Ok m x :
  0 ≤ x < Z.of_nat (length (m_cells m)) → row_ptr m x = Ok (x, 0).
Proof. intros Hx. unfold row_ptr. by rewrite decide_True. Qed.

Lemma concat_lines_cons (s : list ascii) ll tail :
  concat ((λ s, s ++ [NEWLINE]) <$> (s :: ll)) ++ tail
  = s ++ NEWLINE :: (concat ((λ s, s ++ [NEWLINE]) <$> ll) ++ tail).
Proof. cbn [fmap list_fmap concat]. by rewrite <- !app_assoc. Qed.

Lemma concat_lines_nonempty (ll : list (list ascii)) tail :
  ll ≠ [] → ∃ c inp, concat ((λ s, s ++ [NEWLINE]) <$> ll) ++ tail = c :: inp.
Proof.
  destruct ll as [|s ll]; [done|]. intros _. rewrite concat_lines_cons.
  destruct s; simpl; eauto.
Qed.

Lemma read_row_lines ll : ∀ lim m c inp x tail,
  ll ≠ [] →
  c :: inp = concat ((λ s, s ++ [NEWLINE]) <$> ll) ++ tail →
  Forall (λ s, Forall (λ a, a ≠ NEWLINE) s ∧ Z.of_nat (length s) ≤ MAX_COLS) ll →
  (length ll ≤ lim)%nat →
  0 ≤ x → x + Z.of_nat (length ll) ≤ Z.of_nat (length (m_cells m)) →
  x + Z.of_nat (length ll) < 2 ^ 30 →
  (∀ i j, x ≤ i < x + Z.of_nat (length ll) → 0 ≤ j < MAX_COLS →
     get_cell m (i, j) = Some zero_cell) →
  ∃ m',
    (m_rows m' = m_rows m ∧ m_cost m' = m_cost m ∧ m_soln m' = m_soln m
     ∧ length (m_cells m') = length (m_cells m))
    ∧ m_cols m' = Z.max 1 (Z.of_nat (length (default [] (last ll))))
    ∧ (∀ p, get_cell m' p =
         match (if decide (x ≤ p.1 ∧ 0 ≤ p.2) then
                  ll !! Z.to_nat (p.1 - x) ≫= λ s, s !! Z.to_nat p.2
                else None) with
         | Some t => Some (fresh_cell (Z.to_nat p.1) (Z.to_nat p.2) t)
         | None => get_cell m p
         end)
    ∧ match tail with
      | [] => read_row lim m inp c x = Ok (m', [], Z.of_nat (length ll))
      | c' :: inp' =>
          ∀ m3 inp3 k,
            read_row (lim - length ll) m' inp' c' (x + Z.of_nat (length ll))
            = Ok (m3, inp3, k) →
            -1000 ≤ k ≤ 1000 →
            read_row lim m inp c x = Ok (m3, inp3, Z.of_nat (length ll) + k)
      end.
Proof.
  induction ll as [|s ll IH]; [done|].
  intros lim m c inp x tail _ Hinp Hok Hlim Hx Hlen Hsmall Hzero.
  apply Forall_cons in Hok as [[Hs Hslen] Hok].
  destruct lim as [|lim]; [simpl in Hlim; lia|].
  cbn [length] in *.
  rewrite concat_lines_cons in Hinp.
  destruct (read_cell_line s (Z.to_nat MAX_COLS) m c inp _ x 0 Hinp Hs)
    as (m1 & Hrun1 & Hf1 & Hget1); [unfold MAX_COLS in *; lia | lia | lia | unfold MAX_COLS in *; lia | |].
  { intros j Hj. apply Hzero; lia. }
  cbn [read_row]. rewrite row_ptr_Ok by lia. cbn [bind]. unfold NIL.
  rewrite Hrun1. cbn [bind].
  set (m2 := set_maze_cols _ m1).
  assert (Hget2 : ∀ p, get_cell m2 p = get_cell m1 p) by done.
  assert (Hf2 : m_rows m2 = m_rows m ∧ m_cost m2 = m_cost m ∧ m_soln m2 = m_soln m
                ∧ length (m_cells m2) = length (m_cells m)).
  { subst m2. cbn. tauto. }
  assert (Hcols2 : m_cols m2 = Z.max 1 (Z.of_nat (length s))) by done.
  clearbody m2.
  assert (Hrow : ∀ p, get_cell m2 p =
            match (if decide (p.1 = x ∧ 0 ≤ p.2) then s !! Z.to_nat p.2 else None) with
            | Some t => Some (fresh_cell (Z.to_nat p.1) (Z.to_nat p.2) t)
            | None => get_cell m p
            end).
  { intros p. rewrite Hget2, Hget1. by rewrite Z.sub_0_r. }
  clear Hget1 Hget2 Hrun1 Hf1 m1.
  destruct ll as [|s' ll].
  - (* the last line of the block *)
    cbn [fmap list_fmap concat app].
    exists m2. split; [done|]. split; [done|]. split.
    + intros p. rewrite Hrow. destruct p as [px py]. cbn [fst snd].
      destruct (decide (x ≤ px ∧ 0 ≤ py)) as [[H1 H2]|Hn].
      * destruct (decide (px = x)) as [->|Hne].
        -- rewrite decide_True by done. by rewrite Z.sub_diag.
        -- rewrite decide_False by tauto.
           replace (Z.to_nat (px - x)) with (S (Z.to_nat (px - x - 1))) by lia.
           done.
      * rewrite decide_False; [done | lia].
    + destruct tail as [|c' inp']; cbn [scanf_char].
      * done.
      * intros m3 inp3 k Hrun Hk. cbn [length Nat.sub] in Hrun.
        rewrite Nat.sub_0_r in Hrun. change (negb (1 =? EOF)) with true. cbn iota.
        rewrite int_add_small by lia.
        replace (x + 1) with (x + Z.of_nat 1) by lia.
        rewrite Hrun. cbn [bind]. rewrite int_add_small by lia. done.
  - destruct (concat_lines_nonempty (s' :: ll) tail) as (c2 & inp2 & Heq); [done|].
    rewrite Heq. cbn [scanf_char]. change (negb (1 =? EOF)) with true. cbn iota.
    rewrite int_add_small by lia.
    destruct (IH lim m2 c2 inp2 (x + 1) tail) as (m' & Hf' & Hcols' & Hget' & Hrun');
      [done | done | done | simpl in *; lia | lia | | | |].
    { destruct Hf2 as (_ & _ & _ & ->). simpl in *. lia. }
    { simpl in *. lia. }
    { intros i j Hi Hj. rewrite Hrow. cbn [fst snd].
      rewrite decide_False by lia. apply Hzero; simpl in *; lia. }
    exists m'. split; [|split; [|split]].
    + destruct Hf' as (?&?&?&?), Hf2 as (?&?&?&?). split_and!; congruence.
    + done.
    + intros p. rewrite Hget', Hrow. destruct p as [px py]. cbn [fst snd].
      destruct (decide (x ≤ px ∧ 0 ≤ py)) as [[H1 H2]|Hn].
      * destruct (decide (px = x)) as [->|Hne].
        -- rewrite decide_False by lia. rewrite decide_True by done.
           by rewrite Z.sub_diag.
        -- rewrite decide_True by lia. rewrite (decide_False (P := px = x ∧ _)) by tauto.
           replace (Z.to_nat (px - x)) with (S (Z.to_nat (px - (x + 1)))) by lia.
           done.
      * rewrite decide_False by lia. rewrite decide_False; [done | lia].
    + destruct tail as [|c' inp'].
      * rewrite Hrun'. cbn [bind]. rewrite int_add_small by (simpl in *; lia).
        do 2 f_equal. simpl length. lia.
      * intros m3 inp3 k Hrun Hk.
        rewrite (Hrun' m3 inp3 k); [| |done].
        -- cbn [bind]. rewrite int_add_small by (simpl in *; lia).
           do 2 f_equal. simpl length. lia.
        -- rewrite <- Hrun. f_equal. simpl length. lia.
Qed.

Lemma length_list_ascii_of_string s :
  length (list_ascii_of_string s) = String.length s.
Proof. induction s as [|a s IH]; [done|]. simpl. by rewrite IH. Qed.

Lemma input_of_lines l :
  input_of l
  = concat ((λ s, s ++ [NEWLINE]) <$> (list_ascii_of_string <$> l)).
Proof. unfold input_of. by rewrite <- list_fmap_compose. Qed.

Lemma line_okb_spec s :
  line_okb s = true →
  Forall (λ a, a ≠ NEWLINE) (list_ascii_of_string s)
  ∧ Z.of_nat (length (list_ascii_of_string s)) ≤ MAX_COLS.
Proof.
  unfold line_okb. rewrite andb_true_iff, forallb_forall, length_list_ascii_of_string.
  intros [Hnl Hlen]. split; [|lia].
  apply Forall_forall. intros a Ha. apply list_elem_of_In, Hnl in Ha.
  apply negb_true_iff in Ha. by apply Ascii.eqb_neq.
Qed.

Lemma text_okb_spec l :
  text_okb l = true →
  (∃ c s l', l = String c s :: l' ∧ c ≠ NEWLINE)
  ∧ Z.of_nat (length l) ≤ MAX_ROWS
  ∧ Forall (λ s, Forall (λ a, a ≠ NEWLINE) s ∧ Z.of_nat (length s) ≤ MAX_COLS)
      (list_ascii_of_string <$> l).
Proof.
  unfold text_okb. rewrite !andb_true_iff, forallb_forall.
  intros [[Hfirst Hlen] Hok].
  assert (Hall : Forall (λ s, Forall (λ a, a ≠ NEWLINE) s
                              ∧ Z.of_nat (length s) ≤ MAX_COLS)
                   (list_ascii_of_string <$> l)).
  { apply Forall_fmap, Forall_forall. intros s Hs.
    by apply line_okb_spec, Hok, list_elem_of_In. }
  split_and!; [|lia|done].
  destruct l as [|[|c s] l']; [done..|].
  exists c, s, l'. split; [done|].
  apply Forall_cons in Hall as [[Hc _] _]. simpl in Hc.
  by apply Forall_cons in Hc as [? _].
Qed.

Lemma last_fmap_default {A B} (f : A → B) (l : list A) a :
  default (f a) (last (f <$> l)) = f (default a (last l)).
Proof. rewrite fmap_last. by destruct (last l). Qed.

Lemma read_maze_lines (sizeof_cell : nat) (l : list string) :
  (1 ≤ sizeof_cell)%nat → text_okb l = true →
  ∃ m, read_maze (new_maze sizeof_cell) (input_of l) = Ok (m, [])
    ∧ m_rows m = Z.of_nat (length l)
    ∧ m_cols m
      = Z.max 1 (Z.of_nat (String.length (default EmptyString (last l))))
    ∧ m_cost m = 0 ∧ m_soln m = 0
    ∧ Z.of_nat (length (m_cells m)) = MAX_ROWS
    ∧ laid_over (maze_of_rows l) (new_maze sizeof_cell) m.
Proof.
  intros Hsz Hok.
  destruct (text_okb_spec l Hok) as ((c & s & l' & -> & Hc) & Hlen & Hall).
  pose proof (new_maze_fields sizeof_cell) as (Hr0 & Hc0 & Hcost0 & Hsoln0 & Hlen0).
  set (l := String c s :: l') in *.
  assert (Hinp : input_of l
            = c :: (list_ascii_of_string s ++ NEWLINE
                      :: concat ((λ s, s ++ [NEWLINE])
                                   <$> (list_ascii_of_string <$> l')))).
  { rewrite input_of_lines. subst l. cbn [fmap list_fmap concat list_ascii_of_string].
    by rewrite <- app_assoc. }
  destruct (read_row_lines (list_ascii_of_string <$> l) (Z.to_nat MAX_ROWS)
              (new_maze sizeof_cell) c
              (list_ascii_of_string s ++ NEWLINE
                 :: concat ((λ s, s ++ [NEWLINE]) <$> (list_ascii_of_string <$> l')))
              0 [])
    as (m1 & Hf1 & Hcols1 & Hget1 & Hrun1).
  - done.
  - rewrite <- Hinp, input_of_lines. by rewrite app_nil_r.
  - done.
  - rewrite length_fmap. lia.
  - done.
  - rewrite length_fmap. lia.
  - rewrite length_fmap. unfold MAX_ROWS in Hlen. lia.
  - intros i j Hi Hj. rewrite get_cell_new_maze. cbn [fst snd].
    rewrite length_fmap in Hi. rewrite decide_True; [done|].
    unfold MAX_COLS in *. nia.
  - exists (set_maze_rows (Z.of_nat (length l)) m1).
    rewrite length_fmap in Hrun1. split_and!.
    + unfold read_maze. rewrite Hinp. cbn [scanf_char].
      change (negb (1 =? EOF)) with true.
      rewrite (proj2 (Ascii.eqb_neq _ _) Hc). cbn [negb andb].
      unfold NIL. by rewrite Hrun1.
    + done.
    + cbn [set_maze_rows m_cols]. rewrite Hcols1.
      rewrite <- length_list_ascii_of_string.
      by rewrite <- (last_fmap_default list_ascii_of_string).
    + cbn. destruct Hf1 as (_ & -> & _). done.
    + cbn. destruct Hf1 as (_ & _ & -> & _). done.
    + cbn [set_maze_rows m_cells]. destruct Hf1 as (_ & _ & _ & ->). done.
    + intros p. change (get_cell (set_maze_rows _ m1) p) with (get_cell m1 p).
      rewrite Hget1, get_cell_maze_of_rows. unfold char_at.
      rewrite Z.sub_0_r, list_lookup_fmap.
      case_decide; [|done].
      destruct (l !! Z.to_nat p.1) as [s0|]; [|done]. cbn.
      by destruct (list_ascii_of_string s0 !! Z.to_nat p.2).
Qed.

(** X10. A text of at most [MAX_ROWS] lines of at most [MAX_COLS]
    characters, each closed by a newline and the first one not empty, is
    read to its end: [rows] is the number of lines, [cols] the length of
    the last line (1 when that line is empty), and the memory holds the
    characters of the text as fresh cells (coordinates set, cost -1, not
    reached, not on the solution) and is as allocated everywhere else. *)
Theorem read_maze_reads_the_lines (sizeof_cell : nat) (l : list string) :
  (1 ≤ sizeof_cell)%nat → text_okb l = true →
  ∃ m, read_maze (new_maze sizeof_cell) (input_of l) = Ok (m, [])
    ∧ m_rows m = Z.of_nat (length l)
    ∧ m_cols m
      = Z.max 1 (Z.of_nat (String.length (default EmptyString (last l))))
    ∧ m_cost m = 0 ∧ m_soln m = 0
    ∧ laid_over (maze_of_rows l) (new_maze sizeof_cell) m.
Proof.
  intros Hsz Hok.
  destruct (read_maze_lines sizeof_cell l Hsz Hok) as (m & ? & ? & ? & ? & ? & _ & ?).
  by exists m.
Qed.

Lemma read_maze_reads_the_lines_witness :
  (1 ≤ 24)%nat ∧ text_okb [".#."; "..."; ".#."]%string = true
  ∧ ∃ m, read_maze (new_maze 24) (input_of [".#."; "..."; ".#."]%string)
         = Ok (m, [])
      ∧ m_rows m = Z.of_nat (length [".#."; "..."; ".#."]%string)
      ∧ m_cols m
        = Z.max 1 (Z.of_nat (String.length
                     (default EmptyString (last [".#."; "..."; ".#."]%string))))
      ∧ m_cost m = 0 ∧ m_soln m = 0
      ∧ laid_over (maze_of_rows [".#."; "..."; ".#."]%string) (new_maze 24) m.
Proof.
  split; [lia|]. split; [reflexivity|].
  apply (read_maze_reads_the_lines 24); [lia | reflexivity].
Defined.

(** ** The reader on any input *)

Lemma read_cell_safe lim : ∀ m inp c x y,
  0 ≤ y → y + Z.of_nat lim < 2 ^ 30 →
  (∀ j, y ≤ j < y + Z.of_nat lim → is_Some (get_cell m (x, j))) →
  ∃ m' inp' n,
    read_cell lim m inp (x, 0) c x y = Ok (m', inp', n)
    ∧ 1 ≤ n ≤ Z.of_nat lim + 1
    ∧ (m_rows m' = m_rows m ∧ m_cols m' = m_cols m ∧ m_cost m' = m_cost m
       ∧ m_soln m' = m_soln m ∧ length (m_cells m') = length (m_cells m))
    ∧ suffix inp' inp
    ∧ (∀ p, is_Some (get_cell m' p) ↔ is_Some (get_cell m p))
    ∧ ∀ p, ¬ (p.1 = x ∧ y ≤ p.2 < y + Z.of_nat lim) →
        get_cell m' p = get_cell m p.
Proof.
  induction lim as [|lim IH]; intros m inp c x y Hy Hsmall Hmem.
  - exists m, inp, 1. cbn [read_cell]. split; [done|]. split; [lia|]. done.
  - cbn [read_cell]. destruct (Ascii.eqb c NEWLINE) eqn:Hc; cbn [negb].
    { exists m, inp, 1. split; [done|]. split; [lia|]. done. }
    cbn [fst snd]. rewrite Z.add_0_l.
    destruct (Hmem y) as [c0 Hc0]; [lia|].
    rewrite (read_cell_writes _ _ _ _ _ _ Hc0).
    set (m4 := put_cell m (x, y) _).
    pose proof (put_cell_fields m (x, y)
                  (Cell x y NOTVISIT (c_reach c0) (c_soln c0) c)) as Hf.
    fold m4 in Hf.
    assert (Hget4 : ∀ p, get_cell m4 p
              = if decide ((x, y) = p)
                then Some (Cell x y NOTVISIT (c_reach c0) (c_soln c0) c)
                else get_cell m p).
    { intros p. apply (get_put _ _ _ _ _ Hc0). }
    assert (Hsome4 : ∀ p, is_Some (get_cell m4 p) ↔ is_Some (get_cell m p)).
    { intros p. rewrite Hget4. case_decide as Hp; [|done]. subst p.
      rewrite Hc0. split; eauto. }
    assert (Hframe4 : ∀ p, ¬ (p.1 = x ∧ y ≤ p.2 < y + Z.of_nat (S lim)) →
              get_cell m4 p = get_cell m p).
    { intros p Hp. rewrite Hget4. rewrite decide_False; [done|].
      intros <-. apply Hp. cbn. lia. }
    clearbody m4.
    destruct (IH m4 (match inp with [] => [] | _ :: r => r end)
                 (match inp with [] => c | a :: _ => a end) x (y + 1))
      as (m5 & inp5 & n & Hrun & Hn & Hf5 & Hsuf & Hsome5 & Hframe5); [lia | lia | |].
    { intros j Hj. apply Hsome4, Hmem. lia. }
    assert (Hsuf' : suffix inp5 inp).
    { destruct inp; [done|]. by apply suffix_cons_r. }
    destruct inp as [|a inp]; cbn [scanf_char].
    + change (negb (EOF =? 0)) with true. rewrite Hc. cbn [negb andb].
      rewrite int_add_small by lia. rewrite Hrun. cbn [bind].
      rewrite int_add_small by lia.
      exists m5, inp5, (1 + n).
      split; [done|]. split; [lia|]. split; [|split; [done|split]].
      * destruct Hf5 as (?&?&?&?&?), Hf as (?&?&?&?&?). split_and!; congruence.
      * intros p. by rewrite Hsome5.
      * intros p Hp. rewrite Hframe5 by lia. by apply Hframe4.
    + change (negb (1 =? 0)) with true. cbn [andb].
      destruct (Ascii.eqb a NEWLINE) eqn:Ha; cbn [negb].
      * exists m4, inp, 1.
        split; [done|]. split; [lia|]. split; [done|]. split; [|done].
        by apply suffix_cons_r.
      * rewrite int_add_small by lia. rewrite Hrun. cbn [bind].
        rewrite int_add_small by lia.
        exists m5, inp5, (1 + n).
        split; [done|]. split; [lia|]. split; [|split; [done|split]].
        -- destruct Hf5 as (?&?&?&?&?), Hf as (?&?&?&?&?). split_and!; congruence.
        -- intros p. by rewrite Hsome5.
        -- intros p Hp. rewrite Hframe5 by lia. by apply Hframe4.
Qed.

Lemma read_row_safe lim : ∀ m inp c x,
  0 ≤ x → x + Z.of_nat lim ≤ Z.of_nat (length (m_cells m)) →
  x + Z.of_nat lim < 2 ^ 30 →
  (∀ i j, x ≤ i < x + Z.of_nat lim → 0 ≤ j < MAX_COLS →
     is_Some (get_cell m (i, j))) →
  ∃ m' inp' n,
    read_row lim m inp c x = Ok (m', inp', n)
    ∧ 1 ≤ n ≤ Z.of_nat lim + 1
    ∧ (m_rows m' = m_rows m ∧ m_cost m' = m_cost m ∧ m_soln m' = m_soln m
       ∧ length (m_cells m') = length (m_cells m))
    ∧ (match lim with
       | O => m_cols m' = m_cols m
       | S _ => 1 ≤ m_cols m' ≤ MAX_COLS + 1
       end)
    ∧ suffix inp' inp
    ∧ (∀ p, is_Some (get_cell m' p) ↔ is_Some (get_cell m p))
    ∧ ∀ p, ¬ (x ≤ p.1 < x + Z.of_nat lim ∧ 0 ≤ p.2 < MAX_COLS) →
        get_cell m' p = get_cell m p.
Proof.
  induction lim as [|lim IH]; intros m inp c x Hx Hlen Hsmall Hmem.
  - exists m, inp, 1. cbn [read_row]. split; [done|]. split; [lia|]. done.
  - cbn [read_row]. rewrite row_ptr_Ok by lia. cbn [bind]. unfold NIL.
    destruct (read_cell_safe (Z.to_nat MAX_COLS) m inp c x 0)
      as (m1 & inp1 & n1 & Hrun1 & Hn1 & Hf1 & Hsuf1 & Hsome1 & Hframe1);
      [lia | unfold MAX_COLS; lia | |].
    { intros j Hj. apply Hmem; unfold MAX_COLS in *; lia. }
    rewrite Hrun1. cbn [bind].
    set (m2 := set_maze_cols n1 m1).
    assert (Hcols2 : 1 ≤ m_cols m2 ≤ MAX_COLS + 1).
    { subst m2. cbn. unfold MAX_COLS in *. lia. }
    assert (Hf2 : m_rows m2 = m_rows m ∧ m_cost m2 = m_cost m
                  ∧ m_soln m2 = m_soln m
                  ∧ length (m_cells m2) = length (m_cells m)).
    { subst m2. cbn. tauto. }
    assert (Hsome2 : ∀ p, is_Some (get_cell m2 p) ↔ is_Some (get_cell m p))
      by apply Hsome1.
    assert (Hframe2 : ∀ p, ¬ (x ≤ p.1 < x + Z.of_nat (S lim) ∧ 0 ≤ p.2 < MAX_COLS) →
              get_cell m2 p = get_cell m p).
    { intros p Hp. apply Hframe1. unfold MAX_COLS in *. lia. }
    clearbody m2. clear Hrun1 Hf1 Hsome1 Hframe1.
    destruct inp1 as [|a inp2]; cbn [scanf_char].
    + change (negb (EOF =? EOF)) with false. cbn iota.
      exists m2, [], 1. split; [done|]. split; [lia|]. done.
    + change (negb (1 =? EOF)) with true. cbn iota.
      rewrite int_add_small by lia.
      destruct (IH m2 inp2 a (x + 1))
        as (m3 & inp3 & n & Hrun & Hn & Hf3 & Hcols3 & Hsuf3 & Hsome3 & Hframe3);
        [lia | destruct Hf2 as (_ & _ & _ & ->); lia | lia | |].
      { intros i j Hi Hj. apply Hsome2, Hmem; lia. }
      rewrite Hrun. cbn [bind]. rewrite int_add_small by lia.
      exists m3, inp3, (1 + n).
      split; [done|]. split; [lia|]. split; [|split; [|split; [|split]]].
      * destruct Hf3 as (?&?&?&?), Hf2 as (?&?&?&?). split_and!; congruence.
      * destruct lim; [by rewrite Hcols3|done].
      * etrans; [done|]. etrans; [|done]. by apply suffix_cons_r.
      * intros p. by rewrite Hsome3.
      * intros p Hp. rewrite Hframe3 by lia. by apply Hframe2.
Qed.

(** X11. Whatever the input, [read_maze] ends without an access outside
    the allocated rows.  It reports at most [MAX_ROWS + 1] rows and
    [MAX_COLS + 1] columns, leaves the maze without rows and columns exactly
    when the input is empty or starts with a newline, leaves a suffix of the
    input unread, and writes to no cell outside the first [MAX_ROWS] rows
    and [MAX_COLS] columns. *)
Theorem read_maze_stays_in_its_arrays (sizeof_cell : nat) (inp : list ascii) :
  (1 ≤ sizeof_cell)%nat →
  ∃ m rest,
    read_maze (new_maze sizeof_cell) inp = Ok (m, rest)
    ∧ suffix rest inp
    ∧ 0 ≤ m_rows m ≤ MAX_ROWS + 1 ∧ 0 ≤ m_cols m ≤ MAX_COLS + 1
    ∧ (m_rows m = 0 ↔ m_cols m = 0)
    ∧ (m_rows m = 0 ↔ head inp = None ∨ head inp = Some NEWLINE)
    ∧ m_cost m = 0 ∧ m_soln m = 0
    ∧ (∀ p, is_Some (get_cell m p)
            ↔ is_Some (get_cell (new_maze sizeof_cell) p))
    ∧ ∀ p, ¬ (0 ≤ p.1 < MAX_ROWS ∧ 0 ≤ p.2 < MAX_COLS) →
        get_cell m p = get_cell (new_maze sizeof_cell) p.
Proof.
  intros Hsz.
  pose proof (new_maze_fields sizeof_cell) as (Hr0 & Hc0 & Hcost0 & Hsoln0 & Hlen0).
  unfold read_maze. destruct inp as [|c inp]; cbn [scanf_char].
  { change (negb (EOF =? EOF)) with false. cbn [andb].
    exists (new_maze sizeof_cell), []. unfold MAX_ROWS, MAX_COLS.
    rewrite Hr0, Hc0.
    split; [done|]. split; [done|]. split; [lia|]. split; [lia|].
    split; [done|]. split; [split; [by left | done]|]. done. }
  change (negb (1 =? EOF)) with true. cbn [andb].
  destruct (Ascii.eqb c NEWLINE) eqn:Hc; cbn [negb].
  { apply Ascii.eqb_eq in Hc as ->.
    exists (new_maze sizeof_cell), inp. unfold MAX_ROWS, MAX_COLS.
    rewrite Hr0, Hc0.
    split; [done|]. split; [by apply suffix_cons_r|]. split; [lia|]. split; [lia|].
    split; [done|]. split; [split; [by right | done]|]. done. }
  apply Ascii.eqb_neq in Hc.
  destruct (read_row_safe (Z.to_nat MAX_ROWS) (new_maze sizeof_cell) inp c 0)
    as (m1 & rest & n & Hrun & Hn & Hf1 & Hcols1 & Hsuf & Hsome & Hframe);
    [done | lia | unfold MAX_ROWS; lia | |].
  { intros i j Hi Hj. rewrite get_cell_new_maze. cbn [fst snd].
    rewrite decide_True; [done|]. unfold MAX_ROWS, MAX_COLS in *. nia. }
  unfold NIL. rewrite Hrun. cbn [bind].
  exists (set_maze_rows n m1), rest.
  change (Z.to_nat MAX_ROWS) with (S 99) in Hcols1. cbn iota in Hcols1.
  destruct Hf1 as (_ & Hcost1 & Hsoln1 & _).
  cbn [set_maze_rows m_rows m_cols m_cost m_soln]. unfold MAX_ROWS in *.
  split; [done|]. split; [by apply suffix_cons_r|].
  split; [lia|]. split; [lia|]. split; [lia|]. split.
  { split; [lia|]. intros [[=]|[=]]. done. }
  split; [congruence|]. split; [congruence|]. split; [done|].
  intros p Hp. apply Hframe. lia.
Qed.

Lemma read_maze_stays_in_its_arrays_witness :
  (1 ≤ 24)%nat
  ∧ ∃ m rest,
      read_maze (new_maze 24) (input_of ["."; "#"]%string) = Ok (m, rest)
      ∧ suffix rest (input_of ["."; "#"]%string)
      ∧ 0 ≤ m_rows m ≤ MAX_ROWS + 1 ∧ 0 ≤ m_cols m ≤ MAX_COLS + 1
      ∧ (m_rows m = 0 ↔ m_cols m = 0)
      ∧ (m_rows m = 0 ↔ head (input_of ["."; "#"]%string) = None
                        ∨ head (input_of ["."; "#"]%string) = Some NEWLINE)
      ∧ m_cost m = 0 ∧ m_soln m = 0
      ∧ (∀ p, is_Some (get_cell m p) ↔ is_Some (get_cell (new_maze 24) p))
      ∧ ∀ p, ¬ (0 ≤ p.1 < MAX_ROWS ∧ 0 ≤ p.2 < MAX_COLS) →
          get_cell m p = get_cell (new_maze 24) p.
Proof.
  split; [lia|]. apply (read_maze_stays_in_its_arrays 24); lia.
Defined.

(** ** A last line without its newline *)

(** At the end of the input [scanf] returns [EOF], which is not zero, and
    leaves [c] alone: the row is filled with [c] up to its last cell. *)
Lemma read_cell_eof lim : ∀ m c x y,
  c ≠ NEWLINE → 0 ≤ x → 0 ≤ y → y + Z.of_nat lim < 2 ^ 30 →
  (∀ j, y ≤ j < y + Z.of_nat lim → get_cell m (x, j) = Some zero_cell) →
  ∃ m', read_cell lim m [] (x, 0) c x y = Ok (m', [], Z.of_nat lim + 1)
    ∧ (m_rows m' = m_rows m ∧ m_cols m' = m_cols m ∧ m_cost m' = m_cost m
       ∧ m_soln m' = m_soln m ∧ length (m_cells m') = length (m_cells m))
    ∧ ∀ p, get_cell m' p =
        if decide (p.1 = x ∧ y ≤ p.2 < y + Z.of_nat lim)
        then Some (fresh_cell (Z.to_nat p.1) (Z.to_nat p.2) c)
        else get_cell m p.
Proof.
  induction lim as [|lim IH]; intros m c x y Hc Hx Hy Hsmall Hzero.
  - exists m. split; [done|]. split; [done|]. intros p. rewrite decide_False; [done|lia].
  - cbn [read_cell]. rewrite (proj2 (Ascii.eqb_neq _ _) Hc). cbn [negb fst snd].
    rewrite Z.add_0_l.
    assert (Hc0 : get_cell m (x, y) = Some zero_cell) by (apply Hzero; lia).
    rewrite (read_cell_writes _ _ _ _ _ _ Hc0).
    change (Cell x y NOTVISIT _ _ c) with (Cell x y NOTVISIT 0 0 c).
    rewrite (fresh_cell_Z _ _ _ Hx Hy).
    set (m4 := put_cell m (x, y) _).
    pose proof (put_cell_fields m (x, y) (fresh_cell (Z.to_nat x) (Z.to_nat y) c)) as Hf.
    fold m4 in Hf.
    assert (Hget4 : ∀ p, get_cell m4 p
              = if decide ((x, y) = p)
                then Some (fresh_cell (Z.to_nat x) (Z.to_nat y) c)
                else get_cell m p).
    { intros p. apply (get_put _ _ _ _ _ Hc0). }
    clearbody m4. cbn [scanf_char]. change (negb (EOF =? 0)) with true.
    rewrite (proj2 (Ascii.eqb_neq _ _) Hc). cbn [negb andb].
    rewrite int_add_small by lia.
    destruct (IH m4 c x (y + 1)) as (m5 & Hrun & Hf5 & Hget5); [done | done | lia | lia | |].
    { intros j Hj. rewrite Hget4. rewrite decide_False by (intros [=]; lia).
      apply Hzero. lia. }
    rewrite Hrun. cbn [bind]. rewrite int_add_small by lia.
    exists m5. split; [do 2 f_equal; lia|]. split.
    + destruct Hf5 as (?&?&?&?&?), Hf as (?&?&?&?&?). split_and!; congruence.
    + intros p. rewrite Hget5, Hget4. destruct p as [px py]. cbn [fst snd].
      destruct (decide (px = x ∧ y ≤ py < y + Z.of_nat (S lim))) as [[-> Hr]|Hn].
      * destruct (decide (py = y)) as [->|Hne].
        -- rewrite decide_False by lia. by rewrite decide_True.
        -- by rewrite decide_True by lia.
      * rewrite decide_False by lia. rewrite decide_False; [done|].
        intros [= -> ->]. lia.
Qed.

Lemma read_cell_unterminated s : ∀ lim m c inp x y,
  c :: inp = s →
  Forall (λ a, a ≠ NEWLINE) s →
  (length s ≤ lim)%nat →
  0 ≤ x → 0 ≤ y → y + Z.of_nat lim < 2 ^ 30 →
  (∀ j, y ≤ j < y + Z.of_nat lim → get_cell m (x, j) = Some zero_cell) →
  ∃ m', read_cell lim m inp (x, 0) c x y = Ok (m', [], Z.of_nat lim + 1)
    ∧ (m_rows m' = m_rows m ∧ m_cols m' = m_cols m ∧ m_cost m' = m_cost m
       ∧ m_soln m' = m_soln m ∧ length (m_cells m') = length (m_cells m))
    ∧ ∀ p, get_cell m' p =
        match (if decide (p.1 = x ∧ y ≤ p.2) then
                 (s ++ replicate (lim - length s) (default zero (last s)))
                   !! Z.to_nat (p.2 - y)
               else None) with
        | Some t => Some (fresh_cell (Z.to_nat p.1) (Z.to_nat p.2) t)
        | None => get_cell m p
        end.
Proof.
  induction s as [|t s IH]; intros lim m c inp x y Hinp Hnl Hlim Hx Hy Hsmall Hzero;
    [done|].
  injection Hinp as -> ->. apply Forall_cons in Hnl as [Ht Hnl].
  destruct lim as [|lim]; [simpl in Hlim; lia|].
  destruct s as [|t' s].
  - (* the last character of the input *)
    destruct (read_cell_eof (S lim) m t x y) as (m' & Hrun & Hf & Hget);
      [done | done | done | lia | done |].
    exists m'. split; [done|]. split; [done|].
    intros p. rewrite Hget. cbn [app length last default].
    change (S lim - 1)%nat with (lim - 0)%nat. rewrite Nat.sub_0_r.
    change (t :: replicate lim (id t)) with (replicate (S lim) t).
    destruct p as [px py]. cbn [fst snd].
    destruct (decide (px = x ∧ y ≤ py < y + Z.of_nat (S lim))) as [[-> Hr]|Hn].
    + rewrite decide_True by lia. by rewrite lookup_replicate_2 by lia.
    + case_decide as Hd; [|done].
      assert (replicate (S lim) t !! Z.to_nat (py - y) = None) as ->; [|done].
      apply lookup_replicate_None. lia.
  - cbn [read_cell]. rewrite (proj2 (Ascii.eqb_neq _ _) Ht). cbn [negb fst snd].
    rewrite Z.add_0_l.
    assert (Hc0 : get_cell m (x, y) = Some zero_cell) by (apply Hzero; lia).
    rewrite (read_cell_writes _ _ _ _ _ _ Hc0).
    change (Cell x y NOTVISIT _ _ t) with (Cell x y NOTVISIT 0 0 t).
    rewrite (fresh_cell_Z _ _ _ Hx Hy).
    set (m4 := put_cell m (x, y) _).
    pose proof (put_cell_fields m (x, y) (fresh_cell (Z.to_nat x) (Z.to_nat y) t)) as Hf.
    fold m4 in Hf.
    assert (Hget4 : ∀ p, get_cell m4 p
              = if decide ((x, y) = p)
                then Some (fresh_cell (Z.to_nat x) (Z.to_nat y) t)
                else get_cell m p).
    { intros p. apply (get_put _ _ _ _ _ Hc0). }
    clearbody m4. cbn [scanf_char]. change (negb (1 =? 0)) with true.
    apply Forall_cons in Hnl as Hnl'. destruct Hnl' as [Ht' _].
    rewrite (proj2 (Ascii.eqb_neq _ _) Ht'). cbn [negb andb].
    rewrite int_add_small by lia.
    destruct (IH lim m4 t' s x (y + 1)) as (m5 & Hrun & Hf5 & Hget5);
      [done | done | simpl in *; lia | done | lia | lia | |].
    { intros j Hj. rewrite Hget4. rewrite decide_False by (intros [=]; lia).
      apply Hzero. lia. }
    rewrite Hrun. cbn [bind]. rewrite int_add_small by lia.
    exists m5. split; [do 2 f_equal; lia|]. split.
    + destruct Hf5 as (?&?&?&?&?), Hf as (?&?&?&?&?). split_and!; congruence.
    + intros p. rewrite Hget5, Hget4. destruct p as [px py]. cbn [fst snd].
      change (S lim - length (t :: t' :: s))%nat with (lim - length (t' :: s))%nat.
      change (last (t :: t' :: s)) with (last (t' :: s)).
      destruct (decide (px = x ∧ y ≤ py)) as [[-> Hle]|Hn].
      * destruct (decide (py = y)) as [->|Hne].
        -- rewrite decide_False by lia. rewrite Z.sub_diag. cbn.
           by rewrite decide_True.
        -- rewrite decide_True by lia.
           replace (Z.to_nat (py - y)) with (S (Z.to_nat (py - (y + 1)))) by lia.
           cbn [app lookup list_lookup].
           destruct (_ !! Z.to_nat (py - (y + 1))); [done|].
           rewrite decide_False; [done|]. intros [=]. lia.
      * rewrite decide_False by lia. rewrite decide_False; [done|].
        intros [= -> ->]. lia.
Qed.

Lemma read_row_unterminated s lim m c inp x :
  c :: inp = s →
  Forall (λ a, a ≠ NEWLINE) s →
  Z.of_nat (length s) ≤ MAX_COLS →
  0 ≤ x < Z.of_nat (length (m_cells m)) →
  x < 2 ^ 30 →
  (∀ j, 0 ≤ j < MAX_COLS → get_cell m (x, j) = Some zero_cell) →
  ∃ m', read_row (S lim) m inp c x = Ok (m', [], 1)
    ∧ m_cols m' = MAX_COLS + 1
    ∧ (m_rows m' = m_rows m ∧ m_cost m' = m_cost m ∧ m_soln m' = m_soln m
       ∧ length (m_cells m') = length (m_cells m))
    ∧ ∀ p, get_cell m' p =
        match (if decide (p.1 = x ∧ 0 ≤ p.2) then
                 (s ++ replicate (Z.to_nat MAX_COLS - length s)
                         (default zero (last s))) !! Z.to_nat p.2
               else None) with
        | Some t => Some (fresh_cell (Z.to_nat p.1) (Z.to_nat p.2) t)
        | None => get_cell m p
        end.
Proof.
  intros Hinp Hnl Hlen Hx Hsmall Hzero.
  destruct (read_cell_unterminated s (Z.to_nat MAX_COLS) m c inp x 0)
    as (m1 & Hrun1 & Hf1 & Hget1);
    [done | done | lia | lia | done | unfold MAX_COLS; lia | |].
  { intros j Hj. apply Hzero. lia. }
  cbn [read_row]. rewrite row_ptr_Ok by done. cbn [bind]. unfold NIL.
  rewrite Hrun1. cbn [bind scanf_char]. change (negb (EOF =? EOF)) with false.
  cbn iota. eexists. split; [done|]. split; [cbn; unfold MAX_COLS; lia|].
  split; [cbn; tauto|].
  intros p. change (get_cell (set_maze_cols _ m1) p) with (get_cell m1 p).
  rewrite Hget1. by rewrite Z.sub_0_r.
Qed.

Lemma laid_over_nil mb0 : laid_over (maze_of_rows []) mb0 mb0.
Proof. intros p. rewrite get_cell_maze_of_rows. unfold char_at. by case_decide. Qed.

Lemma laid_over_snoc l s mb0 m m' :
  laid_over (maze_of_rows l) mb0 m →
  (∀ p, get_cell m' p =
     match (if decide (p.1 = Z.of_nat (length l) ∧ 0 ≤ p.2)
            then list_ascii_of_string s !! Z.to_nat p.2 else None) with
     | Some t => Some (fresh_cell (Z.to_nat p.1) (Z.to_nat p.2) t)
     | None => get_cell m p
     end) →
  laid_over (maze_of_rows (l ++ [s])) mb0 m'.
Proof.
  intros Hl Hrow p. rewrite Hrow, Hl, !get_cell_maze_of_rows. unfold char_at.
  destruct p as [px py]. cbn [fst snd].
  destruct (decide (0 ≤ px ∧ 0 ≤ py)) as [[Hpx Hpy]|Hneg].
  2:{ rewrite decide_False by lia. done. }
  destruct (decide (px = Z.of_nat (length l) ∧ 0 ≤ py)) as [[-> Hy]|Hn].
  - rewrite Nat2Z.id.
    rewrite lookup_app_r by done. rewrite Nat.sub_diag. cbn.
    destruct (list_ascii_of_string s !! Z.to_nat py); [done|].
    by rewrite (proj2 (lookup_ge_None l (length l))).
  - destruct (decide (Z.to_nat px < length l)%nat) as [Hlt|Hge].
    + by rewrite lookup_app_l.
    + rewrite lookup_app_r by lia.
      rewrite (proj2 (lookup_ge_None l (Z.to_nat px))) by lia.
      replace (Z.to_nat px - length l)%nat with (S (Z.to_nat px - length l - 1)) by lia.
      done.
Qed.

Lemma text_okb_app l s :
  text_okb (l ++ [s]) = true →
  (l = [] ∨ text_okb l = true)
  ∧ Z.of_nat (length l) + 1 ≤ MAX_ROWS
  ∧ Forall (λ a, a ≠ NEWLINE) (list_ascii_of_string s)
  ∧ Z.of_nat (length (list_ascii_of_string s)) ≤ MAX_COLS.
Proof.
  unfold text_okb. rewrite !andb_true_iff, forallb_app, length_app.
  cbn [forallb length]. rewrite !andb_true_iff.
  intros [[Hfirst Hlen] [Hl [Hs _]]].
  apply line_okb_spec in Hs as [Hs1 Hs2].
  split_and!; try done; try lia.
  destruct l as [|s0 l]; [by left|right].
  cbn [app] in Hfirst. cbn [length] in *. rewrite Hfirst, Hl.
  split_and!; [done | lia | done].
Qed.

(** X12. When the last line of the text is not closed by a newline,
    [scanf] returns [EOF] at its end, which [read_cell] takes for a
    character read: the last row is filled up to [MAX_COLS] cells with its
    last character and the maze is given [MAX_COLS + 1] columns. *)
Theorem missing_final_newline_pads_the_last_row (sizeof_cell : nat)
    (l : list string) (s : string) :
  (1 ≤ sizeof_cell)%nat → text_okb (l ++ [s]) = true → s ≠ EmptyString →
  ∃ m, read_maze (new_maze sizeof_cell) (input_of l ++ list_ascii_of_string s)
       = Ok (m, [])
    ∧ m_rows m = Z.of_nat (length l) + 1
    ∧ m_cols m = MAX_COLS + 1
    ∧ laid_over (maze_of_rows (l ++ [pad_line s])) (new_maze sizeof_cell) m.
Proof.
  intros Hsz Hok Hs.
  destruct (text_okb_app l s Hok) as (Hl & Hlen & Hnl & Hslen).
  pose proof (new_maze_fields sizeof_cell) as (Hr0 & Hc0 & Hcost0 & Hsoln0 & Hlen0).
  assert (Hzero : ∀ i j, 0 ≤ i < MAX_ROWS → 0 ≤ j < MAX_COLS →
            get_cell (new_maze sizeof_cell) (i, j) = Some zero_cell).
  { intros i j Hi Hj. rewrite get_cell_new_maze. cbn [fst snd].
    rewrite decide_True; [done|]. unfold MAX_COLS in *. nia. }
  assert (Hpad : list_ascii_of_string (pad_line s)
            = list_ascii_of_string s
              ++ replicate (Z.to_nat MAX_COLS - length (list_ascii_of_string s))
                   (default zero (last (list_ascii_of_string s)))).
  { unfold pad_line. rewrite list_ascii_of_string_of_list_ascii.
    by rewrite length_list_ascii_of_string. }
  destruct (list_ascii_of_string s) as [|c' inp'] eqn:Hchars.
  { destruct s; [done | discriminate]. }
  destruct Hl as [->|Hl].
  - (* the only line *)
    cbn [input_of fmap list_fmap concat app length] in *.
    apply Forall_cons in Hnl as Hnl'. destruct Hnl' as [Hc' _].
    destruct (read_row_unterminated (c' :: inp') 99 (new_maze sizeof_cell) c' inp' 0)
      as (m' & Hrun & Hcols & Hf & Hget); [done | done | done | lia | lia | |].
    { intros j Hj. apply Hzero; unfold MAX_ROWS; lia. }
    exists (set_maze_rows 1 m'). split_and!; [|done|done|].
    + unfold read_maze. cbn [scanf_char]. change (negb (1 =? EOF)) with true.
      rewrite (proj2 (Ascii.eqb_neq _ _) Hc'). cbn [negb andb].
      change (Z.to_nat MAX_ROWS) with (S 99). unfold NIL. by rewrite Hrun.
    + apply (laid_over_snoc [] _ _ (new_maze sizeof_cell)); [apply laid_over_nil|].
      intros p. change (get_cell (set_maze_rows 1 m') p) with (get_cell m' p).
      by rewrite Hget, Hpad.
  - destruct (text_okb_spec l Hl) as ((c & s0 & l' & -> & Hc) & _ & Hall).
    set (l := String c s0 :: l') in *.
    assert (Hinp : input_of l
              = c :: (list_ascii_of_string s0 ++ NEWLINE
                        :: concat ((λ s, s ++ [NEWLINE])
                                     <$> (list_ascii_of_string <$> l')))).
    { rewrite input_of_lines. subst l.
      cbn [fmap list_fmap concat list_ascii_of_string]. by rewrite <- app_assoc. }
    destruct (read_row_lines (list_ascii_of_string <$> l) (Z.to_nat MAX_ROWS)
                (new_maze sizeof_cell) c
                (list_ascii_of_string s0 ++ NEWLINE
                   :: concat ((λ s, s ++ [NEWLINE]) <$> (list_ascii_of_string <$> l'))
                   ++ c' :: inp')
                0 (c' :: inp'))
      as (m1 & Hf1 & Hcols1 & Hget1 & Hrun1).
    + done.
    + rewrite <- (input_of_lines l), Hinp. cbn [app]. by rewrite <- app_assoc.
    + done.
    + rewrite length_fmap. lia.
    + done.
    + rewrite length_fmap. lia.
    + rewrite length_fmap. unfold MAX_ROWS in *. lia.
    + intros i j Hi Hj. rewrite length_fmap in Hi. apply Hzero; [lia | done].
    + rewrite length_fmap in Hrun1.
      assert (Hl1 : laid_over (maze_of_rows l) (new_maze sizeof_cell) m1).
      { intros p. rewrite Hget1, get_cell_maze_of_rows. unfold char_at.
        rewrite Z.sub_0_r, list_lookup_fmap.
        case_decide; [|done].
        destruct (l !! Z.to_nat p.1) as [s1|]; [|done]. cbn.
        by destruct (list_ascii_of_string s1 !! Z.to_nat p.2). }
      destruct (Z.to_nat MAX_ROWS - length l)%nat as [|lim] eqn:Hlim;
        [unfold MAX_ROWS in *; lia|].
      destruct (read_row_unterminated (c' :: inp') lim m1 c' inp'
                  (0 + Z.of_nat (length l)))
        as (m' & Hrun & Hcols & Hf & Hget);
        [done | done | done | | unfold MAX_ROWS in *; lia | |].
      { destruct Hf1 as (_ & _ & _ & ->). unfold MAX_ROWS in *. lia. }
      { intros j Hj. rewrite Hget1. cbn [fst snd].
        rewrite decide_True by lia. rewrite Z.sub_0_r, Z.add_0_l, Nat2Z.id.
        rewrite (proj2 (lookup_ge_None _ _)) by (by rewrite length_fmap).
        apply Hzero; unfold MAX_ROWS in *; lia. }
      exists (set_maze_rows (Z.of_nat (length l) + 1) m').
      split_and!; [|done|done|].
      * unfold read_maze. rewrite Hinp. cbn [app scanf_char].
        change (negb (1 =? EOF)) with true.
        rewrite (proj2 (Ascii.eqb_neq _ _) Hc). cbn [negb andb]. unfold NIL.
        rewrite <- app_assoc. cbn [app].
        by rewrite (Hrun1 _ _ _ Hrun) by lia.
      * apply (laid_over_snoc l _ _ m1); [done|].
        intros p. change (get_cell (set_maze_rows _ m') p) with (get_cell m' p).
        rewrite Hget, Hpad. by rewrite Z.add_0_l.
Qed.

Lemma missing_final_newline_pads_the_last_row_witness :
  (1 ≤ 24)%nat ∧ text_okb (["#."%string] ++ [".#"%string]) = true
  ∧ ".#"%string ≠ EmptyString
  ∧ ∃ m, read_maze (new_maze 24)
           (input_of ["#."%string] ++ list_ascii_of_string ".#")
         = Ok (m, [])
      ∧ m_rows m = Z.of_nat (length ["#."%string]) + 1
      ∧ m_cols m = MAX_COLS + 1
      ∧ laid_over (maze_of_rows (["#."%string] ++ [pad_line ".#"]))
          (new_maze 24) m.
Proof.
  split; [lia|]. split; [reflexivity|]. split; [discriminate|].
  apply (missing_final_newline_pads_the_last_row 24);
    [lia | reflexivity | discriminate].
Defined.

(** ** What the traversal needs from the maze *)

Lemma store_shape m p f m' :
  store m p f = Ok m' →
  m_rows m' = m_rows m ∧ m_cols m' = m_cols m
  ∧ length (m_cells m') = length (m_cells m).
Proof.
  intros (c & _ & ->)%store_Ok.
  destruct (put_cell_fields m p (f c)) as (? & ? & _ & _ & ?). done.
Qed.

Lemma attempt_shape m q k x y c m' q' :
  attempt m q k x y c = Ok (m', q') →
  m_rows m' = m_rows m ∧ m_cols m' = m_cols m
  ∧ length (m_cells m') = length (m_cells m).
Proof.
  unfold attempt. intros H. apply bind_Ok in H as (cell & _ & H).
  destruct (is_path cell); [|by injection H as <- <-].
  apply visit_cell_cases in H as (cell' & _ & [(_ & -> & _)|(_ & -> & _)]);
    match goal with
    | |- context [put_cell m ?p ?c] =>
        destruct (put_cell_fields m p c) as (? & ? & _ & _ & ?)
    end; done.
Qed.

Lemma expand_shape m q k node m' q' :
  expand m q k node = Ok (m', q') →
  m_rows m' = m_rows m ∧ m_cols m' = m_cols m
  ∧ length (m_cells m') = length (m_cells m).
Proof.
  unfold expand, flood_right, flood_down, flood_left, flood_up. intros H.
  apply bind_Ok in H as (c & _ & H).
  apply bind_Ok in H as ([m1 q1] & H1 & H).
  apply bind_Ok in H as ([m2 q2] & H2 & H).
  apply bind_Ok in H as ([m3 q3] & H3 & H).
  assert (S1 : m_rows m1 = m_rows m ∧ m_cols m1 = m_cols m
               ∧ length (m_cells m1) = length (m_cells m)).
  { match type of H1 with (if ?g then _ else _) = _ => destruct g end;
      [by apply attempt_shape in H1 | by injection H1 as <- <-]. }
  assert (S2 : m_rows m2 = m_rows m1 ∧ m_cols m2 = m_cols m1
               ∧ length (m_cells m2) = length (m_cells m1)).
  { match type of H2 with (if ?g then _ else _) = _ => destruct g end;
      [by apply attempt_shape in H2 | by injection H2 as <- <-]. }
  assert (S3 : m_rows m3 = m_rows m2 ∧ m_cols m3 = m_cols m2
               ∧ length (m_cells m3) = length (m_cells m2)).
  { match type of H3 with (if ?g then _ else _) = _ => destruct g end;
      [by apply attempt_shape in H3 | by injection H3 as <- <-]. }
  assert (S4 : m_rows m' = m_rows m3 ∧ m_cols m' = m_cols m3
               ∧ length (m_cells m') = length (m_cells m3)).
  { match type of H with (if ?g then _ else _) = _ => destruct g end;
      [by apply attempt_shape in H | by injection H as <- <-]. }
  destruct S1 as (?&?&?), S2 as (?&?&?), S3 as (?&?&?), S4 as (?&?&?).
  split_and!; congruence.
Qed.

Lemma recursive_flood_shape fuel : ∀ m q i m' q',
  recursive_flood fuel m q i = Ok (m', q') →
  m_rows m' = m_rows m ∧ m_cols m' = m_cols m
  ∧ length (m_cells m') = length (m_cells m).
Proof.
  induction fuel as [|fuel IH]; intros m q i m' q' H.
  - cbn [recursive_flood] in H. destruct (q !! i); [done|]. by injection H as <- <-.
  - rewrite recursive_flood_unfold in H. destruct (q !! i) as [node|].
    + apply bind_Ok in H as ([m1 q1] & H1 & H).
      apply expand_shape in H1 as (?&?&?). apply IH in H as (?&?&?).
      split_and!; congruence.
    + by injection H as <- <-.
Qed.

Lemma find_entries_walk_shape lim : ∀ m cell q m' q',
  find_entries_walk lim m cell q = Ok (m', q') →
  m_rows m' = m_rows m ∧ m_cols m' = m_cols m
  ∧ length (m_cells m') = length (m_cells m).
Proof.
  induction lim as [|lim IH]; intros m cell q m' q' H.
  - by injection H as <- <-.
  - cbn [find_entries_walk] in H.
    apply bind_Ok in H as (c & _ & H).
    apply bind_Ok in H as ([m1 q1] & H1 & H).
    apply IH in H as (?&?&?).
    destruct (is_path c).
    + apply bind_Ok in H1 as (ma & (?&?&?)%store_shape & Hrun1).
      apply bind_Ok in Hrun1 as (mb & (?&?&?)%store_shape & Hrun2).
      injection Hrun2 as <- <-. split_and!; congruence.
    + injection H1 as <- <-. done.
Qed.

Lemma flood_maze_shape fuel m m' q' :
  flood_maze fuel m = Ok (m', q') →
  0 ≤ m_cols m
  ∧ m_rows m' = m_rows m ∧ m_cols m' = m_cols m
  ∧ length (m_cells m') = length (m_cells m).
Proof.
  unfold flood_maze, find_entries. intros H.
  apply bind_Ok in H as (row0 & _ & H).
  apply bind_Ok in H as ([m1 q1] & H1 & H).
  destruct (m_cols m <? 0) eqn:Hc; [done|].
  apply find_entries_walk_shape in H1 as (?&?&?).
  apply recursive_flood_shape in H as (?&?&?).
  split_and!; [lia | congruence..].
Qed.

Lemma get_cell_row m p c :
  get_cell m p = Some c → 0 ≤ p.1 < Z.of_nat (length (m_cells m)).
Proof.
  intros Hc. pose proof (get_cell_nonneg _ _ _ Hc) as [Hx _].
  revert Hc. unfold get_cell. case_decide; [|done].
  destruct (m_cells m !! Z.to_nat p.1) as [row|] eqn:Hrow; [|done].
  intros _. apply lookup_lt_Some in Hrow. lia.
Qed.

Lemma traverse_maze_Ok_rows fuel m m' :
  - 2 ^ 31 < m_rows m < 2 ^ 31 →
  traverse_maze fuel m = Ok m' →
  0 ≤ m_cols m
  ∧ (1 ≤ m_cols m → 1 ≤ m_rows m ≤ Z.of_nat (length (m_cells m))).
Proof.
  intros Hr H. unfold traverse_maze in H.
  apply bind_Ok in H as ([m2 q2] & Hflood & H).
  apply bind_Ok in H as (ex & Hex & _).
  apply flood_maze_shape in Hflood as (Hc & Hr2 & Hc2 & Hl2).
  split; [done|]. intros Hcols.
  unfold select_exit, find_exit in Hex. rewrite Hr2, Hc2 in Hex.
  replace (m_cols m <? 0) with false in Hex by lia.
  destruct (Z.to_nat (m_cols m)) as [|lim] eqn:Hlim; [lia|].
  cbn [find_exit_walk] in Hex. apply bind_Ok in Hex as (c & Hload & _).
  apply load_Ok, get_cell_row in Hload. cbn [fst] in Hload.
  rewrite int_sub_small in Hload by lia. lia.
Qed.

(** With no column nothing is read: no entrance is looked for, the queue
    stays empty, and [find_exit] returns NULL without following the row
    pointer it is given. *)
Lemma traverse_maze_no_column fuel m :
  m_cols m = 0 → (1 ≤ length (m_cells m))%nat → traverse_maze fuel m = Ok m.
Proof.
  intros Hc Hlen.
  unfold traverse_maze, flood_maze, find_entries, select_exit, find_exit.
  rewrite row_ptr_Ok by lia. cbn [bind]. rewrite Hc.
  change (Z.to_nat 0) with 0%nat.
  cbn [Z.ltb Z.compare find_entries_walk bind].
  assert (Hfl : recursive_flood fuel m [] 0 = Ok (m, [])) by by destruct fuel.
  rewrite Hfl. cbn [bind]. rewrite Hc. change (Z.to_nat 0) with 0%nat.
  by cbn [Z.ltb Z.compare find_exit_walk bind].
Qed.

(** X13. [traverse_maze] ends normally only on a maze whose number of
    columns is not negative and which, when it has a column, has at least
    one row and no more rows than row pointers: [find_exit] then reads the
    first cell of the row at index [rows - 1] whatever the flood has found.
    With no column it follows no row pointer, and the maze is returned as
    it is. *)
Theorem traversal_needs_its_last_row (fuel : nat) (m m' : maze_t) :
  - 2 ^ 31 < m_rows m < 2 ^ 31 →
  traverse_maze fuel m = Ok m' →
  0 ≤ m_cols m
  ∧ (1 ≤ m_cols m → 1 ≤ m_rows m ≤ Z.of_nat (length (m_cells m)))
  ∧ (m_cols m = 0 → m' = m).
Proof.
  intros Hr H. destruct (traverse_maze_Ok_rows fuel m m' Hr H) as [Hc Hrows].
  split; [done|]. split; [done|]. intros Hc0.
  assert (Hlen : (1 ≤ length (m_cells m))%nat).
  { unfold traverse_maze, flood_maze in H.
    apply bind_Ok in H as ([m2 q2] & Hflood & _).
    apply bind_Ok in Hflood as (row0 & Hrow & _).
    unfold row_ptr in Hrow. case_decide; [lia | done]. }
  rewrite (traverse_maze_no_column fuel m Hc0 Hlen) in H. by injection H.
Qed.

Lemma traversal_needs_its_last_row_witness :
  - 2 ^ 31 < m_rows scenario_a < 2 ^ 31
  ∧ traverse_maze 18 scenario_a
    = Ok (Maze 3 3 2 1
            [[Cell 0 0 0 1 1 PATH; Cell 0 1 (-1) 0 0 WALL; Cell 0 2 0 1 0 PATH];
             [Cell 1 0 1 1 1 PATH; Cell 1 1 2 1 0 PATH; Cell 1 2 1 1 0 PATH];
             [Cell 2 0 2 1 1 PATH; Cell 2 1 (-1) 0 0 WALL; Cell 2 2 2 1 0 PATH]])
  ∧ 0 ≤ m_cols scenario_a
  ∧ (1 ≤ m_cols scenario_a →
     1 ≤ m_rows scenario_a ≤ Z.of_nat (length (m_cells scenario_a)))
  ∧ (m_cols scenario_a = 0 →
     Maze 3 3 2 1
       [[Cell 0 0 0 1 1 PATH; Cell 0 1 (-1) 0 0 WALL; Cell 0 2 0 1 0 PATH];
        [Cell 1 0 1 1 1 PATH; Cell 1 1 2 1 0 PATH; Cell 1 2 1 1 0 PATH];
        [Cell 2 0 2 1 1 PATH; Cell 2 1 (-1) 0 0 WALL; Cell 2 2 2 1 0 PATH]]
     = scenario_a).
Proof.
  split; [vm_compute; split; reflexivity|]. split; [reflexivity|].
  apply (traversal_needs_its_last_row 18 scenario_a
           (Maze 3 3 2 1
              [[Cell 0 0 0 1 1 PATH; Cell 0 1 (-1) 0 0 WALL; Cell 0 2 0 1 0 PATH];
               [Cell 1 0 1 1 1 PATH; Cell 1 1 2 1 0 PATH; Cell 1 2 1 1 0 PATH];
               [Cell 2 0 2 1 1 PATH; Cell 2 1 (-1) 0 0 WALL; Cell 2 2 2 1 0 PATH]]));
    [vm_compute; split; reflexivity | reflexivity].
Defined.

(** X14. On an input that is empty or starts with a newline [read_maze]
    reads at most that newline and leaves the maze as allocated, without
    rows and columns.  The traversal then reads no cell: the row pointer
    at index -1 is passed to [find_exit], which does not follow it, and the
    maze is returned as it is.  The program prints the report of three
    stages with empty pictures and returns [EXIT_SUCCESS]. *)
Theorem empty_input_gives_an_empty_report (sizeof_cell : nat)
    (inp : list ascii) (fuel : nat) :
  head inp = None ∨ head inp = Some NEWLINE →
  read_maze (new_maze sizeof_cell) inp = Ok (new_maze sizeof_cell, tail inp)
  ∧ m_rows (new_maze sizeof_cell) = 0 ∧ m_cols (new_maze sizeof_cell) = 0
  ∧ traverse_maze fuel (new_maze sizeof_cell) = Ok (new_maze sizeof_cell)
  ∧ main sizeof_cell fuel inp
    = Ok (unlines
            (list_ascii_of_string
               <$> ["Stage 1"; "======="; "maze has 0 rows and 0 columns"; "";
                    "Stage 2"; "======="; "maze has no solution"; "";
                    "Stage 3"; "======="; "maze has no solution"]%string),
          EXIT_SUCCESS).
Proof.
  intros Hinp.
  pose proof (new_maze_fields sizeof_cell) as (Hr0 & Hc0 & _ & Hs0 & Hlen0).
  assert (Hread : read_maze (new_maze sizeof_cell) inp
                  = Ok (new_maze sizeof_cell, tail inp)).
  { destruct inp as [|c inp]; [done|]. destruct Hinp as [[=]|[= ->]].
    unfold read_maze. cbn [scanf_char tail]. by rewrite Ascii.eqb_refl. }
  assert (Htr : traverse_maze fuel (new_maze sizeof_cell)
                = Ok (new_maze sizeof_cell)).
  { apply traverse_maze_no_column; [done | unfold MAX_ROWS in *; lia]. }
  split; [done|]. split; [done|]. split; [done|]. split; [done|].
  unfold main. rewrite Hread. cbn [bind]. rewrite Htr. cbn [bind].
  unfold print_maze, print_stage_1, print_stage_2, print_stage_3.
  rewrite Hr0, Hc0, Hs0. reflexivity.
Qed.

Lemma empty_input_gives_an_empty_report_witness :
  (head [NEWLINE; PATH; NEWLINE] = None
   ∨ head [NEWLINE; PATH; NEWLINE] = Some NEWLINE)
  ∧ read_maze (new_maze 24) [NEWLINE; PATH; NEWLINE]
    = Ok (new_maze 24, tail [NEWLINE; PATH; NEWLINE])
  ∧ m_rows (new_maze 24) = 0 ∧ m_cols (new_maze 24) = 0
  ∧ traverse_maze 10 (new_maze 24) = Ok (new_maze 24)
  ∧ main 24 10 [NEWLINE; PATH; NEWLINE]
    = Ok (unlines
            (list_ascii_of_string
               <$> ["Stage 1"; "======="; "maze has 0 rows and 0 columns"; "";
                    "Stage 2"; "======="; "maze has no solution"; "";
                    "Stage 3"; "======="; "maze has no solution"]%string),
          EXIT_SUCCESS).
Proof.
  split; [right; reflexivity|].
  apply (empty_input_gives_an_empty_report 24 [NEWLINE; PATH; NEWLINE] 10).
  right; reflexivity.
Defined.

(** X15. When the input goes on after [MAX_ROWS] lines, [read_row] reads
    one more character and counts one more row: the maze is given
    [MAX_ROWS + 1] rows for [MAX_ROWS] rows of memory, it holds the first
    [MAX_ROWS] lines, and no traversal of it ends normally. *)
Theorem input_beyond_MAX_ROWS_lines (sizeof_cell : nat) (l : list string)
    (more : list ascii) :
  (1 ≤ sizeof_cell)%nat → text_okb l = true →
  Z.of_nat (length l) = MAX_ROWS → more ≠ [] →
  ∃ m, read_maze (new_maze sizeof_cell) (input_of l ++ more)
       = Ok (m, tail more)
    ∧ m_rows m = MAX_ROWS + 1
    ∧ Z.of_nat (length (m_cells m)) = MAX_ROWS
    ∧ laid_over (maze_of_rows l) (new_maze sizeof_cell) m
    ∧ ∀ fuel m', traverse_maze fuel m ≠ Ok m'.
Proof.
  intros Hsz Hok Hlen Hmore.
  destruct more as [|c' inp']; [done|]. cbn [tail].
  destruct (text_okb_spec l Hok) as ((c & s & l' & -> & Hc) & _ & Hall).
  pose proof (new_maze_fields sizeof_cell) as (Hr0 & Hc0 & Hcost0 & Hsoln0 & Hlen0).
  set (l := String c s :: l') in *.
  assert (Hinp : input_of l
            = c :: (list_ascii_of_string s ++ NEWLINE
                      :: concat ((λ s, s ++ [NEWLINE])
                                   <$> (list_ascii_of_string <$> l')))).
  { rewrite input_of_lines. subst l. cbn [fmap list_fmap concat list_ascii_of_string].
    by rewrite <- app_assoc. }
  destruct (read_row_lines (list_ascii_of_string <$> l) (Z.to_nat MAX_ROWS)
              (new_maze sizeof_cell) c
              (list_ascii_of_string s ++ NEWLINE
                 :: concat ((λ s, s ++ [NEWLINE]) <$> (list_ascii_of_string <$> l'))
                 ++ c' :: inp')
              0 (c' :: inp'))
    as (m1 & Hf1 & Hcols1 & Hget1 & Hrun1).
  - done.
  - rewrite <- (input_of_lines l), Hinp. cbn [app]. by rewrite <- app_assoc.
  - done.
  - rewrite length_fmap. lia.
  - done.
  - rewrite length_fmap. lia.
  - rewrite length_fmap. unfold MAX_ROWS in *. lia.
  - intros i j Hi Hj. rewrite get_cell_new_maze. cbn [fst snd].
    rewrite length_fmap in Hi. rewrite decide_True; [done|].
    unfold MAX_COLS in *. nia.
  - rewrite length_fmap in Hrun1.
    replace (Z.to_nat MAX_ROWS - length l)%nat with 0%nat in Hrun1 by lia.
    specialize (Hrun1 m1 inp' 1 eq_refl ltac:(lia)).
    destruct Hf1 as (Hr1 & Hcost1 & Hsoln1 & Hlen1).
    exists (set_maze_rows (Z.of_nat (length l) + 1) m1). split_and!.
    + unfold read_maze. rewrite Hinp. cbn [app scanf_char].
      change (negb (1 =? EOF)) with true.
      rewrite (proj2 (Ascii.eqb_neq _ _) Hc). cbn [negb andb]. unfold NIL.
      rewrite <- app_assoc. cbn [app]. by rewrite Hrun1.
    + cbn [set_maze_rows m_rows]. lia.
    + cbn [set_maze_rows m_cells]. by rewrite Hlen1.
    + intros p. change (get_cell (set_maze_rows _ m1) p) with (get_cell m1 p).
      rewrite Hget1, get_cell_maze_of_rows. unfold char_at.
      rewrite Z.sub_0_r, list_lookup_fmap.
      case_decide; [|done].
      destruct (l !! Z.to_nat p.1) as [s1|]; [|done]. cbn.
      by destruct (list_ascii_of_string s1 !! Z.to_nat p.2).
    + intros fuel m' Hrun.
      apply traverse_maze_Ok_rows in Hrun as [_ Hrows];
        cbn [set_maze_rows m_rows m_cols m_cells] in *; unfold MAX_ROWS in *;
        lia.
Qed.

Lemma input_beyond_MAX_ROWS_lines_witness :
  (1 ≤ 24)%nat ∧ text_okb (replicate 100 "."%string) = true
  ∧ Z.of_nat (length (replicate 100 "."%string)) = MAX_ROWS
  ∧ [PATH; NEWLINE] ≠ []
  ∧ ∃ m, read_maze (new_maze 24)
           (input_of (replicate 100 "."%string) ++ [PATH; NEWLINE])
         = Ok (m, tail [PATH; NEWLINE])
      ∧ m_rows m = MAX_ROWS + 1
      ∧ Z.of_nat (length (m_cells m)) = MAX_ROWS
      ∧ laid_over (maze_of_rows (replicate 100 "."%string)) (new_maze 24) m
      ∧ ∀ fuel m', traverse_maze fuel m ≠ Ok m'.
Proof.
  split; [lia|]. split; [vm_compute; reflexivity|].
  split; [vm_compute; reflexivity|]. split; [discriminate|].
  apply (input_beyond_MAX_ROWS_lines 24);
    [lia | vm_compute; reflexivity | vm_compute; reflexivity | discriminate].
Defined.

(** ** The traversal of a grid inside a larger memory

    The traversal of the grid [ms] goes through the cells of [ms] only, so
    it runs in the same way on a memory that holds [ms] and leaves the rest
    of that memory alone. *)

Section window.
Context (mb0 : maze_t).

Lemma window_load ms mb p c :
  window ms mb0 mb → load ms p = Ok c → load mb p = Ok c.
Proof.
  intros Hw Hc%load_Ok. apply load_Ok. by rewrite (w_cells _ _ _ Hw), Hc.
Qed.

Lemma window_store ms mb p f ms' :
  window ms mb0 mb → store ms p f = Ok ms' →
  ∃ mb', store mb p f = Ok mb' ∧ window ms' mb0 mb'.
Proof.
  intros Hw (c & Hc & ->)%store_Ok.
  assert (Hcb : get_cell mb p = Some c) by by rewrite (w_cells _ _ _ Hw), Hc.
  exists (put_cell mb p (f c)). split; [by apply store_Ok; eauto|].
  destruct (put_cell_fields ms p (f c)) as (?&?&?&?&?),
           (put_cell_fields mb p (f c)) as (?&?&?&?&?), Hw.
  split; try congruence.
  intros p'. rewrite (get_put _ _ _ _ _ Hc), (get_put _ _ _ _ _ Hcb).
  by case_decide.
Qed.

Lemma window_row_ptr ms mb x r :
  window ms mb0 mb → row_ptr ms x = Ok r → row_ptr mb x = Ok r.
Proof.
  intros Hw. unfold row_ptr. case_decide as Hx; [|done]. intros [= <-].
  pose proof (w_len _ _ _ Hw). by rewrite decide_True by lia.
Qed.

Lemma window_visit_cell ms mb q k x y cost ms' q' :
  window ms mb0 mb → visit_cell ms q k x y cost = Ok (ms', q') →
  ∃ mb', visit_cell mb q k x y cost = Ok (mb', q') ∧ window ms' mb0 mb'.
Proof.
  intros Hw H. unfold visit_cell in *.
  apply bind_Ok in H as (m1 & H1 & H).
  destruct (window_store _ _ _ _ _ Hw H1) as (mb1 & -> & Hw1). cbn [bind].
  apply bind_Ok in H as (c & Hc & H).
  rewrite (window_load _ _ _ _ Hw1 Hc). cbn [bind].
  destruct ((c_cost c <? NIL) || (cost <? c_cost c)).
  - apply bind_Ok in H as (m2 & H2 & H).
    destruct (window_store _ _ _ _ _ Hw1 H2) as (mb2 & -> & Hw2). cbn [bind].
    injection H as <- <-. eauto.
  - injection H as <- <-. eauto.
Qed.

Lemma window_attempt ms mb q k x y cost ms' q' :
  window ms mb0 mb → attempt ms q k x y cost = Ok (ms', q') →
  ∃ mb', attempt mb q k x y cost = Ok (mb', q') ∧ window ms' mb0 mb'.
Proof.
  intros Hw H. unfold attempt in *.
  apply bind_Ok in H as (c & Hc & H).
  rewrite (window_load _ _ _ _ Hw Hc). cbn [bind].
  destruct (is_path c); [by eapply window_visit_cell|].
  injection H as <- <-. eauto.
Qed.

Lemma window_guarded (g : bool) ms mb q k x y cost ms' q' :
  window ms mb0 mb →
  (if g then attempt ms q k x y cost else Ok (ms, q)) = Ok (ms', q') →
  ∃ mb', (if g then attempt mb q k x y cost else Ok (mb, q)) = Ok (mb', q')
         ∧ window ms' mb0 mb'.
Proof.
  intros Hw H. destruct g; [by eapply window_attempt|].
  injection H as <- <-. eauto.
Qed.

Lemma window_expand ms mb q k node ms' q' :
  window ms mb0 mb → expand ms q k node = Ok (ms', q') →
  ∃ mb', expand mb q k node = Ok (mb', q') ∧ window ms' mb0 mb'.
Proof.
  intros Hw H. unfold expand, flood_right, flood_down, flood_left, flood_up in *.
  apply bind_Ok in H as (c & Hc & H).
  rewrite (window_load _ _ _ _ Hw Hc). cbn [bind].
  apply bind_Ok in H as ([m1 q1] & H1 & H).
  rewrite <- (w_cols _ _ _ Hw) in H1.
  destruct (window_guarded _ _ _ _ _ _ _ _ _ _ Hw H1) as (mb1 & E1 & Hw1).
  unfold attempt in E1. rewrite E1. cbn [bind].
  apply bind_Ok in H as ([m2 q2] & H2 & H).
  rewrite <- (w_rows _ _ _ Hw1) in H2.
  destruct (window_guarded _ _ _ _ _ _ _ _ _ _ Hw1 H2) as (mb2 & E2 & Hw2).
  unfold attempt in E2. rewrite E2. cbn [bind].
  apply bind_Ok in H as ([m3 q3] & H3 & H).
  destruct (window_guarded _ _ _ _ _ _ _ _ _ _ Hw2 H3) as (mb3 & E3 & Hw3).
  unfold attempt in E3. rewrite E3. cbn [bind].
  by apply (window_guarded _ _ _ _ _ _ _ _ _ _ Hw3 H).
Qed.

Lemma window_recursive_flood fuel : ∀ ms mb q i ms' q',
  window ms mb0 mb → recursive_flood fuel ms q i = Ok (ms', q') →
  ∃ mb', recursive_flood fuel mb q i = Ok (mb', q') ∧ window ms' mb0 mb'.
Proof.
  induction fuel as [|fuel IH]; intros ms mb q i ms' q' Hw H.
  - cbn [recursive_flood] in *. destruct (q !! i); [done|].
    injection H as <- <-. eauto.
  - rewrite recursive_flood_unfold in *. destruct (q !! i) as [node|].
    + apply bind_Ok in H as ([m1 q1] & H1 & H).
      destruct (window_expand _ _ _ _ _ _ _ Hw H1) as (mb1 & -> & Hw1). cbn [bind].
      by eapply IH.
    + injection H as <- <-. eauto.
Qed.

Lemma window_find_entries_walk lim : ∀ ms mb cell q ms' q',
  window ms mb0 mb → find_entries_walk lim ms cell q = Ok (ms', q') →
  ∃ mb', find_entries_walk lim mb cell q = Ok (mb', q') ∧ window ms' mb0 mb'.
Proof.
  induction lim as [|lim IH]; intros ms mb cell q ms' q' Hw H.
  - injection H as <- <-. eauto.
  - cbn [find_entries_walk] in *.
    apply bind_Ok in H as (c & Hc & H).
    rewrite (window_load _ _ _ _ Hw Hc). cbn [bind].
    apply bind_Ok in H as ([m1 q1] & H1 & H).
    destruct (is_path c).
    + apply bind_Ok in H1 as (ma & Ha & H1).
      destruct (window_store _ _ _ _ _ Hw Ha) as (mba & -> & Hwa). cbn [bind].
      apply bind_Ok in H1 as (mc & Hb & H1).
      destruct (window_store _ _ _ _ _ Hwa Hb) as (mbc & -> & Hwc). cbn [bind].
      injection H1 as <- <-. by eapply IH.
    + injection H1 as <- <-. cbn [bind]. by eapply IH.
Qed.

Lemma window_find_exit_walk lim : ∀ ms mb cell exit cost r,
  window ms mb0 mb → find_exit_walk lim ms cell exit cost = Ok r →
  find_exit_walk lim mb cell exit cost = Ok r.
Proof.
  induction lim as [|lim IH]; intros ms mb cell exit cost r Hw H; [done|].
  cbn [find_exit_walk] in *.
  apply bind_Ok in H as (c & Hc & H).
  rewrite (window_load _ _ _ _ Hw Hc). cbn [bind].
  destruct (is_path c && negb (c_reach c =? 0)); [|by eapply IH].
  destruct ((cost <? NIL) || (c_cost c >=? NIL) && (c_cost c <? cost));
    by eapply IH.
Qed.

Lemma window_shortest_path fuel : ∀ ms mb q k exit ms' n,
  window ms mb0 mb → shortest_path fuel ms q k exit = Ok (ms', n) →
  ∃ mb', shortest_path fuel mb q k exit = Ok (mb', n) ∧ window ms' mb0 mb'.
Proof.
  induction fuel as [|fuel IH]; intros ms mb q k exit ms' n Hw H.
  - destruct k as [k|]; cbn [shortest_path] in *.
    + by destruct (q !! k).
    + injection H as <- <-. eauto.
  - destruct k as [k|]; cbn [shortest_path] in *.
    2:{ injection H as <- <-. eauto. }
    destruct (q !! k) as [node|]; [|done].
    destruct (match exit with
              | Some e => bool_decide (l_cell node = e)
              | None => true
              end); [|by eapply IH].
    apply bind_Ok in H as (m1 & H1 & H).
    destruct (window_store _ _ _ _ _ Hw H1) as (mb1 & -> & Hw1). cbn [bind].
    apply bind_Ok in H as ([m2 n2] & H2 & H).
    destruct (IH _ _ _ _ _ _ _ Hw1 H2) as (mb2 & -> & Hw2). cbn [bind].
    injection H as <- <-. eauto.
Qed.

Lemma window_traverse_maze fuel ms mb ms' :
  window ms mb0 mb → traverse_maze fuel ms = Ok ms' →
  ∃ mb', traverse_maze fuel mb = Ok mb' ∧ window ms' mb0 mb'.
Proof.
  intros Hw H. unfold traverse_maze, flood_maze, select_exit, find_entries,
    find_exit in *.
  apply bind_Ok in H as ([m2 q2] & Hflood & H).
  apply bind_Ok in Hflood as (row0 & Hrow0 & Hflood).
  rewrite (window_row_ptr _ _ _ _ Hw Hrow0). cbn [bind].
  apply bind_Ok in Hflood as ([m1 q1] & Hent & Hflood).
  rewrite (w_cols _ _ _ Hw).
  destruct (m_cols ms <? 0); [done|].
  destruct (window_find_entries_walk _ _ _ _ _ _ _ Hw Hent) as (mb1 & -> & Hw1).
  cbn [bind].
  destruct (window_recursive_flood _ _ _ _ _ _ _ Hw1 Hflood) as (mb2 & -> & Hw2).
  cbn [bind].
  apply bind_Ok in H as (ex & Hex & H).
  rewrite (w_rows _ _ _ Hw2), (w_cols _ _ _ Hw2).
  destruct (m_cols m2 <? 0); [done|].
  rewrite (window_find_exit_walk _ _ _ _ _ _ _ Hw2 Hex). cbn [bind].
  destruct ex as [e|].
  - apply bind_Ok in H as ([m3 n] & Hsp & H).
    destruct (window_shortest_path _ _ _ _ _ _ _ _ Hw2 Hsp) as (mb3 & -> & Hw3).
    cbn [bind]. injection H as <-. eexists. split; [done|].
    destruct Hw3. by split.
  - injection H as <-. eauto.
Qed.
End window.

(** ** From the text to the traversed maze *)

Lemma valid_last_line l :
  valid_maze (maze_of_rows l) →
  Z.of_nat (String.length (default EmptyString (last l)))
  = m_cols (maze_of_rows l).
Proof.
  intros Hv%valid_maze_facts.
  pose proof (vf_rows _ Hv) as Hrows. pose proof (vf_cols _ Hv) as Hcols.
  cbn [maze_of_rows m_rows] in Hrows.
  destruct (last l) as [s|] eqn:Hlast.
  2:{ apply last_None in Hlast as ->. simpl in Hrows. lia. }
  rewrite last_lookup in Hlast. cbn [default from_option id].
  rewrite <- length_list_ascii_of_string.
  set (n := m_cols (maze_of_rows l)) in *.
  set (x := Z.of_nat (length l) - 1).
  assert (Hx : l !! Z.to_nat x = Some s).
  { rewrite <- Hlast. f_equal. lia. }
  assert (Hget : ∀ y, 0 ≤ y →
            get_cell (maze_of_rows l) (x, y)
            = fresh_cell (Z.to_nat x) (Z.to_nat y)
                <$> list_ascii_of_string s !! Z.to_nat y).
  { intros y Hy. rewrite get_cell_maze_of_rows. unfold char_at. cbn [fst snd].
    rewrite decide_True by lia. by rewrite Hx. }
  destruct (Z.lt_trichotomy (Z.of_nat (length (list_ascii_of_string s))) n)
    as [Hlt|[Heq|Hgt]]; [|done|].
  - destruct (vf_grid _ Hv (x, n - 1)) as [c Hc].
    { split; cbn [fst snd maze_of_rows m_rows]; lia. }
    rewrite Hget in Hc by lia.
    destruct (list_ascii_of_string s !! Z.to_nat (n - 1)) eqn:Hl; [|done].
    apply lookup_lt_Some in Hl. lia.
  - destruct (lookup_lt_is_Some_2 (list_ascii_of_string s) (Z.to_nat n)) as [t Ht];
      [lia|].
    destruct (vf_cell _ Hv (x, n) (fresh_cell (Z.to_nat x) (Z.to_nat n) t))
      as [[_ Hn] _].
    { rewrite Hget by lia. by rewrite Ht. }
    cbn [fst snd] in Hn. lia.
Qed.

Lemma read_then_traverse_run (sizeof_cell : nat) (l : list string) (fuel : nat) :
  (1 ≤ sizeof_cell)%nat → text_okb l = true →
  valid_maze (maze_of_rows l) → (fuel_bound (maze_of_rows l) ≤ fuel)%nat →
  ∃ m ms' m',
    read_maze (new_maze sizeof_cell) (input_of l) = Ok (m, [])
    ∧ window (maze_of_rows l) (new_maze sizeof_cell) m
    ∧ traverse_maze fuel (maze_of_rows l) = Ok ms'
    ∧ traverse_maze fuel m = Ok m'
    ∧ window ms' (new_maze sizeof_cell) m'.
Proof.
  intros Hsz Hok Hv Hfuel.
  destruct (read_maze_lines sizeof_cell l Hsz Hok)
    as (m & Hread & Hrows & Hcols & Hcost & Hsoln & Hlen & Hcells).
  assert (Hw : window (maze_of_rows l) (new_maze sizeof_cell) m).
  { pose proof (valid_maze_facts _ Hv) as Hvf.
    pose proof (vf_rows _ Hvf). pose proof (vf_cols _ Hvf).
    split; try done.
    - rewrite Hcols, (valid_last_line l Hv). lia.
    - pose proof (vf_len _ Hvf). lia. }
  destruct (traverse_maze_outcome _ fuel Hv Hfuel)
    as (_ & _ & _ & _ & ms' & _ & _ & _ & _ & Htr & _).
  destruct (window_traverse_maze _ _ _ _ _ Hw Htr) as (m' & Htr' & Hw').
  by exists m, ms', m'.
Qed.

(** X16. Reading a text whose grid is valid and traversing the maze read
    gives, inside the allocated memory, the result of traversing the grid
    itself: the same dimensions, cost and solution flag, the same cells on
    the grid, and the memory outside the grid as it was allocated. *)
Theorem read_then_traverse (sizeof_cell : nat) (l : list string) (fuel : nat) :
  (1 ≤ sizeof_cell)%nat → text_okb l = true →
  valid_maze (maze_of_rows l) → (fuel_bound (maze_of_rows l) ≤ fuel)%nat →
  ∃ m ms' m',
    read_maze (new_maze sizeof_cell) (input_of l) = Ok (m, [])
    ∧ window (maze_of_rows l) (new_maze sizeof_cell) m
    ∧ traverse_maze fuel (maze_of_rows l) = Ok ms'
    ∧ traverse_maze fuel m = Ok m'
    ∧ window ms' (new_maze sizeof_cell) m'.
Proof. apply read_then_traverse_run. Qed.

Lemma read_then_traverse_witness :
  (1 ≤ 24)%nat ∧ text_okb [".#."; "..."; ".#."]%string = true
  ∧ valid_maze (maze_of_rows [".#."; "..."; ".#."]%string)
  ∧ (fuel_bound (maze_of_rows [".#."; "..."; ".#."]%string) ≤ 18)%nat
  ∧ ∃ m ms' m',
      read_maze (new_maze 24) (input_of [".#."; "..."; ".#."]%string)
      = Ok (m, [])
      ∧ window (maze_of_rows [".#."; "..."; ".#."]%string) (new_maze 24) m
      ∧ traverse_maze 18 (maze_of_rows [".#."; "..."; ".#."]%string) = Ok ms'
      ∧ traverse_maze 18 m = Ok m'
      ∧ window ms' (new_maze 24) m'.
Proof.
  split; [lia|]. split; [reflexivity|]. split; [reflexivity|].
  split; [vm_compute; lia|].
  apply (read_then_traverse 24); [lia | reflexivity | reflexivity | vm_compute; lia].
Defined.

(** * The printer *)

(** ** The recursion of the stage printers *)

Lemma print_walk_eq g m xlim cell x ylim y :
  print_walk g m xlim cell x ylim y =
    match xlim with
    | O => Ok []
    | S xlim' =>
        match ylim with
        | S ylim' =>
            let* c := load m (cell, y) in
            let* out := print_walk g m xlim cell x ylim' (int_add y 1) in
            Ok (g c ++ out)
        | O =>
            let* out :=
              print_walk g m xlim' (cell + 1) (int_add x 1) (Z.to_nat y) NIL in
            Ok (NEWLINE :: out)
        end
    end.
Proof. destruct xlim, ylim; reflexivity. Qed.

Lemma print_stage_1_walk_eq m xlim cell x ylim y :
  print_stage_1_walk m xlim cell x ylim y =
    match xlim with
    | O => Ok []
    | S xlim' =>
        match ylim with
        | S ylim' =>
            let* c := load m (cell, y) in
            let* out := print_stage_1_walk m xlim cell x ylim' (int_add y 1) in
            Ok (glyph_1 c ++ out)
        | O =>
            let* out :=
              print_stage_1_walk m xlim' (cell + 1) (int_add x 1) (Z.to_nat y) NIL in
            Ok (NEWLINE :: out)
        end
    end.
Proof. destruct xlim, ylim; reflexivity. Qed.

Lemma print_stage_2_walk_eq m xlim cell x ylim y :
  print_stage_2_walk m xlim cell x ylim y =
    match xlim with
    | O => Ok []
    | S xlim' =>
        match ylim with
        | S ylim' =>
            let* c := load m (cell, y) in
            let* out := print_stage_2_walk m xlim cell x ylim' (int_add y 1) in
            Ok (glyph_2 c ++ out)
        | O =>
            let* out :=
              print_stage_2_walk m xlim' (cell + 1) (int_add x 1) (Z.to_nat y) NIL in
            Ok (NEWLINE :: out)
        end
    end.
Proof. destruct xlim, ylim; reflexivity. Qed.

Lemma print_stage_3_walk_eq m xlim cell x ylim y :
  print_stage_3_walk m xlim cell x ylim y =
    match xlim with
    | O => Ok []
    | S xlim' =>
        match ylim with
        | S ylim' =>
            let* c := load m (cell, y) in
            let* out := print_stage_3_walk m xlim cell x ylim' (int_add y 1) in
            Ok (glyph_3 c ++ out)
        | O =>
            let* out :=
              print_stage_3_walk m xlim' (cell + 1) (int_add x 1) (Z.to_nat y) NIL in
            Ok (NEWLINE :: out)
        end
    end.
Proof. destruct xlim, ylim; reflexivity. Qed.

Lemma print_stage_4_walk_eq m xlim cell x ylim y :
  print_stage_4_walk m xlim cell x ylim y =
    match xlim with
    | O => Ok []
    | S xlim' =>
        match ylim with
        | S ylim' =>
            let* c := load m (cell, y) in
            let* out := print_stage_4_walk m xlim cell x ylim' (int_add y 1) in
            Ok (glyph_4 c ++ out)
        | O =>
            let* out :=
              print_stage_4_walk m xlim' (cell + 1) (int_add x 1) (Z.to_nat y) NIL in
            Ok (NEWLINE :: out)
        end
    end.
Proof. destruct xlim, ylim; reflexivity. Qed.

(** Two walks with the same equations are the same function. *)
Lemma walk_unique (g : cell_t → list ascii) (m : maze_t)
    (f : nat → Z → Z → nat → Z → result (list ascii)) :
  (∀ xlim cell x ylim y,
     f xlim cell x ylim y =
       match xlim with
       | O => Ok []
       | S xlim' =>
           match ylim with
           | S ylim' =>
               let* c := load m (cell, y) in
               let* out := f xlim cell x ylim' (int_add y 1) in
               Ok (g c ++ out)
           | O =>
               let* out := f xlim' (cell + 1) (int_add x 1) (Z.to_nat y) NIL in
               Ok (NEWLINE :: out)
           end
       end) →
  ∀ xlim cell x ylim y, f xlim cell x ylim y = print_walk g m xlim cell x ylim y.
Proof.
  intros Hf xlim. induction xlim as [|xlim IHx]; intros cell x ylim.
  - intros y. by rewrite Hf, print_walk_eq.
  - induction ylim as [|ylim IHy]; intros y; rewrite Hf, print_walk_eq.
    + by rewrite IHx.
    + by rewrite IHy.
Qed.

Lemma print_stage_1_walk_glyphs m :
  ∀ xlim cell x ylim y,
    print_stage_1_walk m xlim cell x ylim y = print_walk glyph_1 m xlim cell x ylim y.
Proof. apply walk_unique, print_stage_1_walk_eq. Qed.

Lemma print_stage_2_walk_glyphs m :
  ∀ xlim cell x ylim y,
    print_stage_2_walk m xlim cell x ylim y = print_walk glyph_2 m xlim cell x ylim y.
Proof. apply walk_unique, print_stage_2_walk_eq. Qed.

Lemma print_stage_3_walk_glyphs m :
  ∀ xlim cell x ylim y,
    print_stage_3_walk m xlim cell x ylim y = print_walk glyph_3 m xlim cell x ylim y.
Proof. apply walk_unique, print_stage_3_walk_eq. Qed.

Lemma print_stage_4_walk_glyphs m :
  ∀ xlim cell x ylim y,
    print_stage_4_walk m xlim cell x ylim y = print_walk glyph_4 m xlim cell x ylim y.
Proof. apply walk_unique, print_stage_4_walk_eq. Qed.

(** The walk prints the rest of the current row, then the rows below. *)
Lemma print_walk_rows g m cols : ∀ xlim cell x ylim y,
  0 ≤ y → y + Z.of_nat ylim = cols → cols < 2 ^ 30 →
  (∀ i j, cell ≤ i < cell + Z.of_nat xlim → 0 ≤ j < cols →
     is_Some (get_cell m (i, j))) →
  0 ≤ cell →
  print_walk g m xlim cell x ylim y =
    Ok (match xlim with
        | O => []
        | S xlim' =>
            concat ((λ j, glyph_at g m (cell, j)) <$> seqZ y (Z.of_nat ylim))
            ++ NEWLINE
               :: unlines ((λ i, concat ((λ j, glyph_at g m (i, j)) <$> seqZ 0 cols))
                             <$> seqZ (cell + 1) (Z.of_nat xlim'))
        end).
Proof.
  induction xlim as [|xlim IHx]; intros cell x ylim.
  { intros. by rewrite print_walk_eq. }
  induction ylim as [|ylim IHy]; intros y Hy Hcols Hsmall Hmem Hcell;
    rewrite print_walk_eq.
  - unfold NIL. rewrite (IHx (cell + 1) (int_add x 1) (Z.to_nat y) 0);
      [|lia | lia | done | | lia].
    2:{ intros i j Hi Hj. apply Hmem; lia. }
    cbn [bind]. f_equal. change (Z.of_nat 0) with 0. rewrite (seqZ_nil y 0) by lia.
    cbn [fmap list_fmap concat app]. f_equal.
    destruct xlim as [|xlim]; [done|].
    replace (Z.of_nat (Z.to_nat y)) with cols by lia.
    rewrite Nat2Z.inj_succ, (seqZ_cons (cell + 1)) by lia.
    cbn [fmap list_fmap]. unfold unlines at 2. cbn [fmap list_fmap concat].
    rewrite <- app_assoc. cbn [app]. do 3 f_equal.
    replace (Z.succ (cell + 1)) with (cell + 1 + 1) by lia.
    by replace (Z.pred (Z.succ (Z.of_nat xlim))) with (Z.of_nat xlim) by lia.
  - destruct (Hmem cell y) as [c Hc]; [lia | lia |].
    unfold load. rewrite Hc. cbn [bind].
    rewrite int_add_small by lia.
    rewrite (IHy (y + 1)); [|lia | lia | done | done | done].
    cbn [bind]. f_equal.
    rewrite Nat2Z.inj_succ, (seqZ_cons y) by lia.
    cbn [fmap list_fmap concat].
    replace (glyph_at g m (cell, y)) with (g c) by (unfold glyph_at; by rewrite Hc).
    rewrite <- app_assoc.
    replace (Z.succ y) with (y + 1) by lia.
    by replace (Z.pred (Z.succ (Z.of_nat ylim))) with (Z.of_nat ylim) by lia.
Qed.

Lemma print_walk_picture g m :
  0 ≤ m_rows m → 0 ≤ m_cols m < 2 ^ 30 →
  (∀ p, in_grid m p → is_Some (get_cell m p)) →
  print_walk g m (Z.to_nat (m_rows m)) 0 NIL (Z.to_nat (m_cols m)) NIL
  = Ok (unlines (picture g m)).
Proof.
  intros Hr Hc Hmem.
  rewrite (print_walk_rows g m (m_cols m)); unfold NIL; [|lia | lia | lia | | lia].
  2:{ intros i j Hi Hj. apply Hmem. split; cbn [fst snd]; lia. }
  f_equal. unfold picture.
  destruct (Z.to_nat (m_rows m)) as [|n] eqn:Hn.
  - replace (m_rows m) with 0 by lia. done.
  - replace (m_rows m) with (Z.succ (Z.of_nat n)) by lia.
    rewrite (seqZ_cons 0 (Z.succ (Z.of_nat n))) by lia.
    cbn [fmap list_fmap]. unfold unlines at 2.
    cbn [fmap list_fmap concat]. rewrite <- app_assoc. cbn [app].
    replace (Z.of_nat (Z.to_nat (m_cols m))) with (m_cols m) by lia.
    replace (Z.pred (Z.succ (Z.of_nat n))) with (Z.of_nat n) by lia.
    done.
Qed.

(** ** Reading a picture *)

Lemma concat_chunks (gs : list (list ascii)) :
  Forall (λ g, length g = 2%nat) gs →
  length (concat gs) = (2 * length gs)%nat
  ∧ ∀ j g, gs !! j = Some g → take 2 (drop (2 * j) (concat gs)) = g.
Proof.
  induction 1 as [|g gs Hg Hgs [IHl IHj]].
  - split; [done|]. intros j g Hj. by rewrite lookup_nil in Hj.
  - split.
    + cbn [concat length]. rewrite length_app. lia.
    + intros [|j] g' Hj; cbn [concat].
      * injection Hj as <-. by apply take_app_length'.
      * replace (2 * S j)%nat with (2 + 2 * j)%nat by lia.
        rewrite drop_app_add' by done. by apply IHj.
Qed.

Lemma picture_cells g m :
  0 ≤ m_rows m → 0 ≤ m_cols m →
  (∀ p, in_grid m p → ∃ c, get_cell m p = Some c ∧ length (g c) = 2%nat) →
  Z.of_nat (length (picture g m)) = m_rows m
  ∧ (∀ line, line ∈ picture g m → Z.of_nat (length line) = 2 * m_cols m)
  ∧ ∀ p c, in_grid m p → get_cell m p = Some c →
      glyph_in (picture g m) p = g c.
Proof.
  intros Hr Hc Hg.
  assert (Hrow : ∀ x, 0 ≤ x < m_rows m →
            Forall (λ g, length g = 2%nat)
              ((λ y, glyph_at g m (x, y)) <$> seqZ 0 (m_cols m))).
  { intros x Hx. apply Forall_fmap, Forall_seqZ. intros y Hy.
    destruct (Hg (x, y)) as (c & Hcell & Hlen); [split; cbn [fst snd]; lia|].
    cbn. unfold glyph_at. by rewrite Hcell. }
  split_and!.
  - unfold picture. rewrite length_fmap, length_seqZ. lia.
  - intros line (x & -> & Hx%elem_of_seqZ)%list_elem_of_fmap.
    unfold picture_row. destruct (concat_chunks _ (Hrow x ltac:(lia))) as [-> _].
    rewrite length_fmap, length_seqZ. lia.
  - intros [x y] c [Hx Hy] Hcell. cbn [fst snd] in *.
    unfold glyph_in, picture. cbn [fst snd].
    rewrite list_lookup_fmap, lookup_seqZ_lt by lia. cbn [fmap option_fmap option_map].
    rewrite Z.add_0_l, Z2Nat.id by lia. unfold picture_row.
    destruct (concat_chunks _ (Hrow x ltac:(lia))) as [_ Hj].
    rewrite (Hj (Z.to_nat y) (g c)); [done|].
    rewrite list_lookup_fmap, lookup_seqZ_lt by lia. cbn [fmap option_fmap option_map].
    rewrite Z.add_0_l, Z2Nat.id by lia. unfold glyph_at. by rewrite Hcell.
Qed.

(** ** Two digits *)

Lemma printf_two_digits v :
  0 ≤ v < 100 →
  (if v >? 9 then printf_TWODIGIT v else printf_ONEDIGIT v) = two_digits v.
Proof.
  intros Hv.
  assert (H : Forall (λ v, (if v >? 9 then printf_TWODIGIT v else printf_ONEDIGIT v)
                           = two_digits v) (seqZ 0 100)).
  { let l := eval vm_compute in (seqZ 0 100) in change (seqZ 0 100) with l.
    repeat (apply Forall_cons; split; [vm_compute; reflexivity|]).
    apply Forall_nil_2. }
  rewrite Forall_seqZ in H. apply H. lia.
Qed.

Lemma cost_digits cost :
  0 ≤ cost →
  (if Z.rem cost 100 >? 9 then printf_TWODIGIT (Z.rem cost 100)
   else printf_ONEDIGIT (Z.rem cost 100)) = two_digits cost.
Proof.
  intros Hc. rewrite Z.rem_mod_nonneg by lia.
  rewrite printf_two_digits by (apply Z.mod_pos_bound; lia).
  unfold two_digits. rewrite Z.mod_mod by lia.
  replace ((cost `mod` 100) `mod` 10) with (cost `mod` 10); [done|].
  pose proof (Z.div_mod cost 100). pose proof (Z.mod_pos_bound cost 100).
  pose proof (Z.div_mod (cost `mod` 100) 10).
  pose proof (Z.mod_pos_bound (cost `mod` 100) 10).
  pose proof (Z.div_mod cost 10). pose proof (Z.mod_pos_bound cost 10). lia.
Qed.

Lemma two_digits_length v : length (two_digits v) = 2%nat.
Proof. done. Qed.

Lemma cost_even cost : 0 ≤ cost → (Z.rem cost 2 =? 0) = Z.even cost.
Proof.
  intros Hc. rewrite Z.rem_mod_nonneg by lia. rewrite Zmod_even.
  by destruct (Z.even cost).
Qed.

(** ** The cells of a traversed grid *)

Lemma shortest_unique m p d d' : shortest m p d → shortest m p d' → d = d'.
Proof.
  intros [(l & Hl & Hlen) Hmin] [(l' & Hl' & Hlen') Hmin'].
  apply Hmin' in Hl. apply Hmin in Hl'. lia.
Qed.

Lemma traversed_cells m fuel :
  valid_maze m → (fuel_bound m ≤ fuel)%nat →
  ∃ m', traverse_maze fuel m = Ok m'
    ∧ m_rows m' = m_rows m ∧ m_cols m' = m_cols m
    ∧ 1 ≤ m_rows m ≤ MAX_ROWS ∧ 1 ≤ m_cols m ≤ MAX_COLS
    ∧ ∀ p, in_grid m p →
        ∃ c c', get_cell m p = Some c ∧ get_cell m' p = Some c'
          ∧ c_type c' = c_type c
          ∧ is_path c' = open_at m p
          ∧ c_soln c' = soln_of m' p
          ∧ ((connected m p ∧ open_at m p = true ∧ c_reach c' = TRUE
              ∧ 0 ≤ c_cost c' ∧ shortest m p (c_cost c'))
             ∨ (¬ connected m p ∧ c_reach c' = FALSE))
          ∧ (c_soln c' = TRUE ∨ c_soln c' = FALSE).
Proof.
  intros Hv Hfuel.
  destruct (traverse_maze_outcome m fuel Hv Hfuel)
    as (Hvf & m2 & q2 & ex & m' & _ & Hfl & _ & _ & Htr & Hsv).
  pose proof (fl_inv _ _ _ Hfl) as Hinv.
  pose proof (sv_static _ _ _ _ Hsv) as Hss.
  exists m'. split; [done|].
  split; [apply Hss|]. split; [apply Hss|].
  split; [apply Hvf|]. split; [apply Hvf|].
  intros p Hp. destruct (vf_grid _ Hvf p Hp) as [c Hc].
  destruct (same_static_get _ _ _ _ Hss Hc) as (c' & Hc' & Hs).
  unfold static in Hs. injection Hs as Hx Hy Ht.
  assert (Hreach : c_reach c' = reach_of m2 p).
  { rewrite <- (sv_reach _ _ _ _ Hsv). unfold reach_of. by rewrite Hc'. }
  assert (Hcost : c_cost c' = cost_of m2 p).
  { rewrite <- (sv_cost _ _ _ _ Hsv). unfold cost_of. by rewrite Hc'. }
  assert (Hsoln : c_soln c' = soln_of m' p).
  { unfold soln_of. by rewrite Hc'. }
  exists c, c'. split; [done|]. split; [done|]. split; [done|].
  split; [unfold open_at, is_path; by rewrite Hc, Ht|]. split; [done|]. split.
  - rewrite Hreach, Hcost.
    destruct (decide (p ∈ l_cell <$> q2)) as [Hin|Hnin].
    + left. destruct (flooded_queued _ _ _ Hfl _ Hin) as [? ?].
      in_queue Hin as k n Hk.
      pose proof (inv_node _ _ _ _ Hinv _ _ Hk) as (Ho & _ & _).
      assert (Hin : l_cell n ∈ l_cell <$> q2).
      { apply list_elem_of_fmap. exists n. split; [done|].
        by eapply list_elem_of_lookup_2. }
      split_and!; try done.
      * by apply (flooded_connected _ _ _ Hfl).
      * by apply (flooded_shortest _ _ _ Hfl).
    + right. split.
      * by intros Hcon%(flooded_connected _ _ _ Hfl).
      * by apply (flooded_fresh _ _ _ Hfl) in Hnin as [_ ?].
  - rewrite Hsoln. destruct ex as [e|].
    + destruct (sv_exit _ _ _ _ Hsv) as (_ & _ & l & _ & _ & _ & Hmark).
      rewrite Hmark. case_decide; [by left | by right].
    + pose proof (sv_exit _ _ _ _ Hsv) as Heq. simpl in Heq. subst m'.
      right. apply (inv_soln _ _ _ _ Hinv).
Qed.

Lemma print_stage_picture g m :
  0 ≤ m_rows m → 0 ≤ m_cols m < 2 ^ 30 →
  (∀ p, in_grid m p → ∃ c, get_cell m p = Some c ∧ length (g c) = 2%nat) →
  print_walk g m (Z.to_nat (m_rows m)) 0 NIL (Z.to_nat (m_cols m)) NIL
  = Ok (unlines (picture g m))
  ∧ Z.of_nat (length (picture g m)) = m_rows m
  ∧ (∀ line, line ∈ picture g m → Z.of_nat (length line) = 2 * m_cols m)
  ∧ ∀ p c, in_grid m p → get_cell m p = Some c →
      glyph_in (picture g m) p = g c.
Proof.
  intros Hr Hc Hg. split; [|apply picture_cells; [done | lia | done]].
  apply print_walk_picture; [done | done |].
  intros p Hp. destruct (Hg p Hp) as (c & -> & _). eauto.
Qed.

Lemma print_stage_nonneg (xlim ylim : Z) :
  0 ≤ xlim → 0 ≤ ylim → (xlim <? 0) || (ylim <? 0) = false.
Proof. intros. apply orb_false_iff. lia. Qed.

(** X17. Stage 2 of a traversed valid grid is a picture of [rows] lines
    of [2 * cols] characters in which every cell stands as two characters:
    [++] for a cell that a walk over Open cells joins to an entrance, [--]
    for any other Open cell, and its own character twice for a cell that
    is not Open. *)
Theorem stage_2_shows_what_is_reachable (m : maze_t) (fuel : nat) :
  valid_maze m → (fuel_bound m ≤ fuel)%nat →
  ∃ m' pic,
    traverse_maze fuel m = Ok m'
    ∧ print_stage_2 m' 0 NIL NIL (m_rows m') (m_cols m') = Ok (unlines pic)
    ∧ Z.of_nat (length pic) = m_rows m
    ∧ (∀ line, line ∈ pic → Z.of_nat (length line) = 2 * m_cols m)
    ∧ ∀ p c, get_cell m p = Some c →
        (connected m p → glyph_in pic p = [REACHABLE; REACHABLE])
        ∧ (open_at m p = true → ¬ connected m p →
           glyph_in pic p = [UNREACHABLE; UNREACHABLE])
        ∧ (open_at m p = false → glyph_in pic p = [c_type c; c_type c]).
Proof.
  intros Hv Hfuel.
  destruct (traversed_cells m fuel Hv Hfuel)
    as (m' & Htr & Hrows & Hcols & Hr & Hc & Hcells).
  assert (Hgrid : ∀ p, in_grid m' p ↔ in_grid m p).
  { intros p. unfold in_grid. by rewrite Hrows, Hcols. }
  unfold MAX_ROWS, MAX_COLS in *.
  destruct (print_stage_picture glyph_2 m') as (Hrun & Hlen & Hlines & Hglyph);
    [lia | lia | |].
  { intros p Hp%Hgrid.
    destruct (Hcells p Hp) as (c & c' & _ & Hc' & _). exists c'. split; [done|].
    unfold glyph_2. by destruct (is_path c'), (negb (c_reach c' =? 0)). }
  exists m', (picture glyph_2 m'). split; [done|]. split.
  { unfold print_stage_2. rewrite print_stage_nonneg by lia.
    by rewrite print_stage_2_walk_glyphs. }
  split; [lia|]. split; [by rewrite <- Hcols|].
  intros p c Hcell.
  assert (Hp : in_grid m p) by by apply (vf_cell _ (valid_maze_facts _ Hv) _ _ Hcell).
  destruct (Hcells p Hp) as (c0 & c' & Hc0 & Hc' & Ht & Hpath & _ & Hcon & _).
  rewrite Hcell in Hc0. injection Hc0 as <-.
  rewrite (Hglyph p c'); [|by apply Hgrid | done]. unfold glyph_2. rewrite Hpath.
  destruct Hcon as [(Hconn & Ho & Hre & _)|(Hn & Hre)]; rewrite Hre.
  - rewrite Ho. split_and!; [done | done | done].
  - split_and!; [done | by intros -> | intros ->; by rewrite Ht].
Qed.

Lemma stage_2_shows_what_is_reachable_witness :
  valid_maze scenario_a ∧ (fuel_bound scenario_a ≤ 18)%nat
  ∧ ∃ m' pic,
      traverse_maze 18 scenario_a = Ok m'
      ∧ print_stage_2 m' 0 NIL NIL (m_rows m') (m_cols m') = Ok (unlines pic)
      ∧ Z.of_nat (length pic) = m_rows scenario_a
      ∧ (∀ line, line ∈ pic → Z.of_nat (length line) = 2 * m_cols scenario_a)
      ∧ ∀ p c, get_cell scenario_a p = Some c →
          (connected scenario_a p → glyph_in pic p = [REACHABLE; REACHABLE])
          ∧ (open_at scenario_a p = true → ¬ connected scenario_a p →
             glyph_in pic p = [UNREACHABLE; UNREACHABLE])
          ∧ (open_at scenario_a p = false →
             glyph_in pic p = [c_type c; c_type c]).
Proof.
  split; [reflexivity|]. split; [vm_compute; lia|].
  apply (stage_2_shows_what_is_reachable scenario_a 18);
    [reflexivity | vm_compute; lia].
Defined.

(** X18. Stage 3 of a traversed valid grid is a picture of the same
    shape in which a cell whose shortest distance [d] to an entrance is
    even stands as the last two decimal digits of [d] and one whose
    distance is odd as [++]; the other cells stand as in stage 2. *)
Theorem stage_3_shows_the_even_costs (m : maze_t) (fuel : nat) :
  valid_maze m → (fuel_bound m ≤ fuel)%nat →
  ∃ m' pic,
    traverse_maze fuel m = Ok m'
    ∧ print_stage_3 m' 0 NIL NIL (m_rows m') (m_cols m') = Ok (unlines pic)
    ∧ Z.of_nat (length pic) = m_rows m
    ∧ (∀ line, line ∈ pic → Z.of_nat (length line) = 2 * m_cols m)
    ∧ ∀ p c, get_cell m p = Some c →
        (∀ d, shortest m p d →
           glyph_in pic p
           = if Z.even d then two_digits d else [REACHABLE; REACHABLE])
        ∧ (open_at m p = true → ¬ connected m p →
           glyph_in pic p = [UNREACHABLE; UNREACHABLE])
        ∧ (open_at m p = false → glyph_in pic p = [c_type c; c_type c]).
Proof.
  intros Hv Hfuel.
  destruct (traversed_cells m fuel Hv Hfuel)
    as (m' & Htr & Hrows & Hcols & Hr & Hc & Hcells).
  assert (Hgrid : ∀ p, in_grid m' p ↔ in_grid m p).
  { intros p. unfold in_grid. by rewrite Hrows, Hcols. }
  assert (Hg3 : ∀ p c', in_grid m p → get_cell m' p = Some c' →
            glyph_3 c'
            = if open_at m p then
                if negb (c_reach c' =? 0) then
                  if Z.even (c_cost c') then two_digits (c_cost c')
                  else [REACHABLE; REACHABLE]
                else [UNREACHABLE; UNREACHABLE]
              else [c_type c'; c_type c']).
  { intros p c' Hp Hc'.
    destruct (Hcells p Hp) as (c0 & c1 & _ & Hc1 & _ & Hpath & _ & Hcon & _).
    rewrite Hc' in Hc1. injection Hc1 as <-.
    unfold glyph_3. rewrite Hpath. destruct (open_at m p); [|done].
    destruct Hcon as [(_ & _ & -> & Hcost & _)|(_ & ->)]; [|done].
    cbn. rewrite cost_even by done. by rewrite cost_digits by done. }
  unfold MAX_ROWS, MAX_COLS in *.
  destruct (print_stage_picture glyph_3 m') as (Hrun & Hlen & Hlines & Hglyph);
    [lia | lia | |].
  { intros p Hp%Hgrid.
    destruct (Hcells p Hp) as (c & c' & _ & Hc' & _). exists c'. split; [done|].
    rewrite (Hg3 p c' Hp Hc').
    by destruct (open_at m p), (negb (c_reach c' =? 0)), (Z.even (c_cost c')). }
  exists m', (picture glyph_3 m'). split; [done|]. split.
  { unfold print_stage_3. rewrite print_stage_nonneg by lia.
    by rewrite print_stage_3_walk_glyphs. }
  split; [lia|]. split; [by rewrite <- Hcols|].
  intros p c Hcell.
  assert (Hp : in_grid m p) by by apply (vf_cell _ (valid_maze_facts _ Hv) _ _ Hcell).
  destruct (Hcells p Hp) as (c0 & c' & Hc0 & Hc' & Ht & Hpath & _ & Hcon & _).
  rewrite Hcell in Hc0. injection Hc0 as <-.
  rewrite (Hglyph p c'); [|by apply Hgrid | done]. rewrite (Hg3 p c' Hp Hc').
  destruct Hcon as [(Hconn & Ho & Hre & _ & Hd')|(Hn & Hre)]; rewrite Hre.
  - rewrite Ho. split_and!; [|done | done].
    intros d Hd. by rewrite (shortest_unique _ _ _ _ Hd Hd').
  - split_and!; [|by intros -> | intros ->; by rewrite Ht].
    intros d [(l & Hl & _) _]. destruct Hn. by exists l.
Qed.

Lemma stage_3_shows_the_even_costs_witness :
  valid_maze scenario_a ∧ (fuel_bound scenario_a ≤ 18)%nat
  ∧ ∃ m' pic,
      traverse_maze 18 scenario_a = Ok m'
      ∧ print_stage_3 m' 0 NIL NIL (m_rows m') (m_cols m') = Ok (unlines pic)
      ∧ Z.of_nat (length pic) = m_rows scenario_a
      ∧ (∀ line, line ∈ pic → Z.of_nat (length line) = 2 * m_cols scenario_a)
      ∧ ∀ p c, get_cell scenario_a p = Some c →
          (∀ d, shortest scenario_a p d →
             glyph_in pic p
             = if Z.even d then two_digits d else [REACHABLE; REACHABLE])
          ∧ (open_at scenario_a p = true → ¬ connected scenario_a p →
             glyph_in pic p = [UNREACHABLE; UNREACHABLE])
          ∧ (open_at scenario_a p = false →
             glyph_in pic p = [c_type c; c_type c]).
Proof.
  split; [reflexivity|]. split; [vm_compute; lia|].
  apply (stage_3_shows_the_even_costs scenario_a 18);
    [reflexivity | vm_compute; lia].
Defined.

(** X19. Stage 4 of a traversed valid grid is a picture of the same
    shape in which a cell marked as part of the solution stands as the last
    two decimal digits of its distance [d] to an entrance when [d] is even
    and as [..] when it is odd, any other reachable cell as two blanks, and
    the other cells as in stage 2. *)
Theorem stage_4_shows_the_solution (m : maze_t) (fuel : nat) :
  valid_maze m → (fuel_bound m ≤ fuel)%nat →
  ∃ m' pic,
    traverse_maze fuel m = Ok m'
    ∧ print_stage_4 m' 0 NIL NIL (m_rows m') (m_cols m') = Ok (unlines pic)
    ∧ Z.of_nat (length pic) = m_rows m
    ∧ (∀ line, line ∈ pic → Z.of_nat (length line) = 2 * m_cols m)
    ∧ ∀ p c, get_cell m p = Some c →
        (soln_of m' p = TRUE ∨ soln_of m' p = FALSE)
        ∧ (∀ d, shortest m p d → soln_of m' p = TRUE →
             glyph_in pic p = if Z.even d then two_digits d else [PATH; PATH])
        ∧ (connected m p → soln_of m' p = FALSE →
           glyph_in pic p = [NONSOLUTION; NONSOLUTION])
        ∧ (open_at m p = true → ¬ connected m p →
           glyph_in pic p = [UNREACHABLE; UNREACHABLE])
        ∧ (open_at m p = false → glyph_in pic p = [c_type c; c_type c]).
Proof.
  intros Hv Hfuel.
  destruct (traversed_cells m fuel Hv Hfuel)
    as (m' & Htr & Hrows & Hcols & Hr & Hc & Hcells).
  assert (Hgrid : ∀ p, in_grid m' p ↔ in_grid m p).
  { intros p. unfold in_grid. by rewrite Hrows, Hcols. }
  assert (Hg4 : ∀ p c', in_grid m p → get_cell m' p = Some c' →
            glyph_4 c'
            = if open_at m p then
                if negb (c_reach c' =? 0) then
                  if negb (c_soln c' =? 0) then
                    if Z.even (c_cost c') then two_digits (c_cost c')
                    else [PATH; PATH]
                  else [NONSOLUTION; NONSOLUTION]
                else [UNREACHABLE; UNREACHABLE]
              else [c_type c'; c_type c']).
  { intros p c' Hp Hc'.
    destruct (Hcells p Hp) as (c0 & c1 & _ & Hc1 & _ & Hpath & _ & Hcon & _).
    rewrite Hc' in Hc1. injection Hc1 as <-.
    unfold glyph_4. rewrite Hpath. destruct (open_at m p); [|done].
    destruct Hcon as [(_ & _ & -> & Hcost & _)|(_ & ->)]; [|done].
    cbn. rewrite cost_even by done. by rewrite cost_digits by done. }
  unfold MAX_ROWS, MAX_COLS in *.
  destruct (print_stage_picture glyph_4 m') as (Hrun & Hlen & Hlines & Hglyph);
    [lia | lia | |].
  { intros p Hp%Hgrid.
    destruct (Hcells p Hp) as (c & c' & _ & Hc' & _). exists c'. split; [done|].
    rewrite (Hg4 p c' Hp Hc').
    by destruct (open_at m p), (negb (c_reach c' =? 0)), (negb (c_soln c' =? 0)),
      (Z.even (c_cost c')). }
  exists m', (picture glyph_4 m'). split; [done|]. split.
  { unfold print_stage_4. rewrite print_stage_nonneg by lia.
    by rewrite print_stage_4_walk_glyphs. }
  split; [lia|]. split; [by rewrite <- Hcols|].
  intros p c Hcell.
  assert (Hp : in_grid m p) by by apply (vf_cell _ (valid_maze_facts _ Hv) _ _ Hcell).
  destruct (Hcells p Hp)
    as (c0 & c' & Hc0 & Hc' & Ht & Hpath & Hsoln & Hcon & Hmark).
  rewrite Hcell in Hc0. injection Hc0 as <-.
  rewrite (Hglyph p c'); [|by apply Hgrid | done]. rewrite (Hg4 p c' Hp Hc').
  rewrite <- Hsoln. split; [done|].
  destruct Hcon as [(Hconn & Ho & Hre & _ & Hd')|(Hn & Hre)]; rewrite Hre.
  - rewrite Ho. split_and!; [| |done | done].
    + intros d Hd ->. by rewrite (shortest_unique _ _ _ _ Hd Hd').
    + by intros _ ->.
  - split_and!; [| |by intros -> | intros ->; by rewrite Ht].
    + intros d [(l & Hl & _) _]. destruct Hn. by exists l.
    + intros Hconn. by destruct Hn.
Qed.

Lemma stage_4_shows_the_solution_witness :
  valid_maze scenario_a ∧ (fuel_bound scenario_a ≤ 18)%nat
  ∧ ∃ m' pic,
      traverse_maze 18 scenario_a = Ok m'
      ∧ print_stage_4 m' 0 NIL NIL (m_rows m') (m_cols m') = Ok (unlines pic)
      ∧ Z.of_nat (length pic) = m_rows scenario_a
      ∧ (∀ line, line ∈ pic → Z.of_nat (length line) = 2 * m_cols scenario_a)
      ∧ ∀ p c, get_cell scenario_a p = Some c →
          (soln_of m' p = TRUE ∨ soln_of m' p = FALSE)
          ∧ (∀ d, shortest scenario_a p d → soln_of m' p = TRUE →
               glyph_in pic p = if Z.even d then two_digits d else [PATH; PATH])
          ∧ (connected scenario_a p → soln_of m' p = FALSE →
             glyph_in pic p = [NONSOLUTION; NONSOLUTION])
          ∧ (open_at scenario_a p = true → ¬ connected scenario_a p →
             glyph_in pic p = [UNREACHABLE; UNREACHABLE])
          ∧ (open_at scenario_a p = false →
             glyph_in pic p = [c_type c; c_type c]).
Proof.
  split; [reflexivity|]. split; [vm_compute; lia|].
  apply (stage_4_shows_the_solution scenario_a 18);
    [reflexivity | vm_compute; lia].
Defined.

(** ** The whole program *)

Lemma picture_window g ms mb0 mb :
  window ms mb0 mb →
  (∀ p, in_grid ms p → is_Some (get_cell ms p)) →
  picture g mb = picture g ms.
Proof.
  intros Hw Hmem. unfold picture. rewrite (w_rows _ _ _ Hw).
  apply Forall_fmap_ext_1, Forall_seqZ. intros x Hx.
  unfold picture_row. rewrite (w_cols _ _ _ Hw). f_equal.
  apply Forall_fmap_ext_1, Forall_seqZ. intros y Hy.
  unfold glyph_at. rewrite (w_cells _ _ _ Hw).
  destruct (Hmem (x, y)) as [c ->]; [split; cbn [fst snd]; lia | done].
Qed.

Lemma print_maze_report m :
  0 ≤ m_rows m → 0 ≤ m_cols m < 2 ^ 30 →
  (∀ p, in_grid m p → is_Some (get_cell m p)) →
  print_maze m = Ok (report_of m).
Proof.
  intros Hr Hc Hmem.
  unfold print_maze, print_stage_1, print_stage_2, print_stage_3, print_stage_4.
  rewrite print_stage_nonneg by lia.
  rewrite print_stage_1_walk_glyphs, print_stage_2_walk_glyphs,
    print_stage_3_walk_glyphs, print_stage_4_walk_glyphs.
  rewrite !print_walk_picture by done. cbn [bind]. unfold report_of.
  by destruct (negb (m_soln m =? 0)).
Qed.

Lemma valid_line_length l x s :
  valid_maze (maze_of_rows l) → l !! x = Some s →
  Z.of_nat (length (list_ascii_of_string s)) = m_cols (maze_of_rows l).
Proof.
  intros Hv%valid_maze_facts Hx.
  pose proof (vf_cols _ Hv) as Hcols.
  set (n := m_cols (maze_of_rows l)) in *.
  assert (Hrows : Z.of_nat x < m_rows (maze_of_rows l)).
  { cbn [maze_of_rows m_rows]. apply lookup_lt_Some in Hx. lia. }
  assert (Hget : ∀ y, 0 ≤ y →
            get_cell (maze_of_rows l) (Z.of_nat x, y)
            = fresh_cell x (Z.to_nat y)
                <$> list_ascii_of_string s !! Z.to_nat y).
  { intros y Hy. rewrite get_cell_maze_of_rows. unfold char_at. cbn [fst snd].
    rewrite decide_True by lia. by rewrite Nat2Z.id, Hx. }
  destruct (Z.lt_trichotomy (Z.of_nat (length (list_ascii_of_string s))) n)
    as [Hlt|[Heq|Hgt]]; [|done|].
  - destruct (vf_grid _ Hv (Z.of_nat x, n - 1)) as [c Hc].
    { split; cbn [fst snd]; lia. }
    rewrite Hget in Hc by lia.
    destruct (list_ascii_of_string s !! Z.to_nat (n - 1)) eqn:Hl; [|done].
    apply lookup_lt_Some in Hl. lia.
  - destruct (lookup_lt_is_Some_2 (list_ascii_of_string s) (Z.to_nat n)) as [t Ht];
      [lia|].
    destruct (vf_cell _ Hv (Z.of_nat x, n) (fresh_cell x (Z.to_nat n) t))
      as [[_ Hn] _].
    { rewrite Hget by lia. by rewrite Ht. }
    cbn [fst snd] in Hn. lia.
Qed.

Lemma picture_of_text l :
  valid_maze (maze_of_rows l) →
  picture glyph_1 (maze_of_rows l) = (twice ∘ list_ascii_of_string) <$> l.
Proof.
  intros Hv. apply list_eq. intros i.
  unfold picture. rewrite !list_lookup_fmap.
  change (m_rows (maze_of_rows l)) with (Z.of_nat (length l)).
  destruct (l !! i) as [s|] eqn:Hi.
  - rewrite lookup_seqZ_lt by (apply lookup_lt_Some in Hi; lia).
    cbn [fmap option_fmap option_map compose]. f_equal.
    unfold picture_row, twice. rewrite Z.add_0_l.
    rewrite <- (valid_line_length l i s Hv Hi). f_equal.
    apply list_eq. intros j. rewrite !list_lookup_fmap.
    destruct (list_ascii_of_string s !! j) as [t|] eqn:Hj.
    + rewrite lookup_seqZ_lt by (apply lookup_lt_Some in Hj; lia).
      cbn [fmap option_fmap option_map]. f_equal. unfold glyph_at.
      rewrite get_cell_maze_of_rows. unfold char_at. cbn [fst snd].
      rewrite decide_True by lia. rewrite Z.add_0_l, !Nat2Z.id, Hi. cbn.
      by rewrite Hj.
    + rewrite lookup_seqZ_ge; [done|]. apply lookup_ge_None in Hj. lia.
  - rewrite lookup_seqZ_ge; [done|]. apply lookup_ge_None in Hi. lia.
Qed.

(** X20. Reading a text whose grid is valid and printing stage 1 of the
    maze read gives the text back with every character doubled. *)
Theorem stage_1_echoes_the_text (sizeof_cell : nat) (l : list string) :
  (1 ≤ sizeof_cell)%nat → text_okb l = true → valid_maze (maze_of_rows l) →
  ∃ m, read_maze (new_maze sizeof_cell) (input_of l) = Ok (m, [])
    ∧ print_stage_1 m 0 NIL NIL (m_rows m) (m_cols m)
      = Ok (unlines ((twice ∘ list_ascii_of_string) <$> l)).
Proof.
  intros Hsz Hok Hv.
  destruct (read_then_traverse_run sizeof_cell l _ Hsz Hok Hv (Nat.le_refl _))
    as (m & _ & _ & Hread & Hw & _).
  pose proof (valid_maze_facts _ Hv) as Hvf.
  pose proof (vf_rows _ Hvf). pose proof (vf_cols _ Hvf).
  unfold MAX_ROWS, MAX_COLS in *.
  exists m. split; [done|].
  unfold print_stage_1. rewrite (w_rows _ _ _ Hw), (w_cols _ _ _ Hw).
  rewrite print_stage_nonneg by lia.
  rewrite print_stage_1_walk_glyphs.
  rewrite <- (w_rows _ _ _ Hw), <- (w_cols _ _ _ Hw).
  rewrite print_walk_picture.
  - by rewrite (picture_window _ _ _ _ Hw (vf_grid _ Hvf)), picture_of_text.
  - rewrite (w_rows _ _ _ Hw). lia.
  - rewrite (w_cols _ _ _ Hw). lia.
  - intros p Hp. rewrite (w_cells _ _ _ Hw).
    destruct (vf_grid _ Hvf p) as [c ->]; [|done].
    unfold in_grid in *. by rewrite <- (w_rows _ _ _ Hw), <- (w_cols _ _ _ Hw).
Qed.

Lemma stage_1_echoes_the_text_witness :
  (1 ≤ 24)%nat ∧ text_okb [".#."; "..."; ".#."]%string = true
  ∧ valid_maze (maze_of_rows [".#."; "..."; ".#."]%string)
  ∧ ∃ m, read_maze (new_maze 24) (input_of [".#."; "..."; ".#."]%string)
         = Ok (m, [])
      ∧ print_stage_1 m 0 NIL NIL (m_rows m) (m_cols m)
        = Ok (unlines ((twice ∘ list_ascii_of_string)
                         <$> [".#."; "..."; ".#."]%string)).
Proof.
  split; [lia|]. split; [reflexivity|]. split; [reflexivity|].
  apply (stage_1_echoes_the_text 24); [lia | reflexivity | reflexivity].
Defined.

(** X21. On a text whose grid is valid the program prints the report of
    the traversed grid (four stages when there is a solution, three when
    there is none) and returns [EXIT_SUCCESS]: reading into the allocated
    memory, traversing and printing compose as reading the grid off the
    text, traversing it and printing it. *)
Theorem main_prints_the_traversal_of_the_text (sizeof_cell fuel : nat)
    (l : list string) :
  (1 ≤ sizeof_cell)%nat → text_okb l = true →
  valid_maze (maze_of_rows l) → (fuel_bound (maze_of_rows l) ≤ fuel)%nat →
  ∃ ms', traverse_maze fuel (maze_of_rows l) = Ok ms'
    ∧ print_maze ms' = Ok (report_of ms')
    ∧ main sizeof_cell fuel (input_of l) = Ok (report_of ms', EXIT_SUCCESS).
Proof.
  intros Hsz Hok Hv Hfuel.
  destruct (read_then_traverse_run sizeof_cell l fuel Hsz Hok Hv Hfuel)
    as (m & ms' & m' & Hread & _ & Htr & Htr' & Hw').
  destruct (traversed_cells _ fuel Hv Hfuel)
    as (ms'' & Htr'' & Hrows & Hcols & Hr & Hc & Hcells).
  rewrite Htr in Htr''. injection Htr'' as <-.
  unfold MAX_ROWS, MAX_COLS in *.
  assert (Hmem : ∀ p, in_grid ms' p → is_Some (get_cell ms' p)).
  { intros p Hp. destruct (Hcells p) as (_ & c' & _ & -> & _); [|done].
    unfold in_grid in *. by rewrite <- Hrows, <- Hcols. }
  assert (Hprint : print_maze ms' = Ok (report_of ms')).
  { apply print_maze_report; [lia | lia | done]. }
  exists ms'. split; [done|]. split; [done|].
  unfold main. rewrite Hread. cbn [bind]. rewrite Htr'. cbn [bind].
  rewrite print_maze_report.
  - cbn [bind]. do 2 f_equal. unfold report_of.
    rewrite !(picture_window _ _ _ _ Hw' Hmem).
    by rewrite (w_rows _ _ _ Hw'), (w_cols _ _ _ Hw'), (w_cost _ _ _ Hw'),
      (w_soln _ _ _ Hw').
  - rewrite (w_rows _ _ _ Hw'). lia.
  - rewrite (w_cols _ _ _ Hw'). lia.
  - intros p Hp. rewrite (w_cells _ _ _ Hw').
    destruct (Hmem p) as [c ->]; [|done].
    unfold in_grid in *. by rewrite <- (w_rows _ _ _ Hw'), <- (w_cols _ _ _ Hw').
Qed.

Lemma main_prints_the_traversal_of_the_text_witness :
  (1 ≤ 24)%nat ∧ text_okb [".#."; "..."; ".#."]%string = true
  ∧ valid_maze (maze_of_rows [".#."; "..."; ".#."]%string)
  ∧ (fuel_bound (maze_of_rows [".#."; "..."; ".#."]%string) ≤ 18)%nat
  ∧ ∃ ms', traverse_maze 18 (maze_of_rows [".#."; "..."; ".#."]%string) = Ok ms'
      ∧ print_maze ms' = Ok (report_of ms')
      ∧ main 24 18 (input_of [".#."; "..."; ".#."]%string)
        = Ok (report_of ms', EXIT_SUCCESS).
Proof.
  split; [lia|]. split; [reflexivity|]. split; [reflexivity|].
  split; [vm_compute; lia|].
  apply (main_prints_the_traversal_of_the_text 24 18);
    [lia | reflexivity | reflexivity | vm_compute; lia].
Defined.

(** The output of the program on scenario A. *)
Example main_scenario_a :
  main 24 18 (input_of [".#."; "..."; ".#."]%string)
  = Ok (unlines
          (list_ascii_of_string
             <$> ["Stage 1"; "======="; "maze has 3 rows and 3 columns";
                  "..##.."; "......"; "..##.."; "";
                  "Stage 2"; "======="; "maze has a solution";
                  "++##++"; "++++++"; "++##++"; "";
                  "Stage 3"; "======="; "maze has solution with cost 2";
                  "00##00"; "++02++"; "02##02"; "";
                  "Stage 4"; "======="; "maze solution";
                  "00##  "; "..    "; "02##  "]%string),
        EXIT_SUCCESS).
Proof. vm_compute. reflexivity. Qed.

(** The output of the program on scenario B, which has no solution. *)
Example main_scenario_b :
  main 24 12 (input_of [".."; ".#"; "##"]%string)
  = Ok (unlines
          (list_ascii_of_string
             <$> ["Stage 1"; "======="; "maze has 3 rows and 2 columns";
                  "...."; "..##"; "####"; "";
                  "Stage 2"; "======="; "maze has no solution";
                  "++++"; "++##"; "####"; "";
                  "Stage 3"; "======="; "maze has no solution";
                  "0000"; "++##"; "####"]%string),
        EXIT_SUCCESS).
Proof. vm_compute. reflexivity. Qed.

(** * Further properties of single functions *)

(** ** A line that fills its row *)

Lemma read_cell_full s : ∀ lim m c inp t rest x y,
  c :: inp = s ++ t :: rest →
  Forall (λ a, a ≠ NEWLINE) s → t ≠ NEWLINE →
  length s = lim →
  0 ≤ x → 0 ≤ y → y + Z.of_nat lim < 2 ^ 30 →
  (∀ j, y ≤ j < y + Z.of_nat lim → get_cell m (x, j) = Some zero_cell) →
  ∃ m', read_cell lim m inp (x, 0) c x y = Ok (m', rest, Z.of_nat lim + 1)
    ∧ ∀ p, get_cell m' p =
        match (if decide (p.1 = x ∧ y ≤ p.2) then s !! Z.to_nat (p.2 - y)
               else None) with
        | Some t => Some (fresh_cell (Z.to_nat p.1) (Z.to_nat p.2) t)
        | None => get_cell m p
        end.
Proof.
  induction s as [|a s IH]; intros lim m c inp t rest x y Hinp Hnl Ht Hlim Hx Hy Hsmall Hzero.
  - injection Hinp as -> ->. subst lim. exists m. split; [done|].
    intros p. by case_decide.
  - injection Hinp as -> ->. apply Forall_cons in Hnl as [Ha Hnl].
    destruct lim as [|lim]; [done|]. injection Hlim as Hlim.
    cbn [read_cell]. rewrite (proj2 (Ascii.eqb_neq _ _) Ha). cbn [negb fst snd].
    rewrite Z.add_0_l.
    assert (Hc : get_cell m (x, y) = Some zero_cell) by (apply Hzero; lia).
    rewrite (read_cell_writes _ _ _ _ _ _ Hc).
    change (Cell x y NOTVISIT _ _ a) with (Cell x y NOTVISIT 0 0 a).
    rewrite (fresh_cell_Z _ _ _ Hx Hy).
    set (m4 := put_cell m (x, y) _).
    assert (Hget4 : ∀ p, get_cell m4 p
              = if decide ((x, y) = p)
                then Some (fresh_cell (Z.to_nat x) (Z.to_nat y) a)
                else get_cell m p).
    { intros p. apply (get_put _ _ _ _ _ Hc). }
    clearbody m4.
    assert (Hnext : ∃ c' inp', s ++ t :: rest = c' :: inp' ∧ c' ≠ NEWLINE).
    { destruct s as [|a' s]; [by exists t, rest|]. exists a', (s ++ t :: rest).
      split; [done|]. by apply Forall_cons in Hnl as [? _]. }
    destruct Hnext as (c' & inp' & Heq & Hc'). rewrite Heq. cbn [scanf_char].
    change (negb (1 =? 0)) with true.
    rewrite (proj2 (Ascii.eqb_neq _ _) Hc'). cbn [negb andb].
    rewrite int_add_small by lia.
    destruct (IH lim m4 c' inp' t rest x (y + 1)) as (m5 & Hrun & Hget5);
      [done | done | done | done | done | lia | lia | |].
    { intros j Hj. rewrite Hget4. rewrite decide_False by (intros [=]; lia).
      apply Hzero. lia. }
    rewrite Hrun. cbn [bind]. rewrite int_add_small by lia.
    exists m5. split; [do 2 f_equal; lia|].
    intros p. rewrite Hget5, Hget4. destruct p as [px py]. cbn [fst snd].
    destruct (decide (px = x ∧ y ≤ py)) as [[-> Hle]|Hn].
    + destruct (decide (py = y)) as [->|Hne].
      * rewrite decide_False by lia. rewrite Z.sub_diag. cbn.
        by rewrite decide_True.
      * rewrite decide_True by lia.
        replace (Z.to_nat (py - y)) with (S (Z.to_nat (py - (y + 1)))) by lia.
        cbn [lookup list_lookup].
        destruct (s !! Z.to_nat (py - (y + 1))); [done|].
        rewrite decide_False; [done|]. intros [=]. lia.
    + rewrite decide_False by lia. rewrite decide_False; [done|].
      intros [= -> ->]. lia.
Qed.

(** X22. A line of more than [MAX_COLS] characters fills its row:
    [read_cell] stores the first [MAX_COLS] characters, reads the next one
    without storing it anywhere, and returns [MAX_COLS + 1]; what follows
    that character is left in the input. *)
Theorem read_cell_drops_the_character_after_a_full_row (m : maze_t)
    (c : ascii) (inp s : list ascii) (t : ascii) (rest : list ascii) (x : Z) :
  c :: inp = s ++ t :: rest →
  Forall (λ a, a ≠ NEWLINE) s → t ≠ NEWLINE →
  Z.of_nat (length s) = MAX_COLS → 0 ≤ x →
  (∀ j, 0 ≤ j < MAX_COLS → get_cell m (x, j) = Some zero_cell) →
  ∃ m', read_cell (Z.to_nat MAX_COLS) m inp (x, 0) c x NIL
        = Ok (m', rest, MAX_COLS + 1)
    ∧ (∀ j a, s !! j = Some a →
         get_cell m' (x, Z.of_nat j) = Some (fresh_cell (Z.to_nat x) j a))
    ∧ ∀ p, ¬ (p.1 = x ∧ 0 ≤ p.2 < MAX_COLS) → get_cell m' p = get_cell m p.
Proof.
  intros Hinp Hnl Ht Hlen Hx Hzero. unfold MAX_COLS, NIL in *.
  destruct (read_cell_full s (Z.to_nat 100) m c inp t rest x 0)
    as (m' & Hrun & Hget); [done | done | done | lia | done | done | lia | |].
  { intros j Hj. apply Hzero. lia. }
  exists m'. split; [by rewrite Hrun|]. split.
  - intros j a Hj. rewrite Hget. cbn [fst snd].
    rewrite decide_True by lia. rewrite Z.sub_0_r, Nat2Z.id, Hj. done.
  - intros p Hp. rewrite Hget. case_decide as Hd; [|done].
    rewrite Z.sub_0_r. rewrite (proj2 (lookup_ge_None _ _)); [done|]. lia.
Qed.

Lemma read_cell_drops_the_character_after_a_full_row_witness :
  PATH :: (replicate 99 PATH ++ [WALL; NEWLINE])
  = replicate 100 PATH ++ WALL :: [NEWLINE]
  ∧ Forall (λ a, a ≠ NEWLINE) (replicate 100 PATH) ∧ WALL ≠ NEWLINE
  ∧ Z.of_nat (length (replicate 100 PATH)) = MAX_COLS ∧ 0 ≤ 0
  ∧ (∀ j, 0 ≤ j < MAX_COLS → get_cell (new_maze 24) (0, j) = Some zero_cell)
  ∧ ∃ m', read_cell (Z.to_nat MAX_COLS) (new_maze 24)
            (replicate 99 PATH ++ [WALL; NEWLINE]) (0, 0) PATH 0 NIL
          = Ok (m', [NEWLINE], MAX_COLS + 1)
      ∧ (∀ j a, replicate 100 PATH !! j = Some a →
           get_cell m' (0, Z.of_nat j) = Some (fresh_cell (Z.to_nat 0) j a))
      ∧ ∀ p, ¬ (p.1 = 0 ∧ 0 ≤ p.2 < MAX_COLS) →
          get_cell m' p = get_cell (new_maze 24) p.
Proof.
  assert (H1 : Forall (λ a, a ≠ NEWLINE) (replicate 100 PATH)).
  { apply Forall_replicate. discriminate. }
  assert (H2 : ∀ j, 0 ≤ j < MAX_COLS →
            get_cell (new_maze 24) (0, j) = Some zero_cell).
  { intros j Hj. rewrite get_cell_new_maze. cbn [fst snd].
    rewrite decide_True; [done|]. unfold MAX_ROWS, MAX_COLS in *. lia. }
  split; [reflexivity|]. split; [exact H1|]. split; [discriminate|].
  split; [reflexivity|]. split; [lia|]. split; [exact H2|].
  apply (read_cell_drops_the_character_after_a_full_row (new_maze 24) PATH
           (replicate 99 PATH ++ [WALL; NEWLINE]) (replicate 100 PATH) WALL
           [NEWLINE] 0);
    [reflexivity | exact H1 | discriminate | reflexivity | lia | exact H2].
Defined.

(** ** The walk back from the exit *)

(** X23. [shortest_path] called on the head of the queue with an exit
    whose first node is node [k] marks the cells on the parent chain of
    [k], from [k] up to a root, and no other cell, and returns the number
    of links of that chain. *)
Theorem shortest_path_follows_the_parents (fuel : nat) (m : maze_t)
    (q : queue_t) (e : cell_ptr) (k : nat) (n : list_t) (l : list cell_ptr) :
  q !! k = Some n → l_cell n = e →
  (∀ j n', (j < k)%nat → q !! j = Some n' → l_cell n' ≠ e) →
  chain q k l →
  (k + length l ≤ fuel)%nat → Z.of_nat (length l) < 2 ^ 31 →
  (∀ p, p ∈ l → is_Some (get_cell m p)) →
  ∃ m', shortest_path fuel m q (head_ptr q) (Some e)
        = Ok (m', Z.of_nat (length l) - 1)
    ∧ marked m l m'.
Proof.
  intros Hk He Hfirst Hch Hfuel Hlen Hget.
  assert (Hl : (1 ≤ length l)%nat).
  { destruct Hch; [simpl; lia | rewrite length_app; simpl; lia]. }
  destruct (shortest_path_chain q k l Hch (S (length l - 1)) m)
    as (m' & Hrun & Hmark); [lia | done | done |].
  exists m'. split; [|done].
  apply (shortest_path_mono (k + S (length l - 1))); [|lia].
  rewrite <- Hrun. destruct q as [|n0 q]; [by rewrite lookup_nil in Hk|].
  cbn [head_ptr].
  by apply (shortest_path_scan _ e k n (length l - 1) m k 0%nat).
Qed.

Lemma shortest_path_follows_the_parents_witness :
  [Node (0, 0)%Z None; Node (1, 0)%Z (Some 0%nat)] !! 1%nat
  = Some (Node (1, 0)%Z (Some 0%nat))
  ∧ l_cell (Node (1, 0)%Z (Some 0%nat)) = (1, 0)
  ∧ (∀ j n', (j < 1)%nat →
       [Node (0, 0)%Z None; Node (1, 0)%Z (Some 0%nat)] !! j = Some n' →
       l_cell n' ≠ (1, 0))
  ∧ chain [Node (0, 0)%Z None; Node (1, 0)%Z (Some 0%nat)] 1 [(0, 0); (1, 0)]
  ∧ (1 + length [(0, 0); (1, 0)] ≤ 3)%nat
  ∧ Z.of_nat (length [(0, 0); (1, 0)]) < 2 ^ 31
  ∧ (∀ p, p ∈ [(0, 0); (1, 0)] → is_Some (get_cell scenario_a p))
  ∧ ∃ m', shortest_path 3 scenario_a
            [Node (0, 0)%Z None; Node (1, 0)%Z (Some 0%nat)]
            (head_ptr [Node (0, 0)%Z None; Node (1, 0)%Z (Some 0%nat)])
            (Some (1, 0))
          = Ok (m', Z.of_nat (length [(0, 0); (1, 0)]) - 1)
      ∧ marked scenario_a [(0, 0); (1, 0)] m'.
Proof.
  assert (H3 : ∀ j n', (j < 1)%nat →
            [Node (0, 0)%Z None; Node (1, 0)%Z (Some 0%nat)] !! j = Some n' →
            l_cell n' ≠ (1, 0)).
  { intros [|j] n' Hj; [|lia]. intros [= <-]. discriminate. }
  assert (H4 : chain [Node (0, 0)%Z None; Node (1, 0)%Z (Some 0%nat)] 1
                 [(0, 0); (1, 0)]).
  { apply (chain_step _ 1 (Node (1, 0) (Some 0%nat)) 0 [(0, 0)]); [done | done |].
    by apply (chain_root _ 0 (Node (0, 0) None)). }
  assert (H7 : ∀ p, p ∈ [(0, 0); (1, 0)] → is_Some (get_cell scenario_a p)).
  { intros p Hp. apply elem_of_cons in Hp as [->|Hp]; [by eexists|].
    apply elem_of_cons in Hp as [->|Hp]; [by eexists|]. by apply elem_of_nil in Hp. }
  split; [reflexivity|]. split; [reflexivity|]. split; [exact H3|].
  split; [exact H4|]. split; [simpl; lia|]. split; [simpl; lia|].
  split; [exact H7|].
  apply (shortest_path_follows_the_parents 3 scenario_a _ (1, 0) 1
           (Node (1, 0) (Some 0%nat)) [(0, 0); (1, 0)]);
    [reflexivity | reflexivity | exact H3 | exact H4 | simpl; lia | simpl; lia
    | exact H7].
Defined.

(** ** The choice of the exit *)

(** X24. In any maze whose reached Open cells have a cost, [find_exit]
    called on a row with no exit yet returns a candidate (an Open and
    reached cell) of that row of least cost, the leftmost of these, and
    NULL exactly when the row has no candidate. *)
Theorem find_exit_returns_the_leftmost_cheapest (m : maze_t) (r lim : Z) :
  0 ≤ lim →
  (∀ y, 0 ≤ y < lim → is_Some (get_cell m (r, y))) →
  (∀ y, candidate m (r, y) → 0 ≤ cost_of m (r, y)) →
  ∃ ex, find_exit m (r, 0) None NOTVISIT lim = Ok ex
    ∧ match ex with
      | None => ∀ y, 0 ≤ y < lim → ¬ candidate m (r, y)
      | Some e =>
          e.1 = r ∧ 0 ≤ e.2 < lim ∧ candidate m e
          ∧ ∀ y, 0 ≤ y < lim → candidate m (r, y) →
              cost_of m e ≤ cost_of m (r, y)
              ∧ (cost_of m (r, y) = cost_of m e → e.2 ≤ y)
      end.
Proof.
  intros Hlim Hget Hpos.
  destruct (find_exit_walk_spec m r (Z.to_nat lim) 0 None NOTVISIT)
    as (ex & cost' & Hrun & Hst); [|done | done | |].
  { intros y Hy. apply Hget. lia. }
  { split; [done|]. intros y Hy. lia. }
  exists ex. split.
  - unfold find_exit. by replace (lim <? 0) with false by lia.
  - rewrite Z.add_0_l, Z2Nat.id in Hst by done.
    destruct ex as [e|]; unfold scan_state in Hst.
    + destruct Hst as (-> & ? & ? & ? & Hbest). done.
    + by destruct Hst as [_ ?].
Qed.

Lemma find_exit_returns_the_leftmost_cheapest_witness :
  0 ≤ 2
  ∧ (∀ y, 0 ≤ y < 2 →
       is_Some (get_cell (Maze 1 2 0 0 [[Cell 0 0 3 1 0 PATH; Cell 0 1 2 1 0 PATH]])
                  (0, y)))
  ∧ (∀ y, candidate (Maze 1 2 0 0 [[Cell 0 0 3 1 0 PATH; Cell 0 1 2 1 0 PATH]])
            (0, y) →
       0 ≤ cost_of (Maze 1 2 0 0 [[Cell 0 0 3 1 0 PATH; Cell 0 1 2 1 0 PATH]])
             (0, y))
  ∧ ∃ ex, find_exit (Maze 1 2 0 0 [[Cell 0 0 3 1 0 PATH; Cell 0 1 2 1 0 PATH]])
            (0, 0) None NOTVISIT 2 = Ok ex
      ∧ match ex with
        | None =>
            ∀ y, 0 ≤ y < 2 →
              ¬ candidate (Maze 1 2 0 0 [[Cell 0 0 3 1 0 PATH; Cell 0 1 2 1 0 PATH]])
                  (0, y)
        | Some e =>
            e.1 = 0 ∧ 0 ≤ e.2 < 2
            ∧ candidate (Maze 1 2 0 0 [[Cell 0 0 3 1 0 PATH; Cell 0 1 2 1 0 PATH]]) e
            ∧ ∀ y, 0 ≤ y < 2 →
                candidate (Maze 1 2 0 0 [[Cell 0 0 3 1 0 PATH; Cell 0 1 2 1 0 PATH]])
                  (0, y) →
                cost_of (Maze 1 2 0 0 [[Cell 0 0 3 1 0 PATH; Cell 0 1 2 1 0 PATH]]) e
                ≤ cost_of (Maze 1 2 0 0 [[Cell 0 0 3 1 0 PATH; Cell 0 1 2 1 0 PATH]])
                    (0, y)
                ∧ (cost_of (Maze 1 2 0 0 [[Cell 0 0 3 1 0 PATH; Cell 0 1 2 1 0 PATH]])
                     (0, y)
                   = cost_of (Maze 1 2 0 0 [[Cell 0 0 3 1 0 PATH; Cell 0 1 2 1 0 PATH]])
                       e →
                   e.2 ≤ y)
        end.
Proof.
  set (m := Maze 1 2 0 0 [[Cell 0 0 3 1 0 PATH; Cell 0 1 2 1 0 PATH]]).
  assert (H2 : ∀ y, 0 ≤ y < 2 → is_Some (get_cell m (0, y))).
  { intros y Hy. assert (y = 0 ∨ y = 1) as [->| ->] by lia; by eexists. }
  assert (H3 : ∀ y, candidate m (0, y) → 0 ≤ cost_of m (0, y)).
  { intros y [Ho _].
    destruct (decide (y = 0)) as [->|?]; [vm_compute; congruence|].
    destruct (decide (y = 1)) as [->|?]; [vm_compute; congruence|].
    exfalso. revert Ho. unfold open_at, get_cell. cbn [fst snd m_cells m].
    case_decide; [|done]. change (Z.to_nat 0) with 0%nat. cbn [lookup list_lookup].
    destruct (Z.to_nat y) as [|[|k]] eqn:E; [lia | lia | done]. }
  split; [lia|]. split; [exact H2|]. split; [exact H3|].
  apply (find_exit_returns_the_leftmost_cheapest m 0 2); [lia | exact H2 | exact H3].
Defined.

Example find_exit_prefers_the_cheaper_cell :
  find_exit (Maze 1 2 0 0 [[Cell 0 0 3 1 0 PATH; Cell 0 1 2 1 0 PATH]])
    (0, 0) None NOTVISIT 2 = Ok (Some (0, 1)).
Proof. vm_compute. reflexivity. Qed.

(** * The way through the maze *)

(** X25. On a valid grid the traversal finds the shortest way through the
    maze: when it reports a solution, the cost it stores is the number of
    steps of a shortest walk over Open cells from an entrance to a cell of
    the last row, and no walk from an entrance to the last row is shorter;
    when it reports none, no cell of the last row can be reached from an
    entrance and the cost is left as it was. *)
Theorem solution_cost_is_the_shortest_way_through (m : maze_t) (fuel : nat) :
  valid_maze m → (fuel_bound m ≤ fuel)%nat →
  ∃ m', traverse_maze fuel m = Ok m'
    ∧ ((m_soln m' = TRUE
        ∧ (∃ e, e.1 = m_rows m - 1 ∧ shortest m e (m_cost m'))
        ∧ ∀ e' d', e'.1 = m_rows m - 1 → shortest m e' d' → m_cost m' ≤ d')
       ∨ (m_soln m' = FALSE ∧ m_cost m' = m_cost m
          ∧ ∀ e, e.1 = m_rows m - 1 → ¬ connected m e)).
Proof.
  intros Hv Hfuel.
  destruct (traverse_maze_outcome m fuel Hv Hfuel)
    as (Hvf & m2 & q2 & ex & m' & _ & Hfl & _ & Hex & Htr & Hsv).
  pose proof (fl_inv _ _ _ Hfl) as Hinv.
  pose proof (inv_static _ _ _ _ Hinv) as Hss.
  pose proof (ss_rows _ _ Hss) as Hr2. pose proof (ss_cols _ _ Hss) as Hc2.
  assert (Hcand : ∀ p, connected m p →
            candidate m2 p ∧ 0 ≤ p.2 < m_cols m ∧ shortest m p (cost_of m2 p)).
  { intros p Hcon. pose proof Hcon as Hin%(flooded_connected _ _ _ Hfl).
    destruct (flooded_queued _ _ _ Hfl _ Hin) as [_ Hre].
    pose proof (flooded_shortest _ _ _ Hfl _ Hin) as Hsh.
    in_queue Hin as k n Hk.
    pose proof (inv_node _ _ _ _ Hinv _ _ Hk) as (Ho & _ & _).
    split_and!; [| apply (open_in_grid _ Hvf _ Ho).. | done].
    split; [by rewrite (same_static_open _ _ _ Hss)|].
    rewrite Hre. unfold TRUE, FALSE. lia. }
  exists m'. split; [done|]. destruct ex as [e|].
  - left. destruct (sv_exit _ _ _ _ Hsv) as (Hs & Hc & _).
    destruct Hex as (He1 & He2 & Hce & Hbest).
    assert (Hine : e ∈ l_cell <$> q2).
    { destruct (inv_candidate _ _ _ _ _ Hinv Hce) as (k & n & Hk & <- & _).
      apply list_elem_of_fmap. exists n. split; [done|].
      by eapply list_elem_of_lookup_2. }
    split; [done|]. split.
    + exists e. split; [lia|]. rewrite Hc. by apply (flooded_shortest _ _ _ Hfl).
    + intros [x y] d' Hx Hd'. cbn [fst] in Hx. subst x.
      assert (Hcon : connected m (m_rows m - 1, y))
        by (destruct Hd' as [(l & ? & _) _]; by exists l).
      destruct (Hcand _ Hcon) as (Hcy & Hy & Hsh). cbn [snd] in Hy.
      rewrite (shortest_unique _ _ _ _ Hd' Hsh), Hc.
      rewrite <- Hr2 in *. apply Hbest; [lia | done].
  - right. pose proof (sv_exit _ _ _ _ Hsv) as Heq. simpl in Heq. subst m'.
    destruct (inv_maze _ _ _ _ Hinv) as [Hs Hc].
    split; [by rewrite Hs, (vf_soln _ Hvf)|]. split; [done|].
    intros [x y] Hx Hcon. cbn [fst] in Hx. subst x.
    destruct (Hcand _ Hcon) as (Hcy & Hy & _). cbn [snd] in Hy.
    apply (Hex y); [lia|]. by rewrite Hr2.
Qed.

Lemma solution_cost_is_the_shortest_way_through_witness :
  valid_maze scenario_a ∧ (fuel_bound scenario_a ≤ 18)%nat
  ∧ ∃ m', traverse_maze 18 scenario_a = Ok m'
      ∧ ((m_soln m' = TRUE
          ∧ (∃ e, e.1 = m_rows scenario_a - 1
                  ∧ shortest scenario_a e (m_cost m'))
          ∧ ∀ e' d', e'.1 = m_rows scenario_a - 1 →
              shortest scenario_a e' d' → m_cost m' ≤ d')
         ∨ (m_soln m' = FALSE ∧ m_cost m' = m_cost scenario_a
            ∧ ∀ e, e.1 = m_rows scenario_a - 1 → ¬ connected scenario_a e)).
Proof.
  split; [reflexivity|]. split; [vm_compute; lia|].
  apply (solution_cost_is_the_shortest_way_through scenario_a 18);
    [reflexivity | vm_compute; lia].
Defined.
